(** * AbacusHOD / GRAND_HOD: the galaxy population kernels

    A shallow embedding of
    [AbacusHOD/GRAND_HOD/gen_gal_catalog_rockstar_modified_subsampled_numba.py]
    and the properties its specification states about it, followed by the
    bookkeeping of [abacusnbody/hod/load_sims.py], which prepares the halo
    and particle subsamples the kernels read.

    Numbers.  A [float64] is an IEEE-754 binary64 value, given by the
    Standard Library's [spec_float] at precision 53 and [emax = 1024]: signed
    zeros, infinities, NaN and correctly rounded [+ - * /].  Comparisons are
    IEEE comparisons, false on NaN; the licence [fastmath=True] gives the
    compiler (reassociation, NaN-free operands) is not modelled.  The calls
    into the C mathematical library ([erf], [erfc], [log], [log10], [exp],
    [pow]) are the fields of a record [libm] that every model takes as an
    argument.  Array lengths, indices and the int64 counters of the kernels
    are [nat]: a counter is incremented at most once per array element, so it
    stays below 2^63 and never wraps.

    Arrays.  A numpy array is a list, read with [a !!! i] and stored to with
    [<[i := v]> a].  The compiled kernels do not check bounds: a read past
    the end gives NaN here and a store past the end is dropped.

    Threads.  The two [prange] loops are run in thread order; the fill pass
    stores to pairwise distinct cells, so the order does not matter. *)

From Stdlib Require Import ZArith QArith Qround Lia Lqa Floats.SpecFloat.
From stdpp Require Import base list gmap strings pretty sorting.


(** ** binary64 *)

Module F64.

Definition prec : Z := 53.
Definition emax : Z := 1024.

Definition float64 : Type := spec_float.

Definition add : float64 -> float64 -> float64 := SFadd prec emax.
Definition sub : float64 -> float64 -> float64 := SFsub prec emax.
Definition mul : float64 -> float64 -> float64 := SFmul prec emax.
Definition div : float64 -> float64 -> float64 := SFdiv prec emax.
Definition opp : float64 -> float64 := SFopp.
Definition sqrt : float64 -> float64 := SFsqrt prec emax.
Definition leb : float64 -> float64 -> bool := SFleb.
Definition ltb : float64 -> float64 -> bool := SFltb.
Definition eqb : float64 -> float64 -> bool := SFeqb.

(** Conversion of an integer (Python [int], numpy [int64]) to binary64. *)
Definition of_Z (z : Z) : float64 := binary_normalize prec emax z 0 false.

(** The decimal literal [m * 10^-e] of the source text.  Both [m] and [10^e]
    are below 2^53 in every literal of the file, so the single correctly
    rounded division yields the double nearest to the decimal. *)
Definition lit (m : Z) (e : Z) : float64 := div (of_Z m) (of_Z (10 ^ e)).

Definition nan : float64 := S754_nan.
Definition zero : float64 := S754_zero false.

Definition is_nan (x : float64) : bool :=
  match x with S754_nan => true | _ => false end.

Definition is_zero (x : float64) : bool :=
  match x with S754_zero _ => true | _ => false end.


End F64.

Export F64.

#[global] Instance float64_eq_dec : EqDecision float64.
Proof. unfold float64. solve_decision. Defined.

#[global] Instance float64_inhabited : Inhabited float64 := populate nan.

Declare Scope f64_scope.
Delimit Scope f64_scope with f64.
Bind Scope f64_scope with float64.
Notation "x + y" := (F64.add x y) : f64_scope.
Notation "x - y" := (F64.sub x y) : f64_scope.
Notation "x * y" := (F64.mul x y) : f64_scope.
Notation "x / y" := (F64.div x y) : f64_scope.
Notation "- x" := (F64.opp x) : f64_scope.
Notation "x <=? y" := (F64.leb x y) : f64_scope.
Notation "x <? y" := (F64.ltb x y) : f64_scope.

(** ** The arithmetic a scalar kernel needs

    [wrap] is a scalar function of Python numbers; it is written once over
    this interface and read at [float64] (what the compiled kernels run) and
    at [Q] (exact arithmetic, for the statements about real numbers). *)

Class Scalar (A : Type) := {
  s_add : A -> A -> A;
  s_sub : A -> A -> A;
  s_div : A -> A -> A;
  s_opp : A -> A;
  s_leb : A -> A -> bool;
  s_ltb : A -> A -> bool;
  s_of_Z : Z -> A
}.

#[global] Instance scalar_float64 : Scalar float64 := {|
  s_add := F64.add; s_sub := F64.sub; s_div := F64.div; s_opp := F64.opp;
  s_leb := F64.leb; s_ltb := F64.ltb; s_of_Z := F64.of_Z
|}.

Definition Qlt_bool (x y : Q) : bool := negb (Qle_bool y x).


(** [wrap(x, L)], "Fast scalar mod implementation":
<<
    L2 = L/2
    if x >= L2:   return x - L
    elif x < -L2: return x + L
    return x
>> *)
Definition wrap {A : Type} `{Scalar A} (x L : A) : A :=
  let L2 := s_div L (s_of_Z 2) in
  if s_leb L2 x then s_sub x L
  else if s_ltb x (s_opp L2) then s_add x L
  else x.

(** ** The C mathematical library

    [math.erf], [math.erfc], [np.log], [np.log10], [np.exp] and the power
    operator [**] are calls into the platform's libm.  The models take them
    as a record, so every general statement below holds for whichever
    implementation is linked. *)

Record libm := {
  m_erf : float64 -> float64;
  m_erfc : float64 -> float64;
  m_log : float64 -> float64;     (* np.log: natural logarithm *)
  m_log10 : float64 -> float64;   (* np.log10 *)
  m_exp : float64 -> float64;
  m_pow : float64 -> float64 -> float64   (* x ** y *)
}.

(** ** Probability models

    Operations are taken in the order Python's grammar gives them ([**]
    binds tighter than unary minus, [*] and [/] associate to the left); the
    reassociation that [fastmath=True] permits the compiler is not modelled.
    An [int] operand of a float operation is converted with [of_Z]. *)

Section Models.

Variable M : libm.

Local Open Scope f64_scope.

Local Notation "x ** y" := (m_pow M x y) (at level 30, right associativity) : f64_scope.

(** [return 0.3989422804014327/sigma*np.exp(-(x - mean)**2/2/sigma**2)] *)
Definition Gaussian_fun (x mean sigma : float64) : float64 :=
  lit 3989422804014327 16 / sigma
  * m_exp M (- ((x - mean) ** of_Z 2) / of_Z 2 / (sigma ** of_Z 2)).

(** [phi = Gaussian_fun(logM_h, logM_cut, sigma); return phi] *)
Definition phi_fun (logM_h logM_cut sigma : float64) : float64 :=
  Gaussian_fun logM_h logM_cut sigma.

(** [x = gamma*(logM_h-logM_cut)/sigma;
     Phi = 0.5*(1 + math.erf(x/np.sqrt(2))); return Phi] *)
Definition Phi_fun (logM_h logM_cut sigma gamma : float64) : float64 :=
  let x := gamma * (logM_h - logM_cut) / sigma in
  lit 5 1 * (of_Z 1 + m_erf M (x / F64.sqrt (of_Z 2))).

(** [A = (p_max-1./Q); return A] *)
Definition A_fun (p_max Q phi Phi : float64) : float64 :=
  p_max - lit 1 0 / Q.

(** [return ((M_h - kappa*M_cut)/M_1)**alpha*0.5*
     math.erfc((logM_cut - np.log10(M_h))/(1.41421356*sigma))] *)
Definition n_sat_LRG_modified
    (M_h logM_cut M_cut M_1 sigma alpha kappa : float64) : float64 :=
  ((M_h - kappa * M_cut) / M_1) ** alpha * lit 5 1
  * m_erfc M ((logM_cut - m_log10 M M_h) / (lit 141421356 8 * sigma)).

(** [return 0.5*math.erfc((logM_cut - np.log10(M_h))/(1.41421356*sigma))] *)
Definition n_cen_LRG (M_h logM_cut sigma : float64) : float64 :=
  lit 5 1 * m_erfc M ((logM_cut - m_log10 M M_h) / (lit 141421356 8 * sigma)).

(** [return A_s*((M_h-kappa*M_cut)/M_1)**alpha] *)
Definition N_sat_generic (M_h M_cut kappa M_1 alpha A_s : float64) : float64 :=
  A_s * ((M_h - kappa * M_cut) / M_1) ** alpha.

(** <<
    logM_h = np.log(M_h)
    phi = phi_fun(logM_h, logM_cut, sigma)
    Phi = Phi_fun(logM_h, logM_cut, sigma, gamma)
    A = A_fun(p_max, Q, phi, Phi)
    return 2.*A*phi*Phi + 0.5/Q*(1 + math.erf((logM_h-logM_cut)*100))
>> *)
Definition N_cen_ELG_v1 (M_h p_max Q logM_cut sigma gamma : float64) : float64 :=
  let logM_h := m_log M M_h in
  let phi := phi_fun logM_h logM_cut sigma in
  let Phi := Phi_fun logM_h logM_cut sigma gamma in
  let A := A_fun p_max Q phi Phi in
  lit 2 0 * A * phi * Phi
  + lit 5 1 / Q * (of_Z 1 + m_erf M ((logM_h - logM_cut) * of_Z 100)).

(** <<
    logM_h = np.log10(M_h)
    if logM_h <= logM_cut:
        return p_max*Gaussian_fun(logM_h, logM_cut, sigma)
    else:
        return p_max*(M_h/10**logM_cut)**gamma/(2.5066283*sigma)
>> *)
Definition N_cen_ELG_v2 (M_h p_max logM_cut sigma gamma : float64) : float64 :=
  let logM_h := m_log10 M M_h in
  if logM_h <=? logM_cut then p_max * Gaussian_fun logM_h logM_cut sigma
  else p_max * (M_h / of_Z 10 ** logM_cut) ** gamma / (lit 25066283 7 * sigma).

(** [return 0.5*p_max*(1 + math.erf((np.log10(M_h)-logM_cut)/1.41421356/sigma))] *)
Definition N_cen_QSO (M_h p_max logM_cut sigma : float64) : float64 :=
  lit 5 1 * p_max
  * (of_Z 1 + m_erf M ((m_log10 M M_h - logM_cut) / lit 141421356 8 / sigma)).

End Models.

(** ** Tracers, the keep mask and the output columns *)

Inductive tracer := LRG | ELG | QSO.

#[global] Instance tracer_eq_dec : EqDecision tracer.
Proof. solve_decision. Defined.

(** The value stored in [keep[i]] (an [int8]): 0 when the object is not
    kept, else the tracer it goes to. *)
Definition keep_code (l : option tracer) : Z :=
  match l with
  | None => 0
  | Some LRG => 1
  | Some ELG => 2
  | Some QSO => 3
  end.

(** The comparison chain that ends both classify loops:
<<
    if randoms[i] <= LRG_marker:    keep[i] = 1
    elif randoms[i] <= ELG_marker:  keep[i] = 2
    elif randoms[i] <= QSO_marker:  keep[i] = 3
    else:                           keep[i] = 0
>> *)
Definition classify (r LRG_marker ELG_marker QSO_marker : float64) : option tracer :=
  if (r <=? LRG_marker)%f64 then Some LRG
  else if (r <=? ELG_marker)%f64 then Some ELG
  else if (r <=? QSO_marker)%f64 then Some QSO
  else None.

(** What one kept object contributes: a value for each of the 8 columns. *)
Record galaxy := {
  g_x : float64; g_y : float64; g_z : float64;
  g_vx : float64; g_vy : float64; g_vz : float64;
  g_mass : float64; g_id : Z
}.

(** The seven float columns; [id] is held in a buffer of the ids' dtype
    and converted by [astype(np.float64)] when the dictionary is built. *)
Inductive column := Cx | Cy | Cz | Cvx | Cvy | Cvz | Cmass.

#[global] Instance column_eq_dec : EqDecision column.
Proof. solve_decision. Defined.

Definition col_of (c : column) (g : galaxy) : float64 :=
  match c with
  | Cx => g_x g | Cy => g_y g | Cz => g_z g
  | Cvx => g_vx g | Cvy => g_vy g | Cvz => g_vz g
  | Cmass => g_mass g
  end.

(** A buffer from [np.empty]: a cell is [None] until it is stored to.  A
    store past the end is undefined behaviour in the compiled kernels (numba
    elides the bounds check); here it leaves the buffer as it is. *)
Abbreviation buffer A := (list (option A)) (only parsing).

Definition np_empty {A : Type} (n : nat) : buffer A := replicate n None.

Abbreviation fbufs := (tracer -> column -> buffer float64) (only parsing).
Abbreviation ibufs := (tracer -> buffer Z) (only parsing).

Definition fstore (B : fbufs) (t : tracer) (c : column) (j : nat) (v : float64) : fbufs :=
  fun t' c' =>
    if decide (t' = t /\ c' = c) then <[j := Some v]> (B t' c') else B t' c'.

Definition istore (B : ibufs) (t : tracer) (j : nat) (v : Z) : ibufs :=
  fun t' => if decide (t' = t) then <[j := Some v]> (B t') else B t'.

(** The stores of one branch of the fill loop, in source order (x, vx, y,
    vy, z, vz, mass, id).  The source stores [pos[i,2]] to [z] and, under
    [rsd], overwrites the same cell with the wrapped value computed from the
    cells just stored; [g_z] is that final value. *)
Definition write_galaxy (B : fbufs * ibufs) (t : tracer) (j : nat) (g : galaxy)
    : fbufs * ibufs :=
  let F := B.1 in
  let F := fstore F t Cx j (g_x g) in
  let F := fstore F t Cvx j (g_vx g) in
  let F := fstore F t Cy j (g_y g) in
  let F := fstore F t Cvy j (g_vy g) in
  let F := fstore F t Cz j (g_z g) in
  let F := fstore F t Cvz j (g_vz g) in
  let F := fstore F t Cmass j (g_mass g) in
  (F, istore B.2 t j (g_id g)).

(** The returned [Dict]: the 8 named columns of one tracer. *)
Definition id_astype (b : buffer Z) : buffer float64 :=
  (fun c : option Z => F64.of_Z <$> c) <$> b.

Definition make_dict (B : fbufs * ibufs) (t : tracer) : gmap string (buffer float64) :=
  <["id" := id_astype (B.2 t)]>
  (<["mass" := B.1 t Cmass]>
  (<["vz" := B.1 t Cvz]>
  (<["vy" := B.1 t Cvy]>
  (<["vx" := B.1 t Cvx]>
  (<["z" := B.1 t Cz]>
  (<["y" := B.1 t Cy]>
  (<["x" := B.1 t Cx]> ∅))))))).

(** ** Thread boundaries

    [hstart = np.rint(np.linspace(0, H, Nthread + 1))].  [np.linspace] is
    numba's, not this repository's: it is a field of the runtime below, with
    its results given by their exact rational values (every finite double is
    one).  [np.rint] rounds to the nearest integer, ties to even, and is
    exact on doubles; [range] then converts the integral double to an
    index. *)

Definition np_rint (x : Q) : Z :=
  let f := Qfloor x in
  let d := (x - inject_Z f)%Q in
  if Qlt_bool d (1 # 2) then f
  else if Qlt_bool (1 # 2) d then (f + 1)%Z
  else if Z.even f then f else (f + 1)%Z.

Definition hstart_of (ls : list Q) : list nat := (fun x => Z.to_nat (np_rint x)) <$> ls.

(** [range(a, b)] *)
Definition range (a b : nat) : list nat := seq a (b - a).

(** What the compiled kernels take from their environment:
    the linked libm, [numba.get_num_threads()] and numba's [np.linspace]. *)
Record runtime := {
  rt_libm : libm;
  rt_num_threads : nat;
  rt_linspace : Z -> Z -> nat -> list Q
}.

(** What [np.linspace(start, stop, num)] promises for [start <= stop]:
    [num] values, the first [start], the last [stop], in non-decreasing
    order. *)
Fixpoint Qsortedb (l : list Q) : bool :=
  match l with
  | [] => true
  | x :: l' => match l' with [] => true | y :: _ => Qle_bool x y end && Qsortedb l'
  end.

Definition linspace_ok (start stop : Z) (num : nat) (ls : list Q) : bool :=
  Nat.eqb (length ls) num
  && match head ls with Some x => Qeq_bool x (inject_Z start) | None => false end
  && match last ls with Some x => Qeq_bool x (inject_Z stop) | None => false end
  && Qsortedb ls.

(** The values in exact arithmetic: [start + i * (stop - start) / (num - 1)]. *)
Definition linspace_exact (start stop : Z) (num : nat) : list Q :=
  match num with
  | 0 => []
  | 1 => [inject_Z start]
  | _ => (fun i : nat =>
            inject_Z start
            + inject_Z (Z.of_nat i) * (inject_Z (stop - start) / inject_Z (Z.of_nat (num - 1))))%Q
         <$> seq 0 num
  end.

(** ** The partition engine

    Both generators run the same two loops over the same thread ranges;
    they differ in how an object is labelled ([label]) and in the values a
    kept object writes ([gal]).  The loops are written once here.  The
    [prange] over threads is taken in thread order. *)

Section Engine.

Variables (H Nthread : nat) (hstart : list nat).
Variable label : nat -> option tracer.
Variable gal : nat -> galaxy.

(** [Nout[:, t, 0]] for each tracer [t]; of the 8 slots of the last axis
    only slot 0 is used. *)
Abbreviation counters := (tracer -> list nat) (only parsing).

Definition bump (Nout : counters) (tid : nat) (t : tracer) : counters :=
  fun t' => if decide (t' = t) then alter S tid (Nout t') else Nout t'.

Definition classify_step (tid : nat)
    (st : counters * buffer (option tracer)) (i : nat)
    : counters * buffer (option tracer) :=
  match label i with
  | Some t => (bump st.1 tid t, <[i := Some (Some t)]> st.2)
  | None => (st.1, <[i := Some None]> st.2)
  end.

Definition thread_range (tid : nat) : list nat :=
  range (hstart !!! tid) (hstart !!! S tid).

Definition classify_pass : counters * buffer (option tracer) :=
  foldl (fun st tid => foldl (classify_step tid) st (thread_range tid))
        (fun _ => replicate Nthread 0, np_empty H)
        (seq 0 Nthread).

(** [gstart[0, :] = 0; gstart[1:, t] = Nout[:, t, 0].cumsum()] *)
Fixpoint cumsum_from (acc : nat) (l : list nat) : list nat :=
  match l with
  | [] => []
  | x :: l' => (acc + x) :: cumsum_from (acc + x) l'
  end.

Definition gstart_of (Nout : counters) : tracer -> list nat :=
  fun t => 0 :: cumsum_from 0 (Nout t).

(** [N_lrg = gstart[-1, 0]] and so on: the last row of [gstart]. *)
Definition totals (gstart : tracer -> list nat) : tracer -> nat :=
  fun t => gstart t !!! Nthread.

(** The 24 allocations.  All are sized by their own tracer's total except
    [qso_mass = np.empty(N_lrg, dtype = mass.dtype)]. *)
Definition alloc (N : tracer -> nat) : fbufs * ibufs :=
  (fun t c =>
     match t, c with
     | QSO, Cmass => np_empty (N LRG)
     | _, _ => np_empty (N t)
     end,
   fun t => np_empty (N t)).

Definition fill_step (keep : buffer (option tracer))
    (st : (fbufs * ibufs) * (tracer -> nat)) (i : nat)
    : (fbufs * ibufs) * (tracer -> nat) :=
  match keep !! i with
  | Some (Some (Some t)) =>
      (write_galaxy st.1 t (st.2 t) (gal i),
       fun t' => if decide (t' = t) then S (st.2 t') else st.2 t')
  | _ => st
  end.

(** [j1, j2, j3 = gstart[tid]], then the loop over the thread's range. *)
Definition fill_pass (keep : buffer (option tracer)) (gstart : tracer -> list nat)
    (B : fbufs * ibufs) : fbufs * ibufs :=
  foldl (fun B tid =>
           (foldl (fill_step keep) (B, fun t => gstart t !!! tid) (thread_range tid)).1)
        B (seq 0 Nthread).

Definition engine_buffers : fbufs * ibufs :=
  let '(Nout, keep) := classify_pass in
  let gstart := gstart_of Nout in
  fill_pass keep gstart (alloc (totals gstart)).

Definition run_engine
    : gmap string (buffer float64) * gmap string (buffer float64)
      * gmap string (buffer float64) :=
  let B := engine_buffers in
  (make_dict B LRG, make_dict B ELG, make_dict B QSO).

End Engine.

(** ** The central generator

    Array reads are [a !!! i]; the arrays of one call have a common length
    (the interface requires it), and a read past the end of a shorter one,
    undefined in the compiled kernel, gives NaN here. *)

Section GenCent.

Variable R : runtime.
Variables pos vel : list (list float64).
Variable mass : list float64.
Variable ids : list Z.
Variables multis randoms vdev deltac fenv : list float64.
Variables LRG_design_array ELG_design_array QSO_design_array : list float64.
Variables ic alpha_c Ac Bc : float64.
Variable rsd : bool.
Variables inv_velz2kms lbox : float64.
Variables want_LRG want_ELG want_QSO : bool.

Local Open Scope f64_scope.

(** The per-tracer term a halo adds to the running marker. *)
Definition cent_contrib_LRG (i : nat) : float64 :=
  let logM_cut_L := LRG_design_array !!! 0%nat in
  let sigma_L := LRG_design_array !!! 2%nat in
  let logM_cut_L_temp := logM_cut_L + Ac * (deltac !!! i) + Bc * (fenv !!! i) in
  n_cen_LRG (rt_libm R) (mass !!! i) logM_cut_L_temp sigma_L * ic * (multis !!! i).

Definition cent_contrib_ELG (i : nat) : float64 :=
  let pmax_E := ELG_design_array !!! 0%nat in
  let Q_E := ELG_design_array !!! 1%nat in
  let logM_cut_E := ELG_design_array !!! 2%nat in
  let sigma_E := ELG_design_array !!! 4%nat in
  let gamma_E := ELG_design_array !!! 7%nat in
  N_cen_ELG_v1 (rt_libm R) (mass !!! i) pmax_E Q_E logM_cut_E sigma_E gamma_E
  * (multis !!! i).

Definition cent_contrib_QSO (i : nat) : float64 :=
  let pmax_Q := QSO_design_array !!! 0%nat in
  let logM_cut_Q := QSO_design_array !!! 1%nat in
  let sigma_Q := QSO_design_array !!! 3%nat in
  N_cen_QSO (rt_libm R) (mass !!! i) pmax_Q logM_cut_Q sigma_Q.

(** <<
    LRG_marker = 0
    if want_LRG: LRG_marker += n_cen_LRG(...) * ic * multis[i]
    ELG_marker = LRG_marker
    if want_ELG: ELG_marker += N_cen_ELG_v1(...) * multis[i]
    QSO_marker = ELG_marker
    if want_QSO: QSO_marker += N_cen_QSO(...)
>> *)
Definition cent_markers (i : nat) : float64 * float64 * float64 :=
  let LRG_marker := F64.zero in
  let LRG_marker := if want_LRG then LRG_marker + cent_contrib_LRG i else LRG_marker in
  let ELG_marker := LRG_marker in
  let ELG_marker := if want_ELG then ELG_marker + cent_contrib_ELG i else ELG_marker in
  let QSO_marker := ELG_marker in
  let QSO_marker := if want_QSO then QSO_marker + cent_contrib_QSO i else QSO_marker in
  (LRG_marker, ELG_marker, QSO_marker).

Definition cent_label (i : nat) : option tracer :=
  let '(LRG_marker, ELG_marker, QSO_marker) := cent_markers i in
  classify (randoms !!! i) LRG_marker ELG_marker QSO_marker.

(** The three branches of the fill loop store the same values:
<<
    x = pos[i,0];  vx = vel[i,0] + alpha_c * vdev[i]
    y = pos[i,1];  vy = vel[i,1] + alpha_c * vdev[i]
    z = pos[i,2];  vz = vel[i,2] + alpha_c * vdev[i]
    if rsd: z = wrap(pos[i,2] + vz * inv_velz2kms, lbox)
    mass = mass[i];  id = ids[i]
>> *)
Definition cent_galaxy (i : nat) : galaxy :=
  let vx := (vel !!! i) !!! 0%nat + alpha_c * (vdev !!! i) in
  let vy := (vel !!! i) !!! 1%nat + alpha_c * (vdev !!! i) in
  let vz := (vel !!! i) !!! 2%nat + alpha_c * (vdev !!! i) in
  let z := (pos !!! i) !!! 2%nat in
  {| g_x := (pos !!! i) !!! 0%nat;
     g_y := (pos !!! i) !!! 1%nat;
     g_z := if rsd then wrap (z + vz * inv_velz2kms) lbox else z;
     g_vx := vx; g_vy := vy; g_vz := vz;
     g_mass := mass !!! i;
     g_id := ids !!! i |}.

(** [H = len(mass)], [Nthread = numba.get_num_threads()],
    [hstart = np.rint(np.linspace(0, H, Nthread + 1))]. *)
Definition cent_hstart : list nat :=
  hstart_of (rt_linspace R 0 (Z.of_nat (length mass)) (rt_num_threads R + 1)).

Definition gen_cent
    : gmap string (buffer float64) * gmap string (buffer float64)
      * gmap string (buffer float64) :=
  run_engine (length mass) (rt_num_threads R) cent_hstart cent_label cent_galaxy.

End GenCent.

(** ** The satellite generator *)

Section GenSats.

Variable R : runtime.
Variables ppos pvel hvel : list (list float64).
Variable hmass : list float64.
Variable hid : list Z.
Variables weights randoms hdeltac hfenv : list float64.
Variable enable_ranks : bool.
Variables ranks ranksv ranksp ranksr : list float64.
Variables LRG_design_array LRG_decorations_array : list float64.
Variables ELG_design_array QSO_design_array : list float64.
Variable rsd : bool.
Variables inv_velz2kms lbox Mpart : float64.
Variables want_LRG want_ELG want_QSO : bool.

Local Open Scope f64_scope.

Local Notation "x ** y" := (m_pow (rt_libm R) x y) (at level 30, right associativity) : f64_scope.

(** <<
    M1_L_temp = 10**(logM1_L + As * hdeltac[i] + Bs * hfenv[i])
    logM_cut_L_temp = logM_cut_L + Ac * hdeltac[i] + Bc * hfenv[i]
    base_p = n_sat_LRG_modified(hmass[i], logM_cut_L_temp, 10**logM_cut_L_temp,
                                M1_L_temp, sigma_L, alpha_L, kappa_L) * weights[i] * ic
    if enable_ranks:
        decorator = 1 + s * ranks[i] + s_v * ranksv[i] + s_p * ranksp[i] + s_r * ranksr[i]
        exp_sat = base_p * decorator
    else:
        exp_sat = base_p
>>
    The decorations are read from indices 1 to 10 of
    [LRG_decorations_array]. *)
Definition sat_contrib_LRG (i : nat) : float64 :=
  let logM_cut_L := LRG_design_array !!! 0%nat in
  let logM1_L := LRG_design_array !!! 1%nat in
  let sigma_L := LRG_design_array !!! 2%nat in
  let alpha_L := LRG_design_array !!! 3%nat in
  let kappa_L := LRG_design_array !!! 4%nat in
  let s := LRG_decorations_array !!! 2%nat in
  let s_v := LRG_decorations_array !!! 3%nat in
  let s_p := LRG_decorations_array !!! 4%nat in
  let s_r := LRG_decorations_array !!! 5%nat in
  let Ac := LRG_decorations_array !!! 6%nat in
  let As := LRG_decorations_array !!! 7%nat in
  let Bc := LRG_decorations_array !!! 8%nat in
  let Bs := LRG_decorations_array !!! 9%nat in
  let ic := LRG_decorations_array !!! 10%nat in
  let M1_L_temp := of_Z 10 ** (logM1_L + As * (hdeltac !!! i) + Bs * (hfenv !!! i)) in
  let logM_cut_L_temp := logM_cut_L + Ac * (hdeltac !!! i) + Bc * (hfenv !!! i) in
  let base_p :=
    n_sat_LRG_modified (rt_libm R) (hmass !!! i) logM_cut_L_temp
      (of_Z 10 ** logM_cut_L_temp) M1_L_temp sigma_L alpha_L kappa_L
    * (weights !!! i) * ic in
  if enable_ranks then
    let decorator :=
      of_Z 1 + s * (ranks !!! i) + s_v * (ranksv !!! i) + s_p * (ranksp !!! i)
      + s_r * (ranksr !!! i) in
    base_p * decorator
  else base_p.

(** [N_sat_generic(hmass[i], 10**logM_cut_E, kappa_E, 10**logM1_E, alpha_E, As_E)
     * weights[i]] *)
Definition sat_contrib_ELG (i : nat) : float64 :=
  let logM_cut_E := ELG_design_array !!! 2%nat in
  let kappa_E := ELG_design_array !!! 3%nat in
  let logM1_E := ELG_design_array !!! 5%nat in
  let alpha_E := ELG_design_array !!! 6%nat in
  let As_E := ELG_design_array !!! 8%nat in
  N_sat_generic (rt_libm R) (hmass !!! i) (of_Z 10 ** logM_cut_E) kappa_E
    (of_Z 10 ** logM1_E) alpha_E As_E
  * (weights !!! i).

(** [N_sat_generic(hmass[i], 10**logM_cut_Q, kappa_Q, 10**logM1_Q, alpha_Q, As_Q)
     * weights[i]] *)
Definition sat_contrib_QSO (i : nat) : float64 :=
  let logM_cut_Q := QSO_design_array !!! 1%nat in
  let kappa_Q := QSO_design_array !!! 2%nat in
  let logM1_Q := QSO_design_array !!! 4%nat in
  let alpha_Q := QSO_design_array !!! 5%nat in
  let As_Q := QSO_design_array !!! 6%nat in
  N_sat_generic (rt_libm R) (hmass !!! i) (of_Z 10 ** logM_cut_Q) kappa_Q
    (of_Z 10 ** logM1_Q) alpha_Q As_Q
  * (weights !!! i).

Definition sat_markers (i : nat) : float64 * float64 * float64 :=
  let LRG_marker := F64.zero in
  let LRG_marker := if want_LRG then LRG_marker + sat_contrib_LRG i else LRG_marker in
  let ELG_marker := LRG_marker in
  let ELG_marker := if want_ELG then ELG_marker + sat_contrib_ELG i else ELG_marker in
  let QSO_marker := ELG_marker in
  let QSO_marker := if want_QSO then QSO_marker + sat_contrib_QSO i else QSO_marker in
  (LRG_marker, ELG_marker, QSO_marker).

Definition sat_label (i : nat) : option tracer :=
  let '(LRG_marker, ELG_marker, QSO_marker) := sat_markers i in
  classify (randoms !!! i) LRG_marker ELG_marker QSO_marker.

(** <<
    x = ppos[i,0];  vx = hvel[i,0] + alpha_s * (pvel[i,0] - hvel[i,0])
    y = ppos[i,1];  vy = hvel[i,1] + alpha_s * (pvel[i,1] - hvel[i,1])
    z = ppos[i,2];  vz = hvel[i,2] + alpha_s * (pvel[i,2] - hvel[i,2])
    if rsd: z = wrap(z + vz * inv_velz2kms, lbox)
    mass = hmass[i];  id = hid[i]
>> *)
Definition sat_galaxy (i : nat) : galaxy :=
  let alpha_s := LRG_decorations_array !!! 1%nat in
  let v (k : nat) :=
    (hvel !!! i) !!! k + alpha_s * ((pvel !!! i) !!! k - (hvel !!! i) !!! k) in
  let z := (ppos !!! i) !!! 2%nat in
  {| g_x := (ppos !!! i) !!! 0%nat;
     g_y := (ppos !!! i) !!! 1%nat;
     g_z := if rsd then wrap (z + v 2%nat * inv_velz2kms) lbox else z;
     g_vx := v 0%nat; g_vy := v 1%nat; g_vz := v 2%nat;
     g_mass := hmass !!! i;
     g_id := hid !!! i |}.

(** [H = len(hmass)], the number of particles. *)
Definition sat_hstart : list nat :=
  hstart_of (rt_linspace R 0 (Z.of_nat (length hmass)) (rt_num_threads R + 1)).

Definition gen_sats
    : gmap string (buffer float64) * gmap string (buffer float64)
      * gmap string (buffer float64) :=
  run_engine (length hmass) (rt_num_threads R) sat_hstart sat_label sat_galaxy.

End GenSats.

(** ** The orchestrator

    [gen_gals] reads each HOD parameter with [dict.get], which yields [None]
    for an absent key, and packs the values with [np.array].  The compiled
    generators accept float64 arrays and float scalars only: numba's
    dispatcher types the arguments before the compiled body runs and raises
    on an array or scalar holding [None].  The halo and particle collections
    and [params] are records: their keys are subscripted, not validated. *)

Inductive pyval := PyNone | PyFloat (x : float64).

Definition dict_get (d : gmap string pyval) (k : string) : pyval :=
  default PyNone (d !! k).

Definition LRG_design_keys : list string :=
  ["logM_cut"; "logM1"; "sigma"; "alpha"; "kappa"].

(** The second name read is ['alpha_c'] again; the value lands in the slot
    the generators call [alpha_s]. *)
Definition LRG_decorations_keys : list string :=
  ["alpha_c"; "alpha_c"; "s"; "s_v"; "s_p"; "s_r"; "Acent"; "Asat"; "Bcent"; "Bsat"; "ic"].

Definition ELG_design_keys : list string :=
  ["p_max"; "Q"; "logM_cut"; "kappa"; "sigma"; "logM1"; "alpha"; "gamma"; "A_s"].

Definition QSO_design_keys : list string :=
  ["p_max"; "logM_cut"; "kappa"; "sigma"; "logM1"; "alpha"; "A_s"].

(** [np.array([...])] of the values read: one slot per name. *)
Definition np_array_of (d : gmap string pyval) (keys : list string) : list pyval :=
  dict_get d <$> keys.

(** The argument check at the boundary of a compiled function. *)
Definition as_float64 (v : pyval) : option float64 :=
  match v with PyFloat x => Some x | PyNone => None end.

Definition as_float64_array (a : list pyval) : option (list float64) :=
  mapM as_float64 a.

Record halo_arrays := {
  hpos : list (list float64); hvel : list (list float64);
  hmass : list float64; hid : list Z;
  hmultis : list float64; hrandoms : list float64; hveldev : list float64;
  hdeltac : list float64; hfenv : list float64
}.

Record particle_arrays := {
  ppos : list (list float64); pvel : list (list float64); phvel : list (list float64);
  phmass : list float64; phid : list Z;
  pweights : list float64; prandoms : list float64;
  pdeltac : list float64; pfenv : list float64;
  pranks : list float64; pranksv : list float64;
  pranksp : list float64; pranksr : list float64
}.

Record sim_params := { velz2kms : float64; Lbox : float64; Mpart : float64 }.

Inductive pyerror :=
  | ZeroDivisionError             (* 1/velz2kms *)
  | TypingError (callee : string) (* raised by the call of a compiled function *).

(** What [gen_gals] prints: a line after each generator has returned (the
    elapsed times are not modelled). *)
Inductive event :=
  | PrintCentrals (number_of_centrals : nat)
  | PrintSatellites
  | PrintGenerated (lrg_centrals lrg_satellites : nat).

Abbreviation catalogs :=
  (gmap string (buffer float64) * gmap string (buffer float64)
   * gmap string (buffer float64))%type (only parsing).

Definition dict_len (d : gmap string (buffer float64)) (k : string) : nat :=
  length (default [] (d !! k)).

Section Orchestrator.

Variable R : runtime.

Definition gen_gals (halos_array : halo_arrays) (subsample : particle_arrays)
    (LRG_HOD ELG_HOD QSO_HOD : gmap string pyval) (params : sim_params)
    (enable_ranks rsd want_LRG want_ELG want_QSO : bool)
    : list event * (pyerror + catalogs * catalogs) :=
  let LRG_design_array := np_array_of LRG_HOD LRG_design_keys in
  let LRG_decorations_array := np_array_of LRG_HOD LRG_decorations_keys in
  let alpha_c := dict_get LRG_HOD "alpha_c" in
  let Ac := dict_get LRG_HOD "Acent" in
  let Bc := dict_get LRG_HOD "Bcent" in
  let ic := dict_get LRG_HOD "ic" in
  let ELG_design_array := np_array_of ELG_HOD ELG_design_keys in
  let QSO_design_array := np_array_of QSO_HOD QSO_design_keys in
  if F64.is_zero (velz2kms params) then ([], inl ZeroDivisionError) else
  let inv_velz2kms := (F64.of_Z 1 / velz2kms params)%f64 in
  let lbox := Lbox params in
  match as_float64_array LRG_design_array, as_float64_array ELG_design_array,
        as_float64_array QSO_design_array,
        as_float64 ic, as_float64 alpha_c, as_float64 Ac, as_float64 Bc with
  | Some Ld, Some Ed, Some Qd, Some ic, Some alpha_c, Some Ac, Some Bc =>
      let cent :=
        gen_cent R (hpos halos_array) (hvel halos_array) (hmass halos_array)
          (hid halos_array) (hmultis halos_array) (hrandoms halos_array)
          (hveldev halos_array) (hdeltac halos_array) (hfenv halos_array)
          Ld Ed Qd ic alpha_c Ac Bc rsd inv_velz2kms lbox
          want_LRG want_ELG want_QSO in
      let printed :=
        PrintCentrals (dict_len cent.1.1 "mass" + dict_len cent.1.2 "mass"
                       + dict_len cent.2 "mass") in
      match as_float64_array LRG_decorations_array with
      | Some Dd =>
          let sats :=
            gen_sats R (ppos subsample) (pvel subsample) (phvel subsample)
              (phmass subsample) (phid subsample) (pweights subsample)
              (prandoms subsample) (pdeltac subsample) (pfenv subsample)
              enable_ranks (pranks subsample) (pranksv subsample)
              (pranksp subsample) (pranksr subsample)
              Ld Dd Ed Qd rsd inv_velz2kms lbox
              want_LRG want_ELG want_QSO in
          ([printed; PrintSatellites], inr (cent, sats))
      | None => ([printed], inl (TypingError "gen_sats"))
      end
  | _, _, _, _, _, _, _ => ([], inl (TypingError "gen_cent"))
  end.


End Orchestrator.

(** ** The model the specification words for the first ELG central

    The specification has every logarithm of the halo mass in base 10.
    This is [N_cen_ELG_v1] with [logM_h = log10(M_h)], to be compared with
    the source's function above. *)
Definition N_cen_ELG_v1_base10 (M : libm)
    (M_h p_max Q logM_cut sigma gamma : float64) : float64 :=
  let logM_h := m_log10 M M_h in
  let phi := phi_fun M logM_h logM_cut sigma in
  let Phi := Phi_fun M logM_h logM_cut sigma gamma in
  let A := A_fun p_max Q phi Phi in
  (lit 2 0 * A * phi * Phi
   + lit 5 1 / Q * (of_Z 1 + m_erf M ((logM_h - logM_cut) * of_Z 100)))%f64.

(** The library [M] with its natural logarithm standing where [log10] is
    looked up. *)
Definition log10_replaced_by_log (M : libm) : libm := {|
  m_erf := m_erf M; m_erfc := m_erfc M; m_log := m_log M;
  m_log10 := m_log M; m_exp := m_exp M; m_pow := m_pow M
|}.

(** ** A reference runtime for the worked examples

    The values of the C library at the arguments the examples below reach:
    the ones C99 Annex F fixes ([erf(+-0) = +-0], [exp(+-0) = 1],
    [log(1) = log10(1) = +0], [pow(x, +-0) = 1], [pow(1, y) = 1],
    [pow(+-0, 2) = +0]), the exact ones ([erfc(0) = 1], [pow(x, 1) = x],
    powers of ten, squares), [erf] beyond 6 in magnitude, where it rounds
    to 1, and four values of [log], [exp] and [pow] as glibc returns them.
    Elsewhere the table holds NaN, and no statement rests on that. *)

Definition fin (m : positive) (e : Z) : float64 := S754_finite false m e.

Fixpoint table1 (tbl : list (float64 * float64)) (x : float64) : float64 :=
  match tbl with
  | [] => F64.nan
  | (k, v) :: tbl' => if decide (k = x) then v else table1 tbl' x
  end.

Definition ref_erf (x : float64) : float64 :=
  if F64.is_zero x then x
  else if (of_Z 6 <=? x)%f64 then of_Z 1
  else if (x <=? of_Z (-6))%f64 then of_Z (-1)
  else F64.nan.

Definition ref_erfc (x : float64) : float64 :=
  if F64.is_zero x then of_Z 1 else F64.nan.

Definition ref_log (x : float64) : float64 :=
  if decide (x = of_Z 1) then F64.zero
  else table1
    [ (* log(1e13) = 29.933606208922594 *)
      (fin 5120000000000000 (-9), fin 8425561110522435 (-48)) ] x.

Definition ref_log10 (x : float64) : float64 :=
  if decide (x = of_Z 1) then F64.zero
  else table1
    [ (* log10(1e13) = 13 *)
      (fin 5120000000000000 (-9), of_Z 13) ] x.

Definition ref_exp (x : float64) : float64 :=
  if F64.is_zero x then of_Z 1
  else table1
    [ (* exp(-491.4440171836628) = 3.703182988753034e-214 *)
      (F64.opp (fin 8645574580710170 (-44)), fin 8983216545530153 (-762));
      (* exp(-2.322384066587396) = 0.09803957389308864 *)
      (F64.opp (fin 5229544008447087 (-51)), fin 7064495815239619 (-56)) ] x.

Definition ref_pow (x y : float64) : float64 :=
  if F64.is_zero y then of_Z 1
  else if decide (x = of_Z 1) then of_Z 1
  else if decide (y = of_Z 1) then x
  else if decide (y = of_Z 2) then
    if F64.is_zero x then F64.zero
    else table1
      [ (* 0.5 ** 2 = 0.25 *)
        (lit 5 1, lit 25 2);
        (* 1.25 ** 2 = 1.5625 *)
        (lit 125 2, lit 15625 4);
        (* 0.58 ** 2 = 0.3364 *)
        (lit 58 2, fin 6060043658589739 (-54));
        (* 18.183606208922594 ** 2 = 330.6435347611683 *)
        (fin 5118230134172227 (-48), fin 5816742577901802 (-44)) ] x
  else if decide (x = of_Z 10) then
    table1
      [ (* 10 ** 13, 10 ** 14 *)
        (of_Z 13, of_Z (10 ^ 13)); (of_Z 14, of_Z (10 ^ 14)) ] y
  else F64.nan.

Definition libm_ref : libm := {|
  m_erf := ref_erf; m_erfc := ref_erfc; m_log := ref_log;
  m_log10 := ref_log10; m_exp := ref_exp; m_pow := ref_pow
|}.

Definition rt_ref (Nthread : nat) : runtime := {|
  rt_libm := libm_ref; rt_num_threads := Nthread; rt_linspace := linspace_exact
|}.

(** ** Notions the statements use *)

(** The objects of [[0, n)] labelled [t], in index order, and the rank of
    object [i] among them. *)
Definition kept (label : nat -> option tracer) (t : tracer) (n : nat) : list nat :=
  filter (fun i => label i = Some t) (seq 0 n).


(** How many objects of a list of indices get tracer [t]. *)
Definition count_in (label : nat -> option tracer) (t : tracer) (l : list nat) : nat :=
  length (filter (fun i => label i = Some t) l).

(** How many cells of the keep mask hold 0 (classified, not kept). *)
Definition not_kept_count (keep : buffer (option tracer)) : nat :=
  length (filter (fun c => c = Some None) keep).

Definition dict_of (out : catalogs) (t : tracer) : gmap string (buffer float64) :=
  match t with LRG => out.1.1 | ELG => out.1.2 | QSO => out.2 end.

(** The value a kept object puts under each key of the dictionary. *)
Definition field_of_key (k : string) : option (galaxy -> float64) :=
  if decide (k = "x") then Some g_x
  else if decide (k = "y") then Some g_y
  else if decide (k = "z") then Some g_z
  else if decide (k = "vx") then Some g_vx
  else if decide (k = "vy") then Some g_vy
  else if decide (k = "vz") then Some g_vz
  else if decide (k = "mass") then Some g_mass
  else if decide (k = "id") then Some (fun g => F64.of_Z (g_id g))
  else None.

(** One column of the fill loop, seen alone: the stores tracer [t]'s
    objects make to it, and the cursor. *)
Definition col_step {A : Type} (keep : buffer (option tracer)) (t : tracer)
    (v : nat -> A) (st : buffer A * nat) (i : nat) : buffer A * nat :=
  match keep !! i with
  | Some (Some (Some t')) =>
      if decide (t' = t) then (<[st.2 := Some (v i)]> st.1, S st.2) else st
  | _ => st
  end.

Fixpoint write_list {A : Type} (j : nat) (vs : list A) (b : buffer A) : buffer A :=
  match vs with
  | [] => b
  | x :: vs' => write_list (S j) vs' (<[j := Some x]> b)
  end.

(** Markers are running sums: a NaN, once in, stays. *)
Definition nan_chain (m : float64 * float64 * float64) : Prop :=
  (F64.is_nan m.1.2 = false -> F64.is_nan m.1.1 = false) /\
  (F64.is_nan m.2 = false -> F64.is_nan m.1.2 = false).


(** The cumulative marker of a tracer, out of the three a loop computes. *)
Definition marker_for (t : tracer) (m : float64 * float64 * float64) : float64 :=
  match t with LRG => m.1.1 | ELG => m.1.2 | QSO => m.2 end.

(** Whether every name of a list is present in a dictionary with a float. *)
Definition is_float (v : pyval) : bool :=
  match v with PyFloat _ => true | PyNone => false end.

Definition all_float (d : gmap string pyval) (keys : list string) : bool :=
  forallb (fun k => is_float (dict_get d k)) keys.

Definition float_of (v : pyval) : float64 :=
  match v with PyFloat x => x | PyNone => F64.nan end.

(** The names whose values reach [gen_cent]: the three design vectors and
    the four scalars; and the names of the decoration vector, which only
    [gen_sats] receives. *)
Definition cent_scalar_keys : list string := ["ic"; "alpha_c"; "Acent"; "Bcent"].

(** ** Worked inputs

    Five halos of mass 1e13 with draws 0.3, 0.505, 0.6, 0.9, 0.4, and the
    design vectors in the order of the interface. *)

Definition ex_LRG_design : list float64 :=
  [of_Z 13; of_Z 14; of_Z 1; of_Z 1; of_Z 0].
Definition ex_ELG_design : list float64 :=
  [lit 33 2; of_Z 100; lit 1175 2; of_Z 1; lit 58 2; lit 1353 2; of_Z 1; lit 412 2; of_Z 1].
Definition ex_QSO_design : list float64 :=
  [lit 33 2; of_Z 13; of_Z 1; of_Z 1; of_Z 14; of_Z 1; of_Z 1].

Definition ex_halos : halo_arrays := {|
  hpos := [[of_Z 1; of_Z 2; of_Z 3]; [of_Z 4; of_Z 5; of_Z 6]; [of_Z 7; of_Z 8; of_Z 9];
           [of_Z 10; of_Z 11; of_Z 12]; [of_Z 13; of_Z 14; of_Z 15]];
  hvel := replicate 5 [of_Z 100; of_Z 200; of_Z 300];
  hmass := replicate 5 (of_Z (10 ^ 13));
  hid := [100; 101; 102; 103; 104]%Z;
  hmultis := replicate 5 (of_Z 1);
  hrandoms := [lit 3 1; lit 505 3; lit 6 1; lit 9 1; lit 4 1];
  hveldev := replicate 5 (of_Z 0);
  hdeltac := replicate 5 (of_Z 0);
  hfenv := replicate 5 (of_Z 0)
|}.

(** [gen_cent] on the worked halos, two threads, no velocity bias, no RSD. *)
Definition ex_gen_cent (halos : halo_arrays) (ic : float64)
    (want_LRG want_ELG want_QSO : bool) : catalogs :=
  gen_cent (rt_ref 2) (hpos halos) (hvel halos) (hmass halos) (hid halos)
    (hmultis halos) (hrandoms halos) (hveldev halos) (hdeltac halos) (hfenv halos)
    ex_LRG_design ex_ELG_design ex_QSO_design ic (of_Z 0) (of_Z 0) (of_Z 0)
    false (of_Z 1) (of_Z 32) want_LRG want_ELG want_QSO.

(** One halo kept as a QSO where no LRG is: draw 0.6. *)
Definition ex_halo_qso : halo_arrays := {|
  hpos := [[of_Z 1; of_Z 2; of_Z 3]]; hvel := [[of_Z 100; of_Z 200; of_Z 300]];
  hmass := [of_Z (10 ^ 13)]; hid := [100%Z]; hmultis := [of_Z 1];
  hrandoms := [lit 6 1]; hveldev := [of_Z 0]; hdeltac := [of_Z 0]; hfenv := [of_Z 0]
|}.


(** A halo of unit mass with cut-offs at [logM = 0], where every model
    meets the library at a value C99 fixes; the ELG amplitude
    [p_max - 1/Q = -1] is negative, and so is the ELG term. *)
Definition ex_unit_LRG_design : list float64 :=
  [of_Z 0; of_Z 1; of_Z 1; of_Z 1; of_Z 0].
Definition ex_unit_ELG_design : list float64 :=
  [of_Z 0; of_Z 1; of_Z 0; of_Z 1; lit 5 1; of_Z 1; of_Z 1; of_Z 1; of_Z 1].
Definition ex_unit_QSO_design : list float64 :=
  [of_Z 1; of_Z 0; of_Z 1; of_Z 1; of_Z 1; of_Z 1; of_Z 1].

Definition ex_unit_markers : float64 * float64 * float64 :=
  cent_markers (rt_ref 1) [of_Z 1] [of_Z 1] [of_Z 0] [of_Z 0]
    ex_unit_LRG_design ex_unit_ELG_design ex_unit_QSO_design
    (of_Z 1) (of_Z 0) (of_Z 0) true true true 0.

Definition ex_unit_label : option tracer :=
  cent_label (rt_ref 1) [of_Z 1] [of_Z 1] [lit 3 1] [of_Z 0] [of_Z 0]
    ex_unit_LRG_design ex_unit_ELG_design ex_unit_QSO_design
    (of_Z 1) (of_Z 0) (of_Z 0) true true true 0.

(** Two particles of a 1e13 halo; the first has radial rank -3, which with
    [s = 1] makes its decorator [1 + s * rank = -2]. *)
Definition ex_particles : particle_arrays := {|
  ppos := [[of_Z 1; of_Z 2; of_Z 3]; [of_Z 4; of_Z 5; of_Z 6]];
  pvel := replicate 2 [of_Z 110; of_Z 210; of_Z 310];
  phvel := replicate 2 [of_Z 100; of_Z 200; of_Z 300];
  phmass := replicate 2 (of_Z (10 ^ 13));
  phid := [100; 100]%Z;
  pweights := replicate 2 (of_Z 1);
  prandoms := replicate 2 (lit 1 2);
  pdeltac := replicate 2 (of_Z 0);
  pfenv := replicate 2 (of_Z 0);
  pranks := [of_Z (-3); of_Z 0];
  pranksv := replicate 2 (of_Z 0);
  pranksp := replicate 2 (of_Z 0);
  pranksr := replicate 2 (of_Z 0)
|}.

(** [alpha_c, alpha_s, s, s_v, s_p, s_r, Acent, Asat, Bcent, Bsat, ic] *)
Definition ex_decorations (slot0 : float64) : list float64 :=
  [slot0; of_Z 1; of_Z 1; of_Z 0; of_Z 0; of_Z 0; of_Z 0; of_Z 0; of_Z 0; of_Z 0; of_Z 1].

Definition ex_gen_sats (parts : particle_arrays) (decorations : list float64)
    (enable_ranks : bool) : catalogs :=
  gen_sats (rt_ref 2) (ppos parts) (pvel parts) (phvel parts) (phmass parts)
    (phid parts) (pweights parts) (prandoms parts) (pdeltac parts) (pfenv parts)
    enable_ranks (pranks parts) (pranksv parts) (pranksp parts) (pranksr parts)
    ex_LRG_design decorations ex_ELG_design ex_QSO_design
    false (of_Z 1) (of_Z 32) true false false.

(** Parameter dictionaries: complete ones, and an LRG dictionary with a
    name left out. *)
Definition ex_LRG_HOD : gmap string pyval :=
  list_to_map
    [("logM_cut", PyFloat (of_Z 13)); ("logM1", PyFloat (of_Z 14));
     ("sigma", PyFloat (of_Z 1)); ("alpha", PyFloat (of_Z 1));
     ("kappa", PyFloat (of_Z 0)); ("alpha_c", PyFloat (of_Z 0));
     ("alpha_s", PyFloat (of_Z 1)); ("s", PyFloat (of_Z 0));
     ("s_v", PyFloat (of_Z 0)); ("s_p", PyFloat (of_Z 0));
     ("s_r", PyFloat (of_Z 0)); ("Acent", PyFloat (of_Z 0));
     ("Asat", PyFloat (of_Z 0)); ("Bcent", PyFloat (of_Z 0));
     ("Bsat", PyFloat (of_Z 0)); ("ic", PyFloat (of_Z 1))].

Definition ex_ELG_HOD : gmap string pyval :=
  list_to_map (zip ELG_design_keys (PyFloat <$> ex_ELG_design)).

Definition ex_QSO_HOD : gmap string pyval :=
  list_to_map (zip QSO_design_keys (PyFloat <$> ex_QSO_design)).

Definition ex_params : sim_params :=
  {| velz2kms := of_Z 1; Lbox := of_Z 32; Mpart := of_Z (10 ^ 9) |}.

Definition ex_gen_gals (LRG_HOD : gmap string pyval)
    : list event * (pyerror + catalogs * catalogs) :=
  gen_gals (rt_ref 2) ex_halos ex_particles LRG_HOD ex_ELG_HOD ex_QSO_HOD
    ex_params false false true false false.

(** ** More notions *)

(** What a kernel needs of its runtime to cut [n] objects into thread
    ranges: at least one thread, and [np.linspace(0, n, Nthread + 1)]
    returning what it promises. *)
Definition runtime_ok (R : runtime) (n : nat) : Prop :=
  1 <= rt_num_threads R /\
  linspace_ok 0 (Z.of_nat n) (rt_num_threads R + 1)
    (rt_linspace R 0 (Z.of_nat n) (rt_num_threads R + 1)) = true.

(** The cells a QSO mass column ends with: as many as LRG objects were
    kept, the first ones holding the masses of the kept QSO objects. *)
Definition qso_mass_cells (label : nat -> option tracer) (mass : nat -> float64)
    (n : nat) : list (option float64) :=
  (Some <$> take (length (kept label LRG n)) (mass <$> kept label QSO n))
  ++ replicate (length (kept label LRG n) - length (kept label QSO n)) None.

(** The integer a float64 holds when it holds one: [int(x)] of Python,
    which truncates toward zero, and raises on NaN and the infinities
    ([None] here). *)
Definition int_of_float (x : float64) : option Z :=
  match x with
  | S754_zero _ => Some 0%Z
  | S754_finite s m e =>
      let a := match e with
               | Z0 => Z.pos m
               | Z.pos k => (Z.pos m * Z.pow_pos 2 k)%Z
               | Z.neg k => (Z.pos m / Z.pow_pos 2 k)%Z
               end in
      Some (if s then (- a)%Z else a)
  | _ => None
  end.

(** * [abacusnbody/hod/load_sims.py]: preparing the subsamples

    [load_chunk(i)] reads chunk [i] of a halo catalogue, draws the halos and
    particles to keep, ranks them, and writes a halo file and a particle
    file.  What is modelled: the two output paths, the ranking
    [x.argsort().argsort()], and the loop that builds the particle mask and
    the new particle index of the halos, with the compaction that follows
    it.  Reading and writing the files, the density grid and the random
    draws themselves are inputs. *)

(** ** Output paths

    [newseed = 600]; [str(i)] of a non-negative [int] is its decimal
    numeral; [MT] and [want_ranks] are module-level flags read from the
    configuration.
<<
    outfilename_halos = savedir+'/halos_xcom_'+str(i)+'_seed'+str(newseed)+'_abacushod'
    outfilename_particles = savedir+'/particles_xcom_'+str(i)+'_seed'+str(newseed)+'_abacushod'
    if MT:
        outfilename_halos += '_MT'
        outfilename_particles += '_MT'
    if want_ranks:
        outfilename_particles += '_withranks'
    outfilename_particles += '_new.h5'
    outfilename_halos += '_new.h5'
>> *)

Definition newseed : nat := 600.

Definition str (i : nat) : string := pretty i.

Definition outfilename_halos (savedir : string) (MT : bool) (i : nat) : string :=
  let outfilename_halos :=
    ((((savedir +:+ "/halos_xcom_") +:+ str i) +:+ "_seed") +:+ str newseed)
    +:+ "_abacushod" in
  let outfilename_halos :=
    if MT then outfilename_halos +:+ "_MT" else outfilename_halos in
  outfilename_halos +:+ "_new.h5".

Definition outfilename_particles (savedir : string) (MT want_ranks : bool) (i : nat)
    : string :=
  let outfilename_particles :=
    ((((savedir +:+ "/particles_xcom_") +:+ str i) +:+ "_seed") +:+ str newseed)
    +:+ "_abacushod" in
  let outfilename_particles :=
    if MT then outfilename_particles +:+ "_MT" else outfilename_particles in
  let outfilename_particles :=
    if want_ranks then outfilename_particles +:+ "_withranks" else outfilename_particles in
  outfilename_particles +:+ "_new.h5".

(** ** Ranks

    [x.argsort().argsort()] turns values into ranks.  [ndarray.argsort] is
    numpy's; its default sort is not stable, so on ties its result is one
    of several.  It is taken as a parameter with what it promises: a
    permutation of the indices that lists the values in non-decreasing
    order (for floats, NaN last). *)

Definition sorted_by {A} `{Inhabited A} (le : A -> A -> bool) (xs : list A) (p : list nat)
    : bool :=
  forallb (fun a =>
    forallb (fun b => le (xs !!! (p !!! a)) (xs !!! (p !!! b)))
            (seq (S a) (length p - S a)))
    (seq 0 (length p)).

Definition argsort_ok {A} `{Inhabited A} (le : A -> A -> bool) (xs : list A) (p : list nat)
    : bool :=
  Nat.eqb (length p) (length xs)
  && forallb (fun i => existsb (Nat.eqb i) p) (seq 0 (length xs))
  && sorted_by le xs p.

(** The order numpy sorts floats by. *)
Definition f64_sort_le (x y : float64) : bool := (x <=? y)%f64 || F64.is_nan y.

Section Ranks.

Variable argsort_f64 : list float64 -> list nat.
Variable argsort_int : list nat -> list nat.

(** [new_rank = x.argsort().argsort()] and [np.max(new_rank)] *)
Definition ranks_of (x : list float64) : list nat := argsort_int (argsort_f64 x).

Definition np_max (r : list nat) : nat := max_list r.

End Ranks.

(** An insertion sort of the indices, for the worked examples. *)
Fixpoint insert_index {A} (le : A -> A -> bool) (xs : list A) `{Inhabited A}
    (i : nat) (p : list nat) : list nat :=
  match p with
  | [] => [i]
  | j :: p' => if le (xs !!! i) (xs !!! j) then i :: p
               else j :: insert_index le xs i p'
  end.

Definition ref_argsort {A} `{Inhabited A} (le : A -> A -> bool) (xs : list A) : list nat :=
  foldr (insert_index le xs) [] (seq 0 (length xs)).

(** ** The particle mask and the new particle index

    The loop of [load_chunk] over the halos of a chunk.  A kept halo draws
    a 0/1 mask for its particles, which occupy
    [halos_pstart[j] : halos_pstart[j] + halos_pnum[j]] in the particle
    table, and gets its new start and count; a dropped halo gets -1 and -1.
<<
    mask_parts = np.zeros(len(parts))
    Np_parts = -np.ones(len_old)
    idh_parts = -np.ones((len_old))
    halos_pstart_new = np.zeros(len(halos))
    halos_pnum_new = np.zeros(len(halos))
    start_tracker = 0
    for j in np.arange(len(halos)):
        if mask_halos[j]:
            submask = np.random.binomial(n = 1, p = subsample_factor, size = halos_pnum[j])
            mask_parts[halos_pstart[j]: halos_pstart[j] + halos_pnum[j]] = submask
            Np_parts[halos_pstart[j]: halos_pstart[j] + halos_pnum[j]] = np.sum(submask)
            idh_parts[halos_pstart[j]: halos_pstart[j] + halos_pnum[j]] = halos['id'][j]
            halos_pstart_new[j] = start_tracker
            halos_pnum_new[j] = np.sum(submask)
            start_tracker += np.sum(submask)
        else:
            halos_pstart_new[j] = -1
            halos_pnum_new[j] = -1
>>
    The arrays [downsample_parts], [hvel_parts], [Mh_parts], [deltach_parts]
    and [fenvh_parts] are filled by the same statement as [idh_parts], from
    other columns of the halo table, and are not repeated here; the ranks
    computed under [want_ranks] go to arrays of their own.  All these
    arrays are float64 arrays: an integer stored to them is converted. *)

(** The length of [a[s:e]] for an array of length [len]. *)
Definition slice_len (len s e : nat) : nat := min e len - min s len.

(** [a[s:e] = v] for an array [v]: numpy wants [v] as long as the slice,
    or of length 1, and raises [ValueError] otherwise ([None] here). *)
Definition assign_slice {A} (a : list A) (s e : nat) (v : list A) : option (list A) :=
  let k := slice_len (length a) s e in
  if decide (length v = k) then Some (list_inserts s v a)
  else match v with
       | [x] => Some (list_inserts s (replicate k x) a)
       | _ => None
       end.

(** [a[s:e] = x] for a scalar [x]. *)
Definition fill_slice {A} (a : list A) (s e : nat) (x : A) : list A :=
  list_inserts s (replicate (slice_len (length a) s e) x) a.

(** [np.sum] of a 0/1 array. *)
Definition np_sum (m : list bool) : nat := sum_list (Nat.b2n <$> m).

(** A 0/1 draw stored to a float array, and [astype(bool)] of a float. *)
Definition b2f (b : bool) : float64 := F64.of_Z (Z.b2z b).

Definition astype_bool (x : float64) : bool := negb (F64.is_zero x).

(** [a[mask]] for a boolean mask of the length of [a]. *)
Fixpoint np_compress {A} (mask : list bool) (a : list A) : list A :=
  match mask, a with
  | b :: mask', x :: a' => if b then x :: np_compress mask' a' else np_compress mask' a'
  | _, _ => []
  end.

(** A row of the halo table, with the columns the loop reads:
    [mask_subsample] (the array [mask_halos], which [load_chunk] stores as
    this column), [npstartA], [npoutA] and [id]. *)
Record halo := {
  mask_subsample : bool;
  npstartA : nat;
  npoutA : nat;
  halo_id : Z
}.

#[global] Instance halo_inhabited : Inhabited halo :=
  populate {| mask_subsample := false; npstartA := 0; npoutA := 0; halo_id := 0 |}.

Record chunk_arrays := {
  mask_parts : list float64;
  Np_parts : list float64;
  idh_parts : list float64;
  halos_pstart_new : list float64;
  halos_pnum_new : list float64;
  start_tracker : nat
}.

Section LoadChunk.

(** The halo table, the length of the particle table, and the draw
    [np.random.binomial] returns for halo [j]. *)
Variable halos : list halo.
Variable len_parts : nat.
Variable submask : nat -> list bool.

Definition chunk_init : chunk_arrays := {|
  mask_parts := replicate len_parts F64.zero;
  Np_parts := replicate len_parts (F64.of_Z (-1));
  idh_parts := replicate len_parts (F64.of_Z (-1));
  halos_pstart_new := replicate (length halos) F64.zero;
  halos_pnum_new := replicate (length halos) F64.zero;
  start_tracker := 0
|}.

Definition load_step (st : chunk_arrays) (j : nat) : option chunk_arrays :=
  let h := halos !!! j in
  if mask_subsample h then
    let s := npstartA h in
    let e := npstartA h + npoutA h in
    let sub := submask j in
    mask ← assign_slice (mask_parts st) s e (b2f <$> sub);
    Some {| mask_parts := mask;
            Np_parts := fill_slice (Np_parts st) s e (F64.of_Z (Z.of_nat (np_sum sub)));
            idh_parts := fill_slice (idh_parts st) s e (F64.of_Z (halo_id h));
            halos_pstart_new :=
              <[j := F64.of_Z (Z.of_nat (start_tracker st))]> (halos_pstart_new st);
            halos_pnum_new :=
              <[j := F64.of_Z (Z.of_nat (np_sum sub))]> (halos_pnum_new st);
            start_tracker := start_tracker st + np_sum sub |}
  else
    Some {| mask_parts := mask_parts st;
            Np_parts := Np_parts st;
            idh_parts := idh_parts st;
            halos_pstart_new := <[j := F64.of_Z (-1)]> (halos_pstart_new st);
            halos_pnum_new := <[j := F64.of_Z (-1)]> (halos_pnum_new st);
            start_tracker := start_tracker st |}.

(** [for j in np.arange(len(halos))] *)
Definition load_loop : option chunk_arrays :=
  foldl (fun st j => st ≫= fun st => load_step st j) (Some chunk_init)
        (seq 0 (length halos)).

End LoadChunk.

(** [a[mask_parts.astype(bool)]]: what goes to the particle file. *)
Definition kept_parts {A} (st : chunk_arrays) (a : list A) : list A :=
  np_compress (astype_bool <$> mask_parts st) a.

(** A chunk of three halos with 2, 3 and 1 particles; the second halo is
    dropped. *)
Definition ex_chunk : list halo :=
  [ {| mask_subsample := true; npstartA := 0; npoutA := 2; halo_id := 7 |};
    {| mask_subsample := false; npstartA := 2; npoutA := 3; halo_id := 8 |};
    {| mask_subsample := true; npstartA := 5; npoutA := 1; halo_id := 9 |} ].

Definition ex_submask (j : nat) : list bool :=
  match j with 0 => [false; true] | 1 => [true; true; true] | _ => [true] end.

(** What the particles below position [F] of the table contribute to the
    compaction of an array [a]. *)
Definition kept_upto {A} (F : nat) (st : chunk_arrays) (a : list A) : list A :=
  np_compress (astype_bool <$> take F (mask_parts st)) (take F a).

(** What the loop settles for halo [j], read on the compactions [Op],
    [Oi], [On] of the particle table, of [idh_parts] and of [Np_parts].
    For a kept halo: its new start [s] and its new count [c], the number of
    ones of its draw; rows [s, ..., s + c - 1] of [Op] are the particles of
    the halo's old slice that the draw keeps, in order; the same rows of
    [Oi] hold the halo's id and those of [On] hold [c].  For a dropped
    halo: start and count are -1. *)
Definition halo_settled {P} (halos : list halo) (submask : nat -> list bool)
    (parts : list P) (st : chunk_arrays)
    (Op : list P) (Oi On : list float64) (j : nat) : Prop :=
  let h := halos !!! j in
  let c := np_sum (submask j) in
  if mask_subsample h then
    exists s : nat,
      halos_pstart_new st !! j = Some (F64.of_Z (Z.of_nat s)) /\
      halos_pnum_new st !! j = Some (F64.of_Z (Z.of_nat c)) /\
      s + c <= length Op /\
      take c (drop s Op)
      = np_compress (submask j) (take (npoutA h) (drop (npstartA h) parts)) /\
      take c (drop s Oi) = replicate c (F64.of_Z (halo_id h)) /\
      take c (drop s On) = replicate c (F64.of_Z (Z.of_nat c))
  else
    halos_pstart_new st !! j = Some (F64.of_Z (-1)) /\
    halos_pnum_new st !! j = Some (F64.of_Z (-1)).

(** The invariant of the loop after [j] halos; [F] is the end of the last
    slice written, beyond which the mask still holds zeros. *)
Definition chunk_inv {P} (halos : list halo) (submask : nat -> list bool)
    (parts : list P) (j : nat) (st : chunk_arrays) : Prop :=
  length (mask_parts st) = length parts /\
  length (Np_parts st) = length parts /\
  length (idh_parts st) = length parts /\
  length (halos_pstart_new st) = length halos /\
  length (halos_pnum_new st) = length halos /\
  exists F : nat,
    F <= length parts /\
    (j < length halos -> F <= npstartA (halos !!! j)) /\
    drop F (mask_parts st) = replicate (length parts - F) F64.zero /\
    np_sum (astype_bool <$> take F (mask_parts st)) = start_tracker st /\
    forall j0, j0 < j ->
      halo_settled halos submask parts st (kept_upto F st parts)
        (kept_upto F st (idh_parts st)) (kept_upto F st (Np_parts st)) j0.

(** ** Ranks within mass bins

    [load_chunk] ranks the halos of each mass bin by their environment and
    by their concentration.
<<
    nbins = 100
    mbins = np.logspace(np.log10(3e10), 15.5, nbins + 1)
    ...
    fenv_rank = np.zeros(len(halos))
    for ibin in range(nbins):
        mmask = (halos['N']*Mpart > mbins[ibin]) & (halos['N']*Mpart < mbins[ibin + 1])
        if np.sum(mmask) > 0:
            if np.sum(mmask) == 1:
                fenv_rank[mmask] = 0
            else:
                new_fenv_rank = halos_overdens[mmask].argsort().argsort()
                fenv_rank[mmask] = new_fenv_rank / np.max(new_fenv_rank) - 0.5
>>
    The loop for [deltac_rank] is the same loop, ranking
    [halos_c[mmask] - np.median(halos_c[mmask])].  [np.logspace] is numpy's:
    [mbins] is an input here, and reading it past its end raises
    [IndexError] ([None]). *)

Definition nbins : nat := 100.

(** The cells a boolean mask selects take the values of [v], in order. *)
Fixpoint np_place {A} (a : list A) (mask : list bool) (v : list A) : list A :=
  match a, mask with
  | x :: a', b :: mask' =>
      if b then
        match v with
        | y :: v' => y :: np_place a' mask' v'
        | [] => x :: np_place a' mask' []
        end
      else x :: np_place a' mask' v
  | _, _ => a
  end.

(** [a[mask] = v] for an array [v]: numpy wants a mask as long as [a]
    ([IndexError] otherwise) and as many values as the mask selects, or one
    value ([ValueError] otherwise). *)
Definition assign_mask {A} (a : list A) (mask : list bool) (v : list A) : option (list A) :=
  if decide (length mask = length a) then
    if decide (length v = np_sum mask) then Some (np_place a mask v)
    else match v with
         | [x] => Some (np_place a mask (replicate (np_sum mask) x))
         | _ => None
         end
  else None.

(** [a[mask] = x] for a scalar [x]. *)
Definition fill_mask {A} (a : list A) (mask : list bool) (x : A) : option (list A) :=
  if decide (length mask = length a)
  then Some (np_place a mask (replicate (np_sum mask) x))
  else None.

(** [new_rank / np.max(new_rank) - 0.5]: the integer ranks and their
    maximum are converted to float64 by the division. *)
Definition rank_fraction (new_rank : list nat) : list float64 :=
  (fun k => (F64.of_Z (Z.of_nat k) / F64.of_Z (Z.of_nat (np_max new_rank))
             - lit 5 1)%f64) <$> new_rank.

Section MassBinRanks.

Variable argsort_f64 : list float64 -> list nat.
Variable argsort_int : list nat -> list nat.

(** The column [halos['N']], the particle mass, the bin edges, and the
    values a bin ranks, given its mask. *)
Variable halos_N : list Z.
Variable Mpart : float64.
Variable mbins : list float64.
Variable bin_values : list bool -> list float64.

Definition mmask (ibin : nat) : option (list bool) :=
  lo ← mbins !! ibin;
  hi ← mbins !! S ibin;
  Some ((fun n => let m := (F64.of_Z n * Mpart)%f64 in
                  (lo <? m)%f64 && (m <? hi)%f64) <$> halos_N).

Definition rank_step (rank : list float64) (ibin : nat) : option (list float64) :=
  mmask ← mmask ibin;
  if decide (0 < np_sum mmask) then
    if decide (np_sum mmask = 1) then fill_mask rank mmask (F64.of_Z 0)
    else
      let new_rank := ranks_of argsort_f64 argsort_int (bin_values mmask) in
      assign_mask rank mmask (rank_fraction new_rank)
  else Some rank.

Definition rank_loop : option (list float64) :=
  foldl (fun rank ibin => rank ≫= fun rank => rank_step rank ibin)
        (Some (replicate (length halos_N) F64.zero)) (seq 0 nbins).

(** What the loop stores to the cells of a bin. *)
Definition bin_cells (mmask : list bool) : list float64 :=
  if decide (np_sum mmask = 1) then [F64.zero]
  else rank_fraction (ranks_of argsort_f64 argsort_int (bin_values mmask)).

End MassBinRanks.

(** [fenv_rank]: a bin ranks [halos_overdens[mmask]]. *)
Definition fenv_rank (argsort_f64 : list float64 -> list nat)
    (argsort_int : list nat -> list nat) (halos_N : list Z) (Mpart : float64)
    (mbins halos_overdens : list float64) : option (list float64) :=
  rank_loop argsort_f64 argsort_int halos_N Mpart mbins
    (fun mmask => np_compress mmask halos_overdens).

(** Five halos of 5, 15, 25, 16 and 10 particles of mass 1, with bin edges
    0, 10, 20, ..., 1000 and densities 3, 9, 4, 2, 7. *)
Definition ex_mbins : list float64 := (fun k => F64.of_Z (10 * Z.of_nat k)) <$> seq 0 101.

Definition ex_halos_N : list Z := [5; 15; 25; 16; 10]%Z.

Definition ex_overdens : list float64 :=
  [F64.of_Z 3; F64.of_Z 9; F64.of_Z 4; F64.of_Z 2; F64.of_Z 7].

(** * Properties *)

(** ** Order on binary64 *)

Ltac cmp_cases :=
  repeat match goal with
  | |- context [Z.compare ?a ?b] => destruct (Z.compare_spec a b)
  | |- context [Pos.compare_cont Eq ?a ?b] =>
      change (Pos.compare_cont Eq a b) with (Pos.compare a b);
      destruct (Pos.compare_spec a b)
  | H : context [Z.compare ?a ?b] |- _ => destruct (Z.compare_spec a b)
  | H : context [Pos.compare_cont Eq ?a ?b] |- _ =>
      change (Pos.compare_cont Eq a b) with (Pos.compare a b) in H;
      destruct (Pos.compare_spec a b)
  end.

Lemma leb_not_nan (x y : float64) :
  F64.leb x y = true -> F64.is_nan x = false /\ F64.is_nan y = false.
Proof.
  unfold F64.leb, SFleb, SFcompare, F64.is_nan.
  destruct x, y; intros; split; reflexivity || congruence.
Qed.

Lemma add_not_nan (x y : float64) :
  F64.is_nan (F64.add x y) = false -> F64.is_nan x = false /\ F64.is_nan y = false.
Proof.
  unfold F64.add, SFadd, F64.is_nan.
  destruct x as [[|]|[|]| |[|] ? ?], y as [[|]|[|]| |[|] ? ?];
    intros; split; reflexivity || congruence.
Qed.

Lemma leb_false_ltb (x y : float64) :
  F64.is_nan x = false -> F64.is_nan y = false ->
  F64.leb x y = false -> F64.ltb y x = true.
Proof.
  unfold F64.leb, F64.ltb, SFleb, SFltb, SFcompare.
  destruct x as [[|]|[|]| |[|] ? ?], y as [[|]|[|]| |[|] ? ?]; simpl; try congruence;
    intros _ _; cmp_cases; simpl; try congruence; try lia.
Qed.

Lemma ltb_leb_false (x y : float64) : F64.ltb y x = true -> F64.leb x y = false.
Proof.
  unfold F64.leb, F64.ltb, SFleb, SFltb, SFcompare.
  destruct x as [[|]|[|]| |[|] ? ?], y as [[|]|[|]| |[|] ? ?]; simpl; try congruence;
    cmp_cases; simpl; try congruence; try lia.
Qed.

Lemma leb_ltb_trans (x y z : float64) :
  F64.leb x y = true -> F64.ltb y z = true -> F64.ltb x z = true.
Proof.
  unfold F64.leb, F64.ltb, SFleb, SFltb, SFcompare.
  destruct x as [[|]|[|]| |[|] ? ?], y as [[|]|[|]| |[|] ? ?], z as [[|]|[|]| |[|] ? ?];
    simpl; try congruence;
    cmp_cases; simpl; try congruence; try lia.
Qed.

(** ** Periodic wrap *)

Lemma Qlt_bool_iff (x y : Q) : Qlt_bool x y = true <-> (x < y)%Q.
Proof.
  unfold Qlt_bool. rewrite negb_true_iff, <- not_true_iff_false, Qle_bool_iff.
  split; [apply Qnot_le_lt | apply Qlt_not_le].
Qed.





(** ** Lists of indices *)

Lemma count_in_app label t (l1 l2 : list nat) :
  count_in label t (l1 ++ l2) = count_in label t l1 + count_in label t l2.
Proof. unfold count_in. by rewrite filter_app, length_app. Qed.

Lemma bind_seq_S {A} (f : nat -> list A) (k : nat) :
  seq 0 (S k) ≫= f = (seq 0 k ≫= f) ++ f k.
Proof. rewrite seq_S, bind_app. simpl. by rewrite app_nil_r. Qed.

Lemma foldl_snoc {A B} (f : A -> B -> A) (a : A) (l : list B) (x : B) :
  foldl f a (l ++ [x]) = f (foldl f a l) x.
Proof. by rewrite foldl_app. Qed.

(** Adjacent ranges of a non-decreasing boundary list join up. *)
Lemma ranges_join (b : list nat) (k : nat) :
  (forall j, j < k -> b !!! j <= b !!! S j) ->
  seq 0 k ≫= (fun tid => range (b !!! tid) (b !!! S tid))
  = seq (b !!! 0) (b !!! k - b !!! 0) /\ b !!! 0 <= b !!! k.
Proof.
  induction k as [|k IH]; intros Hm.
  - split; [|lia]. by rewrite Nat.sub_diag.
  - destruct IH as [IH Hle]; [intros; apply Hm; lia|].
    specialize (Hm k (Nat.lt_succ_diag_r k)).
    split; [|lia]. rewrite bind_seq_S, IH. unfold range.
    replace (b !!! S k - b !!! 0) with ((b !!! k - b !!! 0) + (b !!! S k - b !!! k)) by lia.
    rewrite seq_app. do 2 f_equal. lia.
Qed.

(** ** Writing a run of values from a cursor *)

Lemma write_list_app {A} (xs ys : list A) (j : nat) (b : list (option A)) :
  write_list j (xs ++ ys) b = write_list (j + length xs) ys (write_list j xs b).
Proof.
  revert j b. induction xs as [|x xs IH]; intros j b; simpl.
  - by rewrite Nat.add_0_r.
  - rewrite IH. f_equal. lia.
Qed.

Lemma write_list_length {A} (vs : list A) (j : nat) (b : list (option A)) :
  length (write_list j vs b) = length b.
Proof.
  revert j b. induction vs as [|x vs IH]; intros j b; simpl; [done|].
  by rewrite IH, length_insert.
Qed.

Lemma write_list_fresh {A} (vs : list A) (pre : list (option A)) (n : nat) :
  write_list (length pre) vs (pre ++ replicate n None)
  = pre ++ (Some <$> take n vs) ++ replicate (n - length vs) None.
Proof.
  revert pre n. induction vs as [|x vs IH]; intros pre n; simpl.
  - by rewrite take_nil, Nat.sub_0_r.
  - destruct n as [|n]; simpl.
    + rewrite app_nil_r. rewrite list_insert_ge by lia.
      specialize (IH (pre ++ [None]) 0). 
      assert (forall (l : list A) j (b : list (option A)), length b <= j -> write_list j l b = b) as Hge.
      { clear. induction l as [|y l IH]; intros j b Hj; simpl; [done|].
        rewrite list_insert_ge by lia. apply IH. lia. }
      rewrite Hge by lia. done.
    + replace (pre ++ None :: replicate n None) with (pre ++ [None] ++ replicate n None) by done.
      rewrite insert_app_r_alt by lia. rewrite Nat.sub_diag. simpl.
      specialize (IH (pre ++ [Some x]) n).
      rewrite length_app in IH. simpl in IH. rewrite Nat.add_1_r in IH.
      rewrite <- (assoc_L (++)) in IH. simpl in IH. rewrite IH.
      by rewrite <- (assoc_L (++)).
Qed.

Lemma write_list_empty {A} (vs : list A) (n : nat) :
  write_list 0 vs (np_empty n) = (Some <$> take n vs) ++ replicate (n - length vs) None.
Proof. apply (write_list_fresh vs [] n). Qed.

Lemma write_list_exact {A} (vs : list A) :
  write_list 0 vs (np_empty (length vs)) = Some <$> vs.
Proof.
  rewrite write_list_empty, Nat.sub_diag, firstn_all. simpl. by rewrite app_nil_r.
Qed.

Lemma write_list_fmap_exact {A B} (f : A -> B) (l : list A) :
  write_list 0 (f <$> l) (np_empty (length l)) = (fun x => Some (f x)) <$> l.
Proof.
  by rewrite <- (length_fmap f l), write_list_exact, <- list_fmap_compose.
Qed.

(** ** The classify pass *)

Section EngineFacts.

Variables (H T : nat) (hstart : list nat).
Variable label : nat -> option tracer.
Variable gal : nat -> galaxy.

Abbreviation idx := (thread_range hstart).
Abbreviation pre k := (seq 0 k ≫= thread_range hstart).

Lemma classify_thread_keep (tid : nat) (l : list nat) st :
  (foldl (classify_step label tid) st l).2
  = foldl (fun k i => <[i := Some (label i)]> k) st.2 l.
Proof.
  revert st. induction l as [|i l IH]; intros st; simpl; [done|].
  rewrite IH. f_equal. unfold classify_step. by destruct (label i).
Qed.

Lemma classify_thread_count (tid : nat) (t : tracer) (l : list nat) st :
  (foldl (classify_step label tid) st l).1 t
  = alter (fun n => count_in label t l + n) tid (st.1 t).
Proof.
  revert st. induction l as [|i l IH]; intros st; simpl.
  - symmetry. apply list_alter_id. done.
  - rewrite IH. unfold count_in. rewrite filter_cons.
    destruct (decide (label i = Some t)) as [E|E].
    + unfold classify_step. rewrite E. simpl. unfold bump.
      rewrite decide_True by done.
      rewrite list_alter_alter_eq. apply list_alter_ext; [|done].
      intros; simpl; lia.
    + unfold classify_step. destruct (label i) as [t'|]; simpl; [|done].
      unfold bump. rewrite decide_False by congruence. done.
Qed.

Lemma classify_pass_keep_gen (k : nat) st :
  (foldl (fun st tid => foldl (classify_step label tid) st (idx tid)) st (seq 0 k)).2
  = foldl (fun k i => <[i := Some (label i)]> k) st.2 (pre k).
Proof.
  induction k as [|k IH]; [done|].
  rewrite seq_S, foldl_snoc, classify_thread_keep, IH, bind_app, foldl_app.
  simpl. by rewrite app_nil_r.
Qed.

Lemma classify_pass_count_gen (k : nat) (t : tracer) st :
  k <= length (st.1 t) -> 
  (foldl (fun st tid => foldl (classify_step label tid) st (idx tid)) st (seq 0 k)).1 t
  = foldl (fun N tid => alter (fun n => count_in label t (idx tid) + n) tid N) (st.1 t) (seq 0 k).
Proof.
  intros _. induction k as [|k IH]; [done|].
  rewrite seq_S, !foldl_snoc, classify_thread_count, IH. done.
Qed.

Lemma alter_counts (c : nat -> nat) (k n : nat) :
  k <= n ->
  foldl (fun N tid => alter (fun m => c tid + m) tid N) (replicate n 0) (seq 0 k)
  = (c <$> seq 0 k) ++ replicate (n - k) 0.
Proof.
  induction k as [|k IH]; intros Hk.
  - by rewrite Nat.sub_0_r.
  - rewrite seq_S, foldl_snoc, IH by lia. simpl.
    replace (n - k) with (S (n - S k)) by lia. simpl.
    rewrite fmap_app. simpl. rewrite <- (assoc_L (++)). simpl.
    rewrite alter_app_r_alt by (rewrite length_fmap, length_seq; lia).
    rewrite length_fmap, length_seq, Nat.sub_diag. simpl. by rewrite Nat.add_0_r.
Qed.

(** What the classify pass leaves in [Nout[:, t, 0]]: each thread's count
    over its own range. *)
Lemma classify_pass_counts (t : tracer) :
  (classify_pass H T hstart label).1 t
  = (fun tid => count_in label t (idx tid)) <$> seq 0 T.
Proof.
  unfold classify_pass. rewrite classify_pass_count_gen; simpl.
  - rewrite alter_counts by done. by rewrite Nat.sub_diag, app_nil_r.
  - by rewrite length_replicate.
Qed.

Lemma classify_pass_keep :
  (classify_pass H T hstart label).2
  = foldl (fun k i => <[i := Some (label i)]> k) (np_empty H) (pre T).
Proof. unfold classify_pass. by rewrite classify_pass_keep_gen. Qed.

(** A cell of the keep mask that was written holds the label of its index. *)
Lemma keep_written (l : list nat) (k0 : list (option (option tracer))) (i : nat) v :
  (forall v, k0 !! i = Some (Some v) -> v = label i) ->
  foldl (fun k i => <[i := Some (label i)]> k) k0 l !! i = Some (Some v) ->
  v = label i.
Proof.
  revert k0. induction l as [|j l IH]; intros k0 H0; simpl; [apply H0|].
  apply IH. intros v'. destruct (decide (j = i)) as [->|Hne].
  - destruct (decide (i < length k0)).
    + rewrite list_lookup_insert_eq by done. congruence.
    + rewrite list_insert_ge by lia. apply H0.
  - rewrite list_lookup_insert_ne by done. apply H0.
Qed.

Lemma classify_pass_keep_label (i : nat) v :
  (classify_pass H T hstart label).2 !! i = Some (Some v) -> v = label i.
Proof.
  rewrite classify_pass_keep. apply keep_written.
  intros v'. unfold np_empty. intros Hl. apply lookup_replicate in Hl as [? _]. done.
Qed.

Lemma keep_all (n m : nat) :
  n <= m ->
  foldl (fun k i => <[i := Some (label i)]> k) (np_empty m) (seq 0 n)
  = ((fun i => Some (label i)) <$> seq 0 n) ++ replicate (m - n) None.
Proof.
  induction n as [|n IH]; intros Hn.
  - by rewrite Nat.sub_0_r.
  - rewrite seq_S, foldl_snoc, IH by lia. simpl.
    replace (m - n) with (S (m - S n)) by lia. simpl.
    rewrite fmap_app, <- (assoc_L (++)). simpl.
    rewrite insert_app_r_alt by (rewrite length_fmap, length_seq; lia).
    by rewrite length_fmap, length_seq, Nat.sub_diag.
Qed.

(** ** Offsets *)

Lemma cumsum_lookup (c : nat -> nat) (n s a k : nat) :
  k <= n ->
  (a :: cumsum_from a (c <$> seq s n)) !! k = Some (a + sum_list (c <$> seq s k)).
Proof.
  revert s a k. induction n as [|n IH]; intros s a k Hk.
  - replace k with 0 by lia. cbn. f_equal. lia.
  - destruct k as [|k]; cbn; [f_equal; lia|].
    rewrite IH by lia. f_equal. lia.
Qed.

Lemma sum_counts (t : tracer) (k : nat) :
  sum_list ((fun tid => count_in label t (idx tid)) <$> seq 0 k) = count_in label t (pre k).
Proof.
  induction k as [|k IH]; [done|].
  rewrite seq_S, fmap_app, sum_list_with_app, bind_app, count_in_app, IH. simpl.
  rewrite app_nil_r. lia.
Qed.

Lemma gstart_lookup (t : tracer) (k : nat) :
  k <= T ->
  gstart_of (classify_pass H T hstart label).1 t !!! k = count_in label t (pre k).
Proof.
  intros Hk. unfold gstart_of. rewrite classify_pass_counts.
  apply list_lookup_total_correct. rewrite cumsum_lookup by done.
  by rewrite sum_counts.
Qed.


(** ** The fill pass, one column at a time *)

Lemma write_galaxy_fcol (B : (tracer -> column -> list (option float64)) * (tracer -> list (option Z)))
    (t' : tracer) (j : nat) (g : galaxy) (t : tracer) (c : column) :
  (write_galaxy B t' j g).1 t c
  = if decide (t' = t) then <[j := Some (col_of c g)]> (B.1 t c) else B.1 t c.
Proof.
  unfold write_galaxy, fstore. cbn [fst snd].
  destruct (decide (t' = t)) as [->|Hne].
  - destruct c; cbn [col_of];
      repeat match goal with
      | |- context [decide ?P] =>
          destruct (decide P) as [[_ Hd]|Hd];
          [try discriminate Hd; clear Hd
          |try (exfalso; apply Hd; split; reflexivity); clear Hd]
      end; reflexivity.
  - repeat match goal with
    | |- context [decide ?P] => destruct (decide P) as [[Hd _]|_]; [congruence|]
    end. reflexivity.
Qed.

Lemma write_galaxy_icol (B : (tracer -> column -> list (option float64)) * (tracer -> list (option Z)))
    (t' : tracer) (j : nat) (g : galaxy) (t : tracer) :
  (write_galaxy B t' j g).2 t
  = if decide (t' = t) then <[j := Some (g_id g)]> (B.2 t) else B.2 t.
Proof.
  unfold write_galaxy, istore. cbn [fst snd].
  destruct (decide (t' = t)) as [->|Hne].
  - by rewrite decide_True.
  - by rewrite decide_False by congruence.
Qed.

Lemma fill_step_fcol keep st (i : nat) (t : tracer) (c : column) :
  ((fill_step gal keep st i).1.1 t c, (fill_step gal keep st i).2 t)
  = col_step keep t (fun i => col_of c (gal i)) (st.1.1 t c, st.2 t) i.
Proof.
  unfold fill_step, col_step.
  destruct (keep !! i) as [[[t'|]|]|]; try reflexivity.
  cbn [fst snd]. rewrite write_galaxy_fcol.
  destruct (decide (t' = t)) as [->|Hne].
  - by rewrite decide_True.
  - by rewrite decide_False by congruence.
Qed.

Lemma fill_step_icol keep st (i : nat) (t : tracer) :
  ((fill_step gal keep st i).1.2 t, (fill_step gal keep st i).2 t)
  = col_step keep t (fun i => g_id (gal i)) (st.1.2 t, st.2 t) i.
Proof.
  unfold fill_step, col_step.
  destruct (keep !! i) as [[[t'|]|]|]; try reflexivity.
  cbn [fst snd]. rewrite write_galaxy_icol.
  destruct (decide (t' = t)) as [->|Hne].
  - by rewrite decide_True.
  - by rewrite decide_False by congruence.
Qed.

Lemma fill_thread_fcol keep (l : list nat) st (t : tracer) (c : column) :
  ((foldl (fill_step gal keep) st l).1.1 t c, (foldl (fill_step gal keep) st l).2 t)
  = foldl (col_step keep t (fun i => col_of c (gal i))) (st.1.1 t c, st.2 t) l.
Proof.
  revert st. induction l as [|i l IH]; intros st; simpl; [done|].
  by rewrite IH, fill_step_fcol.
Qed.

Lemma fill_thread_icol keep (l : list nat) st (t : tracer) :
  ((foldl (fill_step gal keep) st l).1.2 t, (foldl (fill_step gal keep) st l).2 t)
  = foldl (col_step keep t (fun i => g_id (gal i))) (st.1.2 t, st.2 t) l.
Proof.
  revert st. induction l as [|i l IH]; intros st; simpl; [done|].
  by rewrite IH, fill_step_icol.
Qed.

Lemma fill_pass_fcol keep (gs : tracer -> list nat) B (t : tracer) (c : column) (k : nat) :
  (foldl (fun B tid =>
            (foldl (fill_step gal keep) (B, fun t => gs t !!! tid) (idx tid)).1)
         B (seq 0 k)).1 t c
  = foldl (fun b tid =>
            (foldl (col_step keep t (fun i => col_of c (gal i))) (b, gs t !!! tid) (idx tid)).1)
         (B.1 t c) (seq 0 k).
Proof.
  induction k as [|k IH]; [done|].
  rewrite seq_S, !foldl_snoc.
  match goal with |- context [foldl (fill_step gal keep) ?st ?l] =>
    pose proof (f_equal fst (fill_thread_fcol keep l st t c)) as Hp end.
  cbn [fst snd] in Hp. by rewrite Hp, IH.
Qed.

Lemma fill_pass_icol keep (gs : tracer -> list nat) B (t : tracer) (k : nat) :
  (foldl (fun B tid =>
            (foldl (fill_step gal keep) (B, fun t => gs t !!! tid) (idx tid)).1)
         B (seq 0 k)).2 t
  = foldl (fun b tid =>
            (foldl (col_step keep t (fun i => g_id (gal i))) (b, gs t !!! tid) (idx tid)).1)
         (B.2 t) (seq 0 k).
Proof.
  induction k as [|k IH]; [done|].
  rewrite seq_S, !foldl_snoc.
  match goal with |- context [foldl (fill_step gal keep) ?st ?l] =>
    pose proof (f_equal fst (fill_thread_icol keep l st t)) as Hp end.
  cbn [fst snd] in Hp. by rewrite Hp, IH.
Qed.

(** A column's run over a list of indices whose keep cells hold their
    labels: the kept values go to consecutive slots from the cursor. *)
Lemma col_run {A} keep (t : tracer) (v : nat -> A) (l : list nat) b (j : nat) :
  (forall i, i ∈ l -> keep !! i = Some (Some (label i))) ->
  foldl (col_step keep t v) (b, j) l
  = (write_list j (v <$> filter (fun i => label i = Some t) l) b,
     j + count_in label t l).
Proof.
  revert b j. induction l as [|i l IH]; intros b j Hk; simpl.
  - unfold count_in. simpl. by rewrite Nat.add_0_r.
  - assert (keep !! i = Some (Some (label i))) as Hi by (apply Hk; left).
    assert (forall i0, i0 ∈ l -> keep !! i0 = Some (Some (label i0))) as Hk'
      by (intros; apply Hk; by right).
    unfold col_step at 2. rewrite Hi. unfold count_in. rewrite filter_cons.
    cbn [fst snd].
    destruct (decide (label i = Some t)) as [E|E].
    + rewrite E, decide_True by done. rewrite IH by done.
      unfold count_in. cbn. f_equal. lia.
    + destruct (label i) as [t'|]; [rewrite decide_False by congruence|];
        by rewrite IH.
Qed.

Lemma col_threads {A} keep (t : tracer) (v : nat -> A) (g : list nat) b0 (k : nat) :
  (forall i, i ∈ pre k -> keep !! i = Some (Some (label i))) ->
  (forall tid, tid < k -> g !!! tid = count_in label t (pre tid)) ->
  foldl (fun b tid => (foldl (col_step keep t v) (b, g !!! tid) (idx tid)).1) b0 (seq 0 k)
  = write_list 0 (v <$> filter (fun i => label i = Some t) (pre k)) b0.
Proof.
  induction k as [|k IH]; intros Hk Hg; [done|].
  rewrite bind_seq_S, filter_app, fmap_app, write_list_app.
  rewrite seq_S, foldl_snoc, IH; cycle 1.
  { intros i Hi. apply Hk. rewrite bind_seq_S. apply elem_of_app. by left. }
  { intros; apply Hg; lia. }
  rewrite col_run; cycle 1.
  { intros i Hi. apply Hk. rewrite bind_seq_S. apply elem_of_app. by right. }
  cbn [fst]. rewrite Hg by lia. unfold count_in. by rewrite length_fmap.
Qed.

(** ** The engine when the thread ranges tile [[0, H)] *)

Hypothesis tiling : pre T = seq 0 H.

Lemma tiled_keep :
  (classify_pass H T hstart label).2 = (fun i => Some (label i)) <$> seq 0 H.
Proof.
  rewrite classify_pass_keep, tiling, keep_all by done.
  by rewrite Nat.sub_diag, app_nil_r.
Qed.

Lemma tiled_keep_lookup (i : nat) :
  i ∈ seq 0 H -> (classify_pass H T hstart label).2 !! i = Some (Some (label i)).
Proof.
  intros Hi. apply elem_of_seq in Hi. rewrite tiled_keep, list_lookup_fmap.
  rewrite lookup_seq_lt by lia. done.
Qed.

Lemma tiled_totals (t : tracer) :
  totals T (gstart_of (classify_pass H T hstart label).1) t = length (kept label t H).
Proof. unfold totals. rewrite gstart_lookup by done. by rewrite tiling. Qed.

Lemma pre_sub (k : nat) (i : nat) : k <= T -> i ∈ pre k -> i ∈ seq 0 H.
Proof.
  intros Hk Hi. rewrite <- tiling.
  apply list_elem_of_bind in Hi as (tid & Hi & Htid).
  apply list_elem_of_bind. exists tid. split; [done|].
  apply elem_of_seq in Htid. apply elem_of_seq. lia.
Qed.

Lemma tiled_fcol (t : tracer) (c : column) :
  (engine_buffers H T hstart label gal).1 t c
  = write_list 0 ((fun i => col_of c (gal i)) <$> kept label t H)
      (np_empty (match t, c with
                 | QSO, Cmass => length (kept label LRG H)
                 | _, _ => length (kept label t H)
                 end)).
Proof.
  unfold engine_buffers.
  destruct (classify_pass H T hstart label) as [Nout keep] eqn:E.
  assert (Nout = (classify_pass H T hstart label).1) as -> by (by rewrite E).
  assert (keep = (classify_pass H T hstart label).2) as -> by (by rewrite E).
  unfold fill_pass. rewrite fill_pass_fcol, col_threads.
  - rewrite tiling. unfold alloc; simpl. rewrite !tiled_totals.
    by destruct t, c.
  - intros i Hi. apply tiled_keep_lookup. by apply (pre_sub T).
  - intros tid Htid. apply gstart_lookup. lia.
Qed.

Lemma tiled_icol (t : tracer) :
  (engine_buffers H T hstart label gal).2 t
  = write_list 0 ((fun i => g_id (gal i)) <$> kept label t H)
      (np_empty (length (kept label t H))).
Proof.
  unfold engine_buffers.
  destruct (classify_pass H T hstart label) as [Nout keep] eqn:E.
  assert (Nout = (classify_pass H T hstart label).1) as -> by (by rewrite E).
  assert (keep = (classify_pass H T hstart label).2) as -> by (by rewrite E).
  unfold fill_pass. rewrite fill_pass_icol, col_threads.
  - rewrite tiling. unfold alloc; simpl. by rewrite !tiled_totals.
  - intros i Hi. apply tiled_keep_lookup. by apply (pre_sub T).
  - intros tid Htid. apply gstart_lookup. lia.
Qed.

Lemma tiled_fcol_exact (t : tracer) (c : column) :
  ~ (t = QSO /\ c = Cmass) ->
  (engine_buffers H T hstart label gal).1 t c
  = (fun i => Some (col_of c (gal i))) <$> kept label t H.
Proof.
  intros Hne. rewrite tiled_fcol.
  destruct t, c; try apply write_list_fmap_exact. exfalso. by apply Hne.
Qed.

Lemma tiled_icol_exact (t : tracer) :
  id_astype ((engine_buffers H T hstart label gal).2 t)
  = (fun i => Some (F64.of_Z (g_id (gal i)))) <$> kept label t H.
Proof.
  rewrite tiled_icol, write_list_fmap_exact. unfold id_astype.
  by rewrite <- list_fmap_compose.
Qed.

End EngineFacts.

(** ** Rounding and the thread boundaries *)

Lemma np_rint_cases (x : Q) :
  let f := Qfloor x in
  (inject_Z f <= x)%Q /\ (x < inject_Z (f + 1))%Q /\
  ((x - inject_Z f < 1 # 2)%Q /\ np_rint x = f \/
   ((1 # 2) < x - inject_Z f)%Q /\ np_rint x = (f + 1)%Z \/
   (x - inject_Z f == 1 # 2)%Q /\ (np_rint x = f \/ np_rint x = (f + 1)%Z)).
Proof.
  intros f. split; [apply Qfloor_le|]. split; [apply Qlt_floor|].
  unfold np_rint. fold f.
  destruct (Qlt_bool (x - inject_Z f) (1 # 2)) eqn:E1.
  - left. apply Qlt_bool_iff in E1. auto.
  - right. destruct (Qlt_bool (1 # 2) (x - inject_Z f)) eqn:E2.
    + left. apply Qlt_bool_iff in E2. auto.
    + right. split; [|destruct (Z.even f); auto].
      apply Qle_antisym; apply Qnot_lt_le; intros Hc;
        apply Qlt_bool_iff in Hc; congruence.
Qed.

Lemma np_rint_Z (x : Q) (z : Z) : (x == inject_Z z)%Q -> np_rint x = z.
Proof.
  intros Hx.
  assert (Qfloor x = z) as Hf by (rewrite Hx; apply Qfloor_Z).
  destruct (np_rint_cases x) as (_ & _ & [[_ ->]|[[Hd _]|[Hd _]]]); [done| |];
    rewrite Hf, Hx in Hd; exfalso; lra.
Qed.

Lemma np_rint_mono (x y : Q) : (x <= y)%Q -> (np_rint x <= np_rint y)%Z.
Proof.
  intros Hxy.
  pose proof (Qfloor_resp_le x y Hxy) as Hf.
  destruct (Z.eq_dec (Qfloor x) (Qfloor y)) as [Heq|Hne].
  - unfold np_rint. rewrite <- Heq.
    set (f := Qfloor x). set (dx := (x - inject_Z f)%Q). set (dy := (y - inject_Z f)%Q).
    assert (dx <= dy)%Q as Hd by (unfold dx, dy; lra).
    destruct (Qlt_bool dx (1 # 2)) eqn:X1.
    + repeat match goal with |- context [if ?b then _ else _] => destruct b end; lia.
    + assert (Qlt_bool dy (1 # 2) = false) as ->.
      { apply not_true_iff_false. intros Hc. apply Qlt_bool_iff in Hc.
        apply not_true_iff_false in X1. apply X1. apply Qlt_bool_iff. lra. }
      destruct (Qlt_bool (1 # 2) dx) eqn:X2.
      * assert (Qlt_bool (1 # 2) dy = true) as ->.
        { apply Qlt_bool_iff. apply Qlt_bool_iff in X2. lra. }
        lia.
      * repeat match goal with |- context [if ?b then _ else _] => destruct b end; lia.
  - destruct (np_rint_cases x) as (_ & _ & Hx), (np_rint_cases y) as (_ & _ & Hy).
    assert (np_rint x <= Qfloor x + 1)%Z by (destruct Hx as [[_ ->]|[[_ ->]|[_ [->| ->]]]]; lia).
    assert (Qfloor y <= np_rint y)%Z by (destruct Hy as [[_ ->]|[[_ ->]|[_ [->| ->]]]]; lia).
    lia.
Qed.

Lemma Qsortedb_lookup (l : list Q) (k : nat) (x y : Q) :
  Qsortedb l = true -> l !! k = Some x -> l !! S k = Some y -> (x <= y)%Q.
Proof.
  revert k. induction l as [|a l IH]; intros k Hs Hx Hy; [done|].
  simpl in Hs. apply andb_true_iff in Hs as [Ha Hs].
  destruct k as [|k].
  - simpl in Hx, Hy. destruct l as [|b l]; [done|]. simpl in Hy.
    apply Qle_bool_iff in Ha. congruence.
  - apply (IH k); done.
Qed.

Section Boundaries.

Variables (H T : nat) (ls : list Q).
Hypothesis threads : 1 <= T.
Hypothesis ok : linspace_ok 0 (Z.of_nat H) (T + 1) ls = true.

Lemma linspace_ok_parts :
  length ls = T + 1 /\
  (exists x, ls !! 0 = Some x /\ (x == 0)%Q) /\
  (exists x, ls !! T = Some x /\ (x == inject_Z (Z.of_nat H))%Q) /\
  Qsortedb ls = true.
Proof.
  unfold linspace_ok in ok. rewrite !andb_true_iff in ok.
  destruct ok as [[[Hlen Hh] Hl] Hs]. apply Nat.eqb_eq in Hlen.
  split; [done|]. split; [|split; [|done]].
  - destruct (head ls) as [x|] eqn:E; [|done].
    exists x. split; [by rewrite <- head_lookup|]. by apply Qeq_bool_iff in Hh.
  - destruct (last ls) as [x|] eqn:E; [|done].
    exists x. split; [|by apply Qeq_bool_iff in Hl].
    rewrite last_lookup in E. rewrite <- E. f_equal. lia.
Qed.

Lemma hstart_length : length (hstart_of ls) = T + 1.
Proof. unfold hstart_of. rewrite length_fmap. apply linspace_ok_parts. Qed.

Lemma hstart_first : hstart_of ls !!! 0 = 0.
Proof.
  destruct linspace_ok_parts as (_ & (x & Hx & Hx0) & _).
  apply list_lookup_total_correct. unfold hstart_of.
  rewrite list_lookup_fmap, Hx. simpl. by rewrite (np_rint_Z x 0).
Qed.

Lemma hstart_last : hstart_of ls !!! T = H.
Proof.
  destruct linspace_ok_parts as (_ & _ & (x & Hx & HxH) & _).
  apply list_lookup_total_correct. unfold hstart_of.
  rewrite list_lookup_fmap, Hx. simpl. rewrite (np_rint_Z x (Z.of_nat H)) by done.
  f_equal. lia.
Qed.

Lemma hstart_mono (k : nat) : k < T -> hstart_of ls !!! k <= hstart_of ls !!! S k.
Proof.
  intros Hk. destruct linspace_ok_parts as (Hlen & _ & _ & Hs).
  destruct (lookup_lt_is_Some_2 ls k) as [x Hx]; [lia|].
  destruct (lookup_lt_is_Some_2 ls (S k)) as [y Hy]; [lia|].
  unfold hstart_of.
  rewrite (list_lookup_total_correct _ k (Z.to_nat (np_rint x)))
    by (by rewrite list_lookup_fmap, Hx).
  rewrite (list_lookup_total_correct _ (S k) (Z.to_nat (np_rint y)))
    by (by rewrite list_lookup_fmap, Hy).
  pose proof (np_rint_mono x y (Qsortedb_lookup ls k x y Hs Hx Hy)). lia.
Qed.

(** The thread ranges, in thread order, are the indices [0, ..., H - 1]:
    each index in exactly one range. *)
Lemma hstart_tiling : seq 0 T ≫= thread_range (hstart_of ls) = seq 0 H.
Proof.
  destruct (ranges_join (hstart_of ls) T) as [Hj _].
  { intros j Hj. by apply hstart_mono. }
  unfold thread_range. rewrite Hj, hstart_first, hstart_last. f_equal. lia.
Qed.

End Boundaries.

Lemma Qsortedb_fmap_seq (f : nat -> Q) (s n : nat) :
  (forall i, f i <= f (S i))%Q -> Qsortedb (f <$> seq s n) = true.
Proof.
  intros Hf. revert s. induction n as [|n IH]; intros s; [done|].
  cbn. apply andb_true_iff. split; [|apply IH].
  destruct n; [done|]. cbn. apply Qle_bool_iff, Hf.
Qed.

(** Exact division meets what [np.linspace] promises. *)
Lemma linspace_exact_ok (H T : nat) :
  1 <= T ->
  linspace_ok 0 (Z.of_nat H) (T + 1) (linspace_exact 0 (Z.of_nat H) (T + 1)) = true.
Proof.
  intros HT. destruct T as [|n]; [lia|].
  replace (S n + 1) with (S (S n)) by lia.
  unfold linspace_ok, linspace_exact.
  set (d := (inject_Z (Z.of_nat H - 0) / inject_Z (Z.of_nat (S (S n) - 1)))%Q).
  set (f := fun i : nat => (inject_Z 0 + inject_Z (Z.of_nat i) * d)%Q).
  assert (0 <= d)%Q as Hd.
  { unfold d. apply Qle_shift_div_l.
    - change 0%Q with (inject_Z 0). rewrite <- Zlt_Qlt. lia.
    - rewrite Qmult_0_l. change 0%Q with (inject_Z 0). rewrite <- Zle_Qle. lia. }
  rewrite !andb_true_iff. split; [split; [split|]|].
  - rewrite length_fmap, length_seq. apply Nat.eqb_refl.
  - change (Qeq_bool (f 0) (inject_Z 0) = true). apply Qeq_bool_iff.
    unfold f. change (inject_Z (Z.of_nat 0)) with 0%Q. change (inject_Z 0) with 0%Q. lra.
  - rewrite last_lookup, length_fmap, length_seq, list_lookup_fmap.
    rewrite lookup_seq_lt by lia. cbn [fmap option_fmap option_map Nat.pred Nat.add].
    apply Qeq_bool_iff. unfold f, d.
    replace (S (S n) - 1) with (S n) by lia. rewrite Z.sub_0_r.
    change (inject_Z 0) with 0%Q. field.
    change 0%Q with (inject_Z 0). rewrite inject_Z_injective. lia.
  - apply Qsortedb_fmap_seq. intros i. unfold f.
    rewrite Nat2Z.inj_succ. unfold Z.succ. rewrite inject_Z_plus.
    change (inject_Z 1) with 1%Q. nra.
Qed.

(** ** Kept objects and their slots *)

Section Slots.

Variable label : nat -> option tracer.
Variable t : tracer.




Lemma kept_elem (i n : nat) : i ∈ kept label t n <-> i < n /\ label i = Some t.
Proof.
  unfold kept. rewrite list_elem_of_filter, elem_of_seq. split; intros [? ?]; split; auto; lia.
Qed.




End Slots.

(** ** The dictionaries *)

Lemma make_dict_lookup (B : (tracer -> column -> list (option float64)) * (tracer -> list (option Z)))
    (t : tracer) (k : string) :
  make_dict B t !! k =
    if decide (k = "id") then Some (id_astype (B.2 t))
    else if decide (k = "mass") then Some (B.1 t Cmass)
    else if decide (k = "vz") then Some (B.1 t Cvz)
    else if decide (k = "vy") then Some (B.1 t Cvy)
    else if decide (k = "vx") then Some (B.1 t Cvx)
    else if decide (k = "z") then Some (B.1 t Cz)
    else if decide (k = "y") then Some (B.1 t Cy)
    else if decide (k = "x") then Some (B.1 t Cx)
    else None.
Proof.
  unfold make_dict.
  repeat (rewrite lookup_insert; destruct (decide (_ = k)) as [<-|?];
          [reflexivity | rewrite decide_False by congruence]).
  apply lookup_empty.
Qed.

Lemma dict_of_run_engine H T hs label gal (t : tracer) :
  dict_of (run_engine H T hs label gal) t = make_dict (engine_buffers H T hs label gal) t.
Proof. by destruct t. Qed.

(** Under a tiling, every column except the QSO mass holds the values of
    its tracer's kept objects, in index order, and nothing else. *)
Lemma engine_column H T hs label gal (t : tracer) (k : string) fld :
  seq 0 T ≫= thread_range hs = seq 0 H ->
  field_of_key k = Some fld ->
  ~ (t = QSO /\ k = "mass") ->
  dict_of (run_engine H T hs label gal) t !! k
  = Some ((fun i => Some (fld (gal i))) <$> kept label t H).
Proof.
  intros Htile Hk Hne. rewrite dict_of_run_engine, make_dict_lookup.
  unfold field_of_key in Hk.
  repeat case_decide; simplify_eq; f_equal;
    try (by apply tiled_icol_exact);
    apply (tiled_fcol_exact H T hs label gal Htile); intros [? ?]; try discriminate.
  by apply Hne.
Qed.

(** The QSO mass column has the length of the LRG catalogue: the first
    cells hold the masses of the kept QSO objects that fit, the rest were
    never stored to. *)
Lemma engine_qso_mass H T hs label gal :
  seq 0 T ≫= thread_range hs = seq 0 H ->
  dict_of (run_engine H T hs label gal) QSO !! "mass"
  = Some ((Some <$> take (length (kept label LRG H))
                      ((fun i => g_mass (gal i)) <$> kept label QSO H))
          ++ replicate (length (kept label LRG H) - length (kept label QSO H)) None).
Proof.
  intros Htile. rewrite dict_of_run_engine, make_dict_lookup. cbn.
  rewrite tiled_fcol by done. rewrite write_list_empty, length_fmap. done.
Qed.

(** * The central generator *)

Section CentFacts.

Variable R : runtime.
Variables pos vel : list (list float64).
Variable mass : list float64.
Variable ids : list Z.
Variables multis randoms vdev deltac fenv : list float64.
Variables LRG_design_array ELG_design_array QSO_design_array : list float64.
Variables ic alpha_c Ac Bc : float64.
Variable rsd : bool.
Variables inv_velz2kms lbox : float64.
Variables want_LRG want_ELG want_QSO : bool.

Local Abbreviation H := (length mass).
Local Abbreviation T := (rt_num_threads R).
Local Abbreviation label :=
  (cent_label R mass multis randoms deltac fenv LRG_design_array ELG_design_array
     QSO_design_array ic Ac Bc want_LRG want_ELG want_QSO).
Local Abbreviation gal :=
  (cent_galaxy pos vel mass ids vdev alpha_c rsd inv_velz2kms lbox).
Local Abbreviation out :=
  (gen_cent R pos vel mass ids multis randoms vdev deltac fenv LRG_design_array
     ELG_design_array QSO_design_array ic alpha_c Ac Bc rsd inv_velz2kms lbox
     want_LRG want_ELG want_QSO).


End CentFacts.


(** ** The comparison chain *)

Lemma classify_LRG (r mL mE mQ : float64) :
  classify r mL mE mQ = Some LRG <-> (r <=? mL)%f64 = true.
Proof.
  unfold classify.
  destruct (r <=? mL)%f64, (r <=? mE)%f64, (r <=? mQ)%f64; intuition congruence.
Qed.

Lemma classify_ELG (r mL mE mQ : float64) :
  classify r mL mE mQ = Some ELG <-> (r <=? mL)%f64 = false /\ (r <=? mE)%f64 = true.
Proof.
  unfold classify.
  destruct (r <=? mL)%f64, (r <=? mE)%f64, (r <=? mQ)%f64; intuition congruence.
Qed.

Lemma classify_QSO (r mL mE mQ : float64) :
  classify r mL mE mQ = Some QSO <->
  (r <=? mL)%f64 = false /\ (r <=? mE)%f64 = false /\ (r <=? mQ)%f64 = true.
Proof.
  unfold classify.
  destruct (r <=? mL)%f64, (r <=? mE)%f64, (r <=? mQ)%f64; intuition congruence.
Qed.


Lemma running_sum_nan_chain (wL wE wQ : bool) (cL cE cQ : float64) :
  let mL := if wL then (F64.zero + cL)%f64 else F64.zero in
  let mE := if wE then (mL + cE)%f64 else mL in
  let mQ := if wQ then (mE + cQ)%f64 else mE in
  nan_chain (mL, mE, mQ).
Proof.
  intros mL mE mQ. unfold nan_chain, mQ, mE. simpl.
  split; [destruct wE|destruct wQ]; intros Hn; try done; by apply add_not_nan in Hn as [? _].
Qed.

Lemma classify_ordered (r : float64) (m : float64 * float64 * float64) :
  nan_chain m ->
  let l := classify r m.1.1 m.1.2 m.2 in
  (l = Some LRG <-> (r <=? m.1.1)%f64 = true) /\
  (l = Some ELG <-> (m.1.1 <? r)%f64 = true /\ (r <=? m.1.2)%f64 = true) /\
  (l = Some QSO <->
     (m.1.1 <? r)%f64 = true /\ (m.1.2 <? r)%f64 = true /\ (r <=? m.2)%f64 = true) /\
  ((m.1.1 <=? m.1.2)%f64 = true ->
     (l = Some QSO <-> (m.1.2 <? r)%f64 = true /\ (r <=? m.2)%f64 = true)).
Proof.
  destruct m as [[mL mE] mQ]. intros [HnE HnQ]. simpl in *.
  assert (forall x, (r <=? x)%f64 = true -> F64.is_nan r = false) as Hr
    by (intros x Hx; by apply leb_not_nan in Hx as [? _]).
  assert ((r <=? mE)%f64 = true -> ((r <=? mL)%f64 = false <-> (mL <? r)%f64 = true)) as HE.
  { intros HrE. pose proof (leb_not_nan _ _ HrE) as [? ?].
    split; [apply leb_false_ltb; auto | apply ltb_leb_false]. }
  assert ((r <=? mQ)%f64 = true ->
          ((r <=? mL)%f64 = false <-> (mL <? r)%f64 = true) /\
          ((r <=? mE)%f64 = false <-> (mE <? r)%f64 = true)) as HQ.
  { intros HrQ. pose proof (leb_not_nan _ _ HrQ) as [? ?].
    split; (split; [apply leb_false_ltb; auto | apply ltb_leb_false]). }
  split; [apply classify_LRG|]. split; [|split].
  - rewrite classify_ELG. tauto.
  - rewrite classify_QSO. tauto.
  - intros Hle. rewrite classify_QSO. split.
    + intros (? & ? & HrQ). destruct (HQ HrQ) as [_ ?]. tauto.
    + intros [Hlt HrQ]. destruct (HQ HrQ) as [? ?].
      split; [|tauto].
      apply ltb_leb_false. by apply (leb_ltb_trans mL mE r).
Qed.

Lemma count_labels (label : nat -> option tracer) (l : list nat) :
  count_in label LRG l + count_in label ELG l + count_in label QSO l
  + not_kept_count ((fun i => Some (label i)) <$> l) = length l.
Proof.
  unfold count_in, not_kept_count. induction l as [|i l IH]; [done|].
  rewrite fmap_cons, !filter_cons. cbn [length]. rewrite <- IH.
  destruct (label i) as [[]|]; repeat case_decide; simplify_eq; cbn [length]; lia.
Qed.






Section CentClassify.

Variable R : runtime.
Variable mass : list float64.
Variables multis randoms deltac fenv : list float64.
Variables LRG_design_array ELG_design_array QSO_design_array : list float64.
Variables ic Ac Bc : float64.
Variables want_LRG want_ELG want_QSO : bool.

Local Abbreviation H := (length mass).
Local Abbreviation T := (rt_num_threads R).
Local Abbreviation markers :=
  (cent_markers R mass multis deltac fenv LRG_design_array ELG_design_array
     QSO_design_array ic Ac Bc want_LRG want_ELG want_QSO).
Local Abbreviation label :=
  (cent_label R mass multis randoms deltac fenv LRG_design_array ELG_design_array
     QSO_design_array ic Ac Bc want_LRG want_ELG want_QSO).

Lemma cent_markers_nan_chain (i : nat) : nan_chain (markers i).
Proof. apply running_sum_nan_chain. Qed.

Lemma cent_label_classify (i : nat) :
  label i = classify (randoms !!! i) (markers i).1.1 (markers i).1.2 (markers i).2.
Proof. unfold cent_label. by destruct (markers i) as [[? ?] ?]. Qed.

(** [C2], as amended.  In the classify pass of [gen_cent] every halo gets
    one label, from its single draw [r] and the running markers: LRG iff
    [r <= LRG_marker]; ELG iff [LRG_marker < r <= ELG_marker]; QSO iff [r]
    is above both earlier markers and [r <= QSO_marker], which is
    [ELG_marker < r <= QSO_marker] whenever [LRG_marker <= ELG_marker].
    No halo is kept for two tracers, and over a run the three kept counts
    and the number of halos given 0 add up to the number of halos.  With
    markers 0.4 and 0.9 a draw of 0.6 is labelled ELG. *)
Theorem cent_classify_exclusive :
  1 <= T ->
  linspace_ok 0 (Z.of_nat H) (T + 1) (rt_linspace R 0 (Z.of_nat H) (T + 1)) = true ->
  (forall i,
     let m := markers i in
     let r := randoms !!! i in
     (label i = Some LRG <-> (r <=? m.1.1)%f64 = true) /\
     (label i = Some ELG <-> (m.1.1 <? r)%f64 = true /\ (r <=? m.1.2)%f64 = true) /\
     (label i = Some QSO <->
        (m.1.1 <? r)%f64 = true /\ (m.1.2 <? r)%f64 = true /\ (r <=? m.2)%f64 = true) /\
     ((m.1.1 <=? m.1.2)%f64 = true ->
        (label i = Some QSO <-> (m.1.2 <? r)%f64 = true /\ (r <=? m.2)%f64 = true))) /\
  (forall t t' i, i ∈ kept label t H -> i ∈ kept label t' H -> t = t') /\
  (let st := classify_pass H T (cent_hstart R mass) label in
   let N := totals T (gstart_of st.1) in
   (forall i, i < H -> st.2 !! i = Some (Some (label i))) /\
   N LRG + N ELG + N QSO + not_kept_count st.2 = H) /\
  (forall mQ, classify (lit 6 1) (lit 4 1) (lit 9 1) mQ = Some ELG).
Proof.
  intros HT Hok.
  assert (seq 0 T ≫= thread_range (cent_hstart R mass) = seq 0 H) as Htile
    by (apply hstart_tiling; done).
  split; [|split; [|split]].
  - intros i m r. unfold r. rewrite cent_label_classify.
    apply classify_ordered, cent_markers_nan_chain.
  - intros t t' i [_ Ht]%kept_elem [_ Ht']%kept_elem. congruence.
  - cbn zeta. split.
    + intros i Hi. apply tiled_keep_lookup; [done|]. apply elem_of_seq. lia.
    + rewrite !tiled_totals, tiled_keep by done.
      pose proof (count_labels label (seq 0 H)) as Hc.
      rewrite length_seq in Hc. exact Hc.
  - intros mQ. reflexivity.
Qed.

(** [C4], as amended.  In [gen_cent] the LRG term of a halo is the LRG
    central occupation, evaluated with [logM_cut] shifted by
    [Ac * deltac[i] + Bc * fenv[i]], times [ic], times [multis[i]]; the ELG
    term is the ELG central occupation times [multis[i]], without [ic]; and
    the LRG and ELG markers are the running sums of the requested terms. *)
Theorem cent_marker_terms (i : nat) :
  cent_contrib_LRG R mass multis deltac fenv LRG_design_array ic Ac Bc i
  = (n_cen_LRG (rt_libm R) (mass !!! i)
       (LRG_design_array !!! 0%nat + Ac * (deltac !!! i) + Bc * (fenv !!! i))
       (LRG_design_array !!! 2%nat)
     * ic * (multis !!! i))%f64 /\
  cent_contrib_ELG R mass multis ELG_design_array i
  = (N_cen_ELG_v1 (rt_libm R) (mass !!! i)
       (ELG_design_array !!! 0%nat) (ELG_design_array !!! 1%nat)
       (ELG_design_array !!! 2%nat) (ELG_design_array !!! 4%nat)
       (ELG_design_array !!! 7%nat)
     * (multis !!! i))%f64 /\
  (markers i).1.1
  = (if want_LRG
     then (F64.zero + cent_contrib_LRG R mass multis deltac fenv LRG_design_array ic Ac Bc i)%f64
     else F64.zero) /\
  (markers i).1.2
  = (if want_ELG
     then ((markers i).1.1 + cent_contrib_ELG R mass multis ELG_design_array i)%f64
     else (markers i).1.1).
Proof. repeat split. Qed.

End CentClassify.

(** [C2], as stated, fails when a term is negative.  For a halo of unit
    mass with the ELG amplitude [p_max - 1/Q = -1] the markers are 0.5,
    0.2021 and 0.7021: the draw 0.3 satisfies
    [ELG_marker < 0.3 <= QSO_marker], and the halo is labelled LRG. *)
Lemma cent_classify_not_monotone :
  (marker_for ELG ex_unit_markers <? marker_for LRG ex_unit_markers)%f64 = true /\
  (marker_for ELG ex_unit_markers <? lit 3 1)%f64 = true /\
  (lit 3 1 <=? marker_for QSO ex_unit_markers)%f64 = true /\
  ex_unit_label = Some LRG.
Proof. vm_compute. repeat split. Qed.

Lemma cent_classify_exclusive_witness :
  let st := classify_pass 5 2 (cent_hstart (rt_ref 2) (hmass ex_halos))
              (cent_label (rt_ref 2) (hmass ex_halos) (hmultis ex_halos)
                 (hrandoms ex_halos) (hdeltac ex_halos) (hfenv ex_halos)
                 ex_LRG_design ex_ELG_design ex_QSO_design
                 (of_Z 1) (of_Z 0) (of_Z 0) true true true) in
  let N := totals 2 (gstart_of st.1) in
  N LRG + N ELG + N QSO + not_kept_count st.2 = 5.
Proof.
  refine (proj2 (proj1 (proj2 (proj2
    (cent_classify_exclusive (rt_ref 2) (hmass ex_halos) (hmultis ex_halos)
       (hrandoms ex_halos) (hdeltac ex_halos) (hfenv ex_halos)
       ex_LRG_design ex_ELG_design ex_QSO_design
       (of_Z 1) (of_Z 0) (of_Z 0) true true true _ _))))).
  - simpl. lia.
  - vm_compute. reflexivity.
Defined.

(** [C4], as stated, fails for the ELG term: for a halo of mass 1e13 with
    multiplier 1 and [ic = 0.5] the term is the model value 0.01, not 0.005. *)
Lemma cent_ELG_term_without_ic :
  let model :=
    N_cen_ELG_v1 libm_ref (of_Z (10 ^ 13)) (lit 33 2) (of_Z 100) (lit 1175 2)
      (lit 58 2) (lit 412 2) in
  let term := cent_contrib_ELG (rt_ref 2) (hmass ex_halos) (hmultis ex_halos) ex_ELG_design 0 in
  term = model /\ model = lit 1 2 /\
  term <> (model * of_Z 1 * lit 5 1)%f64 /\
  term <> (model * lit 5 1 * of_Z 1)%f64.
Proof. vm_compute. repeat split; discriminate. Qed.

(** * The satellite generator *)

Section SatFacts.

Variable R : runtime.
Variables ppos pvel hvel : list (list float64).
Variable hmass : list float64.
Variable hid : list Z.
Variables weights randoms hdeltac hfenv : list float64.
Variable enable_ranks : bool.
Variables ranks ranksv ranksp ranksr : list float64.
Variables LRG_design_array : list float64.
Variables ELG_design_array QSO_design_array : list float64.
Variable rsd : bool.
Variables inv_velz2kms lbox : float64.
Variables want_LRG want_ELG want_QSO : bool.

Local Abbreviation H := (length hmass).
Local Abbreviation T := (rt_num_threads R).
Local Abbreviation markers d :=
  (sat_markers R hmass weights hdeltac hfenv enable_ranks ranks ranksv ranksp ranksr
     LRG_design_array d ELG_design_array QSO_design_array
     want_LRG want_ELG want_QSO).
Local Abbreviation label d :=
  (sat_label R hmass weights randoms hdeltac hfenv enable_ranks ranks ranksv ranksp
     ranksr LRG_design_array d ELG_design_array QSO_design_array
     want_LRG want_ELG want_QSO).
Local Abbreviation exp_sat d :=
  (sat_contrib_LRG R hmass weights hdeltac hfenv enable_ranks ranks ranksv ranksp
     ranksr LRG_design_array d).

Lemma sat_label_classify d (i : nat) :
  label d i = classify (randoms !!! i) (markers d i).1.1 (markers d i).1.2 (markers d i).2.
Proof. unfold sat_label. by destruct (markers d i) as [[? ?] ?]. Qed.


(** [C9].  Two calls of [gen_sats] whose decoration vectors agree from
    index 1 on, and whose other arguments are the same, return the same
    three dictionaries: slot 0 is never read. *)
Theorem gen_sats_ignores_slot0 (d d' : list float64) :
  (forall k, 1 <= k -> d !! k = d' !! k) ->
  gen_sats R ppos pvel hvel hmass hid weights randoms hdeltac hfenv enable_ranks
    ranks ranksv ranksp ranksr LRG_design_array d ELG_design_array QSO_design_array
    rsd inv_velz2kms lbox want_LRG want_ELG want_QSO
  = gen_sats R ppos pvel hvel hmass hid weights randoms hdeltac hfenv enable_ranks
      ranks ranksv ranksp ranksr LRG_design_array d' ELG_design_array QSO_design_array
      rsd inv_velz2kms lbox want_LRG want_ELG want_QSO.
Proof.
  intros Hd.
  assert (forall k, 1 <= k -> d !!! k = d' !!! k) as Ht
    by (intros k Hk; by rewrite !list_lookup_total_alt, Hd).
  unfold gen_sats, sat_label, sat_markers, sat_contrib_LRG, sat_galaxy.
  rewrite !(Ht 1), !(Ht 2), !(Ht 3), !(Ht 4), !(Ht 5), !(Ht 6), !(Ht 7), !(Ht 8),
    !(Ht 9), !(Ht 10) by lia.
  reflexivity.
Qed.

End SatFacts.


Lemma gen_sats_ignores_slot0_witness :
  ex_gen_sats ex_particles (ex_decorations (of_Z 0)) true
  = ex_gen_sats ex_particles (ex_decorations (of_Z 7)) true.
Proof.
  unfold ex_gen_sats. apply gen_sats_ignores_slot0.
  intros [|k] Hk; [lia|]. unfold ex_decorations. reflexivity.
Defined.

(** * The inclusive boundary *)



(** * The size of the QSO mass column *)

(** [C1] at three inputs.  Five halos, all tracers requested: two LRG, one
    ELG and one QSO are kept, and the QSO dictionary has one cell in each
    column but two in [mass], the second never written.  One halo kept as
    QSO and none as LRG: the QSO [mass] column is empty, and the halo's
    mass is in no column.  Two particles, LRG alone requested: the QSO
    catalogue is empty but for a [mass] column of one cell. *)
Theorem qso_mass_sized_by_lrg :
  (let out := ex_gen_cent ex_halos (of_Z 1) true true true in
   dict_len (dict_of out LRG) "mass" = 2 /\
   dict_len (dict_of out QSO) "x" = 1 /\
   dict_of out QSO !! "mass" = Some [Some (of_Z (10 ^ 13)); None]) /\
  (let out := ex_gen_cent ex_halo_qso (of_Z 1) true true true in
   dict_len (dict_of out LRG) "mass" = 0 /\
   dict_len (dict_of out QSO) "x" = 1 /\
   dict_of out QSO !! "mass" = Some []) /\
  (let out := ex_gen_sats ex_particles (ex_decorations (of_Z 0)) true in
   dict_len (dict_of out LRG) "mass" = 1 /\
   dict_len (dict_of out QSO) "x" = 0 /\
   dict_of out QSO !! "mass" = Some [None]).
Proof. vm_compute. repeat split. Qed.

(** * The logarithm of the first ELG central model *)

(** [C8] on the code.  [N_cen_ELG_v1] is the base-10 model of the
    specification with the natural logarithm in the place of [log10],
    whatever the library.  For [M_h = 1e13], [p_max = 0.33], [Q = 100],
    [logM_cut = 11.75], [sigma = 0.58], [gamma = 4.12] the source returns
    0.01 and the base-10 model 0.05315...: [log(1e13) = 29.93] against
    [log10(1e13) = 13]. *)
Theorem N_cen_ELG_v1_natural_log :
  (forall M M_h p_max Q logM_cut sigma gamma,
     N_cen_ELG_v1 M M_h p_max Q logM_cut sigma gamma
     = N_cen_ELG_v1_base10 (log10_replaced_by_log M) M_h p_max Q logM_cut sigma gamma) /\
  N_cen_ELG_v1 libm_ref (of_Z (10 ^ 13)) (lit 33 2) (of_Z 100) (lit 1175 2)
    (lit 58 2) (lit 412 2) = lit 1 2 /\
  N_cen_ELG_v1_base10 libm_ref (of_Z (10 ^ 13)) (lit 33 2) (of_Z 100) (lit 1175 2)
    (lit 58 2) (lit 412 2) = fin 7660905967198443 (-57) /\
  m_log libm_ref (of_Z (10 ^ 13)) = fin 8425561110522435 (-48) /\
  m_log10 libm_ref (of_Z (10 ^ 13)) = of_Z 13.
Proof. split; [reflexivity|]. vm_compute. repeat split. Qed.

(** * The orchestrator *)

Lemma as_float64_dec (v : pyval) :
  as_float64 v = if is_float v then Some (float_of v) else None.
Proof. by destruct v. Qed.

Lemma as_float64_array_dec (d : gmap string pyval) (keys : list string) :
  as_float64_array (np_array_of d keys)
  = if all_float d keys then Some ((fun k => float_of (dict_get d k)) <$> keys) else None.
Proof.
  unfold as_float64_array, np_array_of, all_float.
  induction keys as [|k keys IH]; [done|].
  cbn. rewrite as_float64_dec. destruct (is_float (dict_get d k)); [|done].
  cbn. rewrite IH. by destruct (forallb _ keys).
Qed.

Lemma np_array_of_missing (d : gmap string pyval) (keys : list string) (j : nat) (k : string) :
  keys !! j = Some k -> d !! k = None -> np_array_of d keys !! j = Some PyNone.
Proof.
  intros Hj Hk. unfold np_array_of. rewrite list_lookup_fmap, Hj. simpl.
  unfold dict_get. by rewrite Hk.
Qed.

(** [C7], as amended.  [gen_gals] validates nothing.  Each name is read
    with [dict.get]: the four vectors have 5, 11, 9 and 7 slots whatever
    the dictionaries hold, and a missing name leaves [None] in its slot.
    When [velz2kms] is not zero, the only error is the type error of a
    compiled generator's call: at the call of [gen_cent], with nothing run,
    when a name that reaches [gen_cent] (a design name of any tracer, [ic],
    [alpha_c], [Acent], [Bcent]) has no float; else at the call of
    [gen_sats], after [gen_cent] has run and its line is printed, when a
    name of the decoration vector has none; else both generators run. *)
Theorem gen_gals_unvalidated (R : runtime) (halos_array : halo_arrays)
    (subsample : particle_arrays) (LRG_HOD ELG_HOD QSO_HOD : gmap string pyval)
    (params : sim_params) (enable_ranks rsd want_LRG want_ELG want_QSO : bool) :
  F64.is_zero (velz2kms params) = false ->
  let r := gen_gals R halos_array subsample LRG_HOD ELG_HOD QSO_HOD params
             enable_ranks rsd want_LRG want_ELG want_QSO in
  let cent_ok := all_float LRG_HOD (LRG_design_keys ++ cent_scalar_keys)
                 && all_float ELG_HOD ELG_design_keys
                 && all_float QSO_HOD QSO_design_keys in
  let sats_ok := all_float LRG_HOD LRG_decorations_keys in
  (length (np_array_of LRG_HOD LRG_design_keys) = 5 /\
   length (np_array_of LRG_HOD LRG_decorations_keys) = 11 /\
   length (np_array_of ELG_HOD ELG_design_keys) = 9 /\
   length (np_array_of QSO_HOD QSO_design_keys) = 7) /\
  (forall d keys j k, keys !! j = Some k -> d !! k = None ->
     np_array_of d keys !! j = Some PyNone) /\
  (cent_ok = false -> r = ([], inl (TypingError "gen_cent"))) /\
  (cent_ok = true -> sats_ok = false ->
   exists n, r = ([PrintCentrals n], inl (TypingError "gen_sats"))) /\
  (cent_ok = true -> sats_ok = true ->
   exists n out, r = ([PrintCentrals n; PrintSatellites], inr out)).
Proof.
  intros Hz r cent_ok sats_ok.
  split; [done|]. split; [apply np_array_of_missing|].
  unfold r, gen_gals. rewrite Hz, !as_float64_array_dec, !as_float64_dec.
  unfold cent_ok, sats_ok, all_float. rewrite forallb_app.
  cbn [forallb cent_scalar_keys].
  destruct (forallb _ LRG_design_keys), (is_float (dict_get LRG_HOD "ic")),
    (is_float (dict_get LRG_HOD "alpha_c")), (is_float (dict_get LRG_HOD "Acent")),
    (is_float (dict_get LRG_HOD "Bcent")), (forallb _ ELG_design_keys),
    (forallb _ QSO_design_keys), (forallb _ LRG_decorations_keys);
    cbn [andb]; (split; [|split]); intros; try discriminate; eauto.
Qed.

Lemma gen_gals_unvalidated_witness :
  exists n out, ex_gen_gals ex_LRG_HOD = ([PrintCentrals n; PrintSatellites], inr out).
Proof.
  refine (proj2 (proj2 (proj2 (proj2
    (gen_gals_unvalidated (rt_ref 2) ex_halos ex_particles ex_LRG_HOD ex_ELG_HOD
       ex_QSO_HOD ex_params false false true false false _)))) _ _);
    vm_compute; reflexivity.
Defined.

(** [C7], as stated, fails.  With the name ['s'] left out of the LRG
    dictionary [gen_gals] raises no configuration error: [gen_cent] runs to
    the end, its line is printed, and the run stops with the type error of
    the call of [gen_sats]. *)
Lemma gen_gals_runs_gen_cent_first :
  delete "s" ex_LRG_HOD !! "s" = None /\
  ex_gen_gals (delete "s" ex_LRG_HOD)
  = ([PrintCentrals 4], inl (TypingError "gen_sats")).
Proof. vm_compute. split; reflexivity. Qed.

(** * More on the partition engine *)


(** Two dictionaries agree at every key but ["z"] when the buffers agree
    on every column but [Cz]. *)
Lemma make_dict_lookup_ext
    (B B' : (tracer -> column -> list (option float64)) * (tracer -> list (option Z)))
    (t : tracer) (k : string) :
  (forall c, c <> Cz -> B.1 t c = B'.1 t c) -> B.2 t = B'.2 t -> k <> "z" ->
  make_dict B t !! k = make_dict B' t !! k.
Proof.
  intros Hf Hi Hk. rewrite !make_dict_lookup.
  destruct (decide (k = "id")); [by rewrite Hi|].
  destruct (decide (k = "mass")); [by rewrite Hf|].
  destruct (decide (k = "vz")); [by rewrite Hf|].
  destruct (decide (k = "vy")); [by rewrite Hf|].
  destruct (decide (k = "vx")); [by rewrite Hf|].
  destruct (decide (k = "z")); [done|].
  destruct (decide (k = "y")); [by rewrite Hf|].
  destruct (decide (k = "x")); [by rewrite Hf|done].
Qed.

Lemma dict_len_column
    (B : (tracer -> column -> list (option float64)) * (tracer -> list (option Z)))
    (t : tracer) :
  dict_len (make_dict B t) "x" = length (B.1 t Cx) /\
  dict_len (make_dict B t) "z" = length (B.1 t Cz) /\
  dict_len (make_dict B t) "mass" = length (B.1 t Cmass).
Proof. unfold dict_len. rewrite !make_dict_lookup. done. Qed.


Section EngineMore.

Variables (H T : nat) (hstart : list nat).
Variable label : nat -> option tracer.

Local Abbreviation idx := (thread_range hstart).
Local Abbreviation pre k := (seq 0 k ≫= thread_range hstart).

Lemma count_in_none (t : tracer) (l : list nat) :
  (forall i, label i <> Some t) -> count_in label t l = 0.
Proof.
  intros Hn. unfold count_in. induction l as [|i l IH]; [done|].
  rewrite filter_cons, decide_False by apply Hn. done.
Qed.

(** A column whose values agree is filled alike. *)
Lemma col_fold_ext {A} keep (t : tracer) (v v' : nat -> A) (l : list nat) st :
  (forall i, v i = v' i) ->
  foldl (col_step keep t v) st l = foldl (col_step keep t v') st l.
Proof.
  intros Hv. revert st. induction l as [|i l IH]; intros st; simpl; [done|].
  rewrite IH. f_equal. unfold col_step. by rewrite Hv.
Qed.

Lemma col_threads_ext {A} keep (t : tracer) (v v' : nat -> A) (g : list nat) b0 (k : nat) :
  (forall i, v i = v' i) ->
  foldl (fun b tid => (foldl (col_step keep t v) (b, g !!! tid) (idx tid)).1) b0 (seq 0 k)
  = foldl (fun b tid => (foldl (col_step keep t v') (b, g !!! tid) (idx tid)).1) b0 (seq 0 k).
Proof.
  intros Hv. induction k as [|k IH]; [done|].
  rewrite seq_S, !foldl_snoc, IH. by rewrite (col_fold_ext keep t v v').
Qed.

(** A tracer no object is labelled with: its columns are never stored to. *)
Lemma col_fold_untouched {A} keep (t : tracer) (v : nat -> A) (l : list nat) st :
  (forall i t', keep !! i = Some (Some (Some t')) -> t' <> t) ->
  foldl (col_step keep t v) st l = st.
Proof.
  intros Hk. revert st. induction l as [|i l IH]; intros st; simpl; [done|].
  rewrite IH. unfold col_step.
  destruct (keep !! i) as [[[t'|]|]|] eqn:E; try done.
  rewrite decide_False; [done|]. by apply (Hk i).
Qed.

Lemma col_threads_untouched {A} keep (t : tracer) (v : nat -> A) (g : list nat) b0 (k : nat) :
  (forall i t', keep !! i = Some (Some (Some t')) -> t' <> t) ->
  foldl (fun b tid => (foldl (col_step keep t v) (b, g !!! tid) (idx tid)).1) b0 (seq 0 k)
  = b0.
Proof.
  intros Hk. induction k as [|k IH]; [done|].
  rewrite seq_S, foldl_snoc, IH. by rewrite col_fold_untouched.
Qed.

(** Stores keep a column's length. *)
Lemma col_fold_length {A} keep (t : tracer) (v : nat -> A) (l : list nat) st :
  length (foldl (col_step keep t v) st l).1 = length st.1.
Proof.
  revert st. induction l as [|i l IH]; intros st; simpl; [done|].
  rewrite IH. unfold col_step.
  destruct (keep !! i) as [[[t'|]|]|]; try done.
  case_decide; [|done]. cbn. by rewrite length_insert.
Qed.

Lemma col_threads_length {A} keep (t : tracer) (v : nat -> A) (g : list nat) b0 (k : nat) :
  length (foldl (fun b tid => (foldl (col_step keep t v) (b, g !!! tid) (idx tid)).1)
            b0 (seq 0 k))
  = length b0.
Proof.
  induction k as [|k IH]; [done|].
  by rewrite seq_S, foldl_snoc, col_fold_length.
Qed.

Lemma classify_pass_keep_ne (t : tracer) :
  (forall i, label i <> Some t) ->
  forall i t', (classify_pass H T hstart label).2 !! i = Some (Some (Some t')) -> t' <> t.
Proof.
  intros Hn i t' Hk ->. apply classify_pass_keep_label in Hk. by apply (Hn i).
Qed.

Lemma engine_totals (t : tracer) :
  totals T (gstart_of (classify_pass H T hstart label).1) t = count_in label t (pre T).
Proof. unfold totals. by rewrite gstart_lookup. Qed.

Variable gal : nat -> galaxy.

Lemma engine_fcol_untouched (t : tracer) (c : column) :
  (forall i, label i <> Some t) ->
  (engine_buffers H T hstart label gal).1 t c
  = np_empty (match t, c with
              | QSO, Cmass => count_in label LRG (pre T)
              | _, _ => 0
              end).
Proof.
  intros Hn. unfold engine_buffers.
  destruct (classify_pass H T hstart label) as [Nout keep] eqn:E.
  assert (Nout = (classify_pass H T hstart label).1) as -> by (by rewrite E).
  assert (keep = (classify_pass H T hstart label).2) as -> by (by rewrite E).
  unfold fill_pass. rewrite fill_pass_fcol, col_threads_untouched
    by (by apply classify_pass_keep_ne).
  unfold alloc. cbn [fst]. rewrite !engine_totals, (count_in_none t) by done.
  by destruct t, c.
Qed.

Lemma engine_icol_untouched (t : tracer) :
  (forall i, label i <> Some t) ->
  (engine_buffers H T hstart label gal).2 t = [].
Proof.
  intros Hn. unfold engine_buffers.
  destruct (classify_pass H T hstart label) as [Nout keep] eqn:E.
  assert (Nout = (classify_pass H T hstart label).1) as -> by (by rewrite E).
  assert (keep = (classify_pass H T hstart label).2) as -> by (by rewrite E).
  unfold fill_pass. rewrite fill_pass_icol, col_threads_untouched
    by (by apply classify_pass_keep_ne).
  unfold alloc. cbn [snd]. by rewrite !engine_totals, (count_in_none t) by done.
Qed.

(** The dictionary of a tracer no object is labelled with. *)
Lemma engine_dict_untouched (t : tracer) (k : string) fld :
  (forall i, label i <> Some t) ->
  field_of_key k = Some fld ->
  dict_of (run_engine H T hstart label gal) t !! k
  = Some (if decide (t = QSO /\ k = "mass")
          then replicate (count_in label LRG (pre T)) None else []).
Proof.
  intros Hn Hk. rewrite dict_of_run_engine, make_dict_lookup.
  unfold field_of_key in Hk.
  destruct (decide (t = QSO /\ k = "mass")) as [[-> ->]|Hne].
  - cbn. by rewrite engine_fcol_untouched.
  - repeat case_decide; simplify_eq; f_equal;
      rewrite ?engine_icol_untouched, ?engine_fcol_untouched by done;
      try done.
    all: destruct t; try done.
    exfalso. by apply Hne.
Qed.

Lemma engine_fcol_length (t : tracer) (c : column) :
  length ((engine_buffers H T hstart label gal).1 t c)
  = match t, c with
    | QSO, Cmass => count_in label LRG (pre T)
    | _, _ => count_in label t (pre T)
    end.
Proof.
  unfold engine_buffers.
  destruct (classify_pass H T hstart label) as [Nout keep] eqn:E.
  assert (Nout = (classify_pass H T hstart label).1) as -> by (by rewrite E).
  unfold fill_pass. rewrite fill_pass_fcol, col_threads_length.
  unfold alloc. cbn [fst].
  unfold np_empty. destruct t, c; by rewrite length_replicate, engine_totals.
Qed.

(** Columns that get the same values from two fill loops are equal. *)
Lemma engine_fcol_ext (gal' : nat -> galaxy) (t : tracer) (c : column) :
  (forall i, col_of c (gal i) = col_of c (gal' i)) ->
  (engine_buffers H T hstart label gal).1 t c
  = (engine_buffers H T hstart label gal').1 t c.
Proof.
  intros Hv. unfold engine_buffers.
  destruct (classify_pass H T hstart label) as [Nout keep].
  unfold fill_pass. rewrite !fill_pass_fcol.
  by apply col_threads_ext.
Qed.

Lemma engine_icol_ext (gal' : nat -> galaxy) (t : tracer) :
  (forall i, g_id (gal i) = g_id (gal' i)) ->
  (engine_buffers H T hstart label gal).2 t
  = (engine_buffers H T hstart label gal').2 t.
Proof.
  intros Hv. unfold engine_buffers.
  destruct (classify_pass H T hstart label) as [Nout keep].
  unfold fill_pass. rewrite !fill_pass_icol.
  by apply col_threads_ext.
Qed.

(** The assertion the source leaves commented out at the end of a
    thread's fill loop, [j == gstart[tid + 1]]. *)
Lemma fill_cursor (B : (tracer -> column -> list (option float64)) * (tracer -> list (option Z)))
    (tid : nat) (t : tracer) :
  pre T = seq 0 H ->
  tid < T ->
  let st := classify_pass H T hstart label in
  (foldl (fill_step gal st.2) (B, fun t => gstart_of st.1 t !!! tid) (idx tid)).2 t
  = gstart_of st.1 t !!! S tid.
Proof.
  intros Htile Htid st.
  pose proof (f_equal snd (fill_thread_fcol gal st.2 (idx tid)
    (B, fun t => gstart_of st.1 t !!! tid) t Cx)) as Hp.
  cbn [fst snd] in Hp. rewrite Hp. unfold st.
  rewrite (col_run label) ; cycle 1.
  { intros i Hi. apply (tiled_keep_lookup H T hstart label Htile).
    apply (pre_sub H T hstart Htile (S tid)); [lia|].
    rewrite bind_seq_S. apply elem_of_app. by right. }
  cbn [snd]. rewrite !gstart_lookup by lia.
  by rewrite bind_seq_S, count_in_app.
Qed.

End EngineMore.

Lemma runtime_ok_tiling (R : runtime) (n : nat) :
  runtime_ok R n ->
  seq 0 (rt_num_threads R)
    ≫= thread_range (hstart_of (rt_linspace R 0 (Z.of_nat n) (rt_num_threads R + 1)))
  = seq 0 n.
Proof. intros [HT Hok]. by apply hstart_tiling. Qed.

Lemma classify_not_ELG (r mL mQ : float64) : classify r mL mL mQ <> Some ELG.
Proof. unfold classify. by destruct (r <=? mL)%f64, (r <=? mQ)%f64. Qed.

Lemma classify_not_QSO (r mL mE : float64) : classify r mL mE mE <> Some QSO.
Proof. unfold classify. by destruct (r <=? mL)%f64, (r <=? mE)%f64. Qed.

(** * The central generator, continued *)

Section CentMore.

Variable R : runtime.
Variables pos vel : list (list float64).
Variable mass : list float64.
Variable ids : list Z.
Variables multis randoms vdev deltac fenv : list float64.
Variables LRG_design_array ELG_design_array QSO_design_array : list float64.
Variables ic alpha_c Ac Bc : float64.
Variables inv_velz2kms lbox : float64.

Local Abbreviation H := (length mass).
Local Abbreviation T := (rt_num_threads R).
Local Abbreviation label wL wE wQ :=
  (cent_label R mass multis randoms deltac fenv LRG_design_array ELG_design_array
     QSO_design_array ic Ac Bc wL wE wQ).
Local Abbreviation gal rsd :=
  (cent_galaxy pos vel mass ids vdev alpha_c rsd inv_velz2kms lbox).
Local Abbreviation out rsd wL wE wQ :=
  (gen_cent R pos vel mass ids multis randoms vdev deltac fenv LRG_design_array
     ELG_design_array QSO_design_array ic alpha_c Ac Bc rsd inv_velz2kms lbox
     wL wE wQ).

Lemma cent_label_not_ELG wL wQ (i : nat) : label wL false wQ i <> Some ELG.
Proof. rewrite cent_label_classify. unfold cent_markers. cbn. apply classify_not_ELG. Qed.

Lemma cent_label_not_QSO wL wE (i : nat) : label wL wE false i <> Some QSO.
Proof. rewrite cent_label_classify. unfold cent_markers. cbn. apply classify_not_QSO. Qed.

(** [X5].  A tracer that is not requested.  With [want_ELG] off no halo is
    labelled ELG and the eight ELG columns are empty; with [want_QSO] off
    no halo is labelled QSO and the QSO columns are empty, except [mass],
    which has one uninitialised cell for each kept LRG.  With [want_LRG]
    off the LRG marker is 0 and a halo still goes to the LRG catalogue when
    its draw is not above 0. *)
Theorem gen_cent_unrequested (rsd wL wE wQ : bool) :
  (forall i, label wL false wQ i <> Some ELG) /\
  (forall k fld, field_of_key k = Some fld ->
     dict_of (out rsd wL false wQ) ELG !! k = Some []) /\
  (forall i, label wL wE false i <> Some QSO) /\
  (forall k fld, field_of_key k = Some fld -> k <> "mass" ->
     dict_of (out rsd wL wE false) QSO !! k = Some []) /\
  (exists n, dict_of (out rsd wL wE false) QSO !! "mass" = Some (replicate n None) /\
             (runtime_ok R H -> n = length (kept (label wL wE false) LRG H))) /\
  (forall i, label false wE wQ i = Some LRG <-> (randoms !!! i <=? F64.zero)%f64 = true).
Proof.
  split; [apply cent_label_not_ELG|]. split.
  { intros k fld Hk. unfold gen_cent.
    rewrite (engine_dict_untouched _ _ _ _ _ ELG k fld) by (done || apply cent_label_not_ELG).
    rewrite decide_False; [done|]. by intros [? _]. }
  split; [apply cent_label_not_QSO|]. split.
  { intros k fld Hk Hne. unfold gen_cent.
    rewrite (engine_dict_untouched _ _ _ _ _ QSO k fld) by (done || apply cent_label_not_QSO).
    rewrite decide_False; [done|]. by intros [_ ?]. }
  split.
  { eexists. split.
    - unfold gen_cent.
      rewrite (engine_dict_untouched _ _ _ _ _ QSO "mass" g_mass)
        by (done || apply cent_label_not_QSO).
      rewrite decide_True by done. reflexivity.
    - intros Hok. unfold cent_hstart. by rewrite (runtime_ok_tiling R H Hok). }
  intros i. rewrite cent_label_classify. unfold cent_markers. cbn [fst].
  apply classify_LRG.
Qed.

(** [X7].  RSD moves galaxies along z only: the two runs of [gen_cent] that
    differ in [rsd] alone agree on every column but [z], which has the same
    length in both. *)
Theorem gen_cent_rsd_only_z (wL wE wQ : bool) (t : tracer) (k : string) :
  k <> "z" ->
  dict_of (out true wL wE wQ) t !! k = dict_of (out false wL wE wQ) t !! k /\
  dict_len (dict_of (out true wL wE wQ) t) "z"
  = dict_len (dict_of (out false wL wE wQ) t) "z".
Proof.
  intros Hk. unfold gen_cent. rewrite !dict_of_run_engine. split.
  - apply make_dict_lookup_ext; [|by apply engine_icol_ext|done].
    intros c Hc. apply engine_fcol_ext. intros i. by destruct c.
  - rewrite !(proj1 (proj2 (dict_len_column _ _))). by rewrite !engine_fcol_length.
Qed.


(** [X2].  The QSO [mass] column of [gen_cent] for any input: it has one cell
    for each kept LRG halo; the masses of the kept QSO halos fill it from
    the front, those beyond the last cell are dropped, and the cells left
    over when more LRG than QSO halos were kept are never written. *)
Theorem gen_cent_qso_mass_column (rsd wL wE wQ : bool) :
  runtime_ok R H ->
  dict_of (out rsd wL wE wQ) QSO !! "mass"
  = Some (qso_mass_cells (label wL wE wQ) (fun i => mass !!! i) H).
Proof.
  intros Hok. unfold gen_cent, cent_hstart.
  by rewrite engine_qso_mass by (by apply runtime_ok_tiling).
Qed.

End CentMore.


(** * The satellite generator, continued *)

Section SatMore.

Variable R : runtime.
Variables ppos pvel hvel : list (list float64).
Variable hmass : list float64.
Variable hid : list Z.
Variables weights randoms hdeltac hfenv : list float64.
Variables LRG_design_array LRG_decorations_array : list float64.
Variables ELG_design_array QSO_design_array : list float64.
Variables inv_velz2kms lbox : float64.

Local Abbreviation H := (length hmass).
Local Abbreviation T := (rt_num_threads R).
Local Abbreviation label er ranks ranksv ranksp ranksr d wL wE wQ :=
  (sat_label R hmass weights randoms hdeltac hfenv er ranks ranksv ranksp
     ranksr LRG_design_array d ELG_design_array QSO_design_array wL wE wQ).
Local Abbreviation gal rsd :=
  (sat_galaxy ppos pvel hvel hmass hid LRG_decorations_array rsd inv_velz2kms lbox).
Local Abbreviation out er ranks ranksv ranksp ranksr d rsd wL wE wQ :=
  (gen_sats R ppos pvel hvel hmass hid weights randoms hdeltac hfenv er
     ranks ranksv ranksp ranksr LRG_design_array d ELG_design_array QSO_design_array
     rsd inv_velz2kms lbox wL wE wQ).

Section Ranked.

Variable enable_ranks : bool.
Variables ranks ranksv ranksp ranksr : list float64.

Local Abbreviation lab wL wE wQ :=
  (label enable_ranks ranks ranksv ranksp ranksr LRG_decorations_array wL wE wQ).
Local Abbreviation res rsd wL wE wQ :=
  (out enable_ranks ranks ranksv ranksp ranksr LRG_decorations_array rsd wL wE wQ).


Lemma sat_label_not_ELG wL wQ (i : nat) : lab wL false wQ i <> Some ELG.
Proof. rewrite sat_label_classify. unfold sat_markers. cbn. apply classify_not_ELG. Qed.

Lemma sat_label_not_QSO wL wE (i : nat) : lab wL wE false i <> Some QSO.
Proof. rewrite sat_label_classify. unfold sat_markers. cbn. apply classify_not_QSO. Qed.

(** [X6].  A tracer that is not requested gets no satellite: the ELG columns
    are empty with [want_ELG] off and the QSO columns with [want_QSO] off,
    except the QSO [mass] column, made of uninitialised cells.  With
    [want_LRG] off a particle is still labelled LRG when its draw is not
    above 0. *)
Theorem gen_sats_unrequested (rsd wL wE wQ : bool) :
  (forall i, lab wL false wQ i <> Some ELG) /\
  (forall k fld, field_of_key k = Some fld ->
     dict_of (res rsd wL false wQ) ELG !! k = Some []) /\
  (forall i, lab wL wE false i <> Some QSO) /\
  (forall k fld, field_of_key k = Some fld -> k <> "mass" ->
     dict_of (res rsd wL wE false) QSO !! k = Some []) /\
  (exists n, dict_of (res rsd wL wE false) QSO !! "mass" = Some (replicate n None) /\
             (runtime_ok R H -> n = length (kept (lab wL wE false) LRG H))) /\
  (forall i, lab false wE wQ i = Some LRG <-> (randoms !!! i <=? F64.zero)%f64 = true).
Proof.
  split; [apply sat_label_not_ELG|]. split.
  { intros k fld Hk. unfold gen_sats.
    rewrite (engine_dict_untouched _ _ _ _ _ ELG k fld) by (done || apply sat_label_not_ELG).
    rewrite decide_False; [done|]. by intros [? _]. }
  split; [apply sat_label_not_QSO|]. split.
  { intros k fld Hk Hne. unfold gen_sats.
    rewrite (engine_dict_untouched _ _ _ _ _ QSO k fld) by (done || apply sat_label_not_QSO).
    rewrite decide_False; [done|]. by intros [_ ?]. }
  split.
  { eexists. split.
    - unfold gen_sats.
      rewrite (engine_dict_untouched _ _ _ _ _ QSO "mass" g_mass)
        by (done || apply sat_label_not_QSO).
      rewrite decide_True by done. reflexivity.
    - intros Hok. unfold sat_hstart. by rewrite (runtime_ok_tiling R H Hok). }
  intros i. rewrite sat_label_classify. unfold sat_markers. cbn [fst].
  apply classify_LRG.
Qed.

(** [X8].  RSD moves satellites along z only. *)
Theorem gen_sats_rsd_only_z (wL wE wQ : bool) (t : tracer) (k : string) :
  k <> "z" ->
  dict_of (res true wL wE wQ) t !! k = dict_of (res false wL wE wQ) t !! k /\
  dict_len (dict_of (res true wL wE wQ) t) "z"
  = dict_len (dict_of (res false wL wE wQ) t) "z".
Proof.
  intros Hk. unfold gen_sats. rewrite !dict_of_run_engine. split.
  - apply make_dict_lookup_ext; [|by apply engine_icol_ext|done].
    intros c Hc. apply engine_fcol_ext. intros i. by destruct c.
  - rewrite !(proj1 (proj2 (dict_len_column _ _))). by rewrite !engine_fcol_length.
Qed.

End Ranked.

(** [X9].  With [enable_ranks] off, the four rank arrays and the four rank
    parameters [s], [s_v], [s_p], [s_r] (slots 2 to 5 of the decoration
    vector) are not read: two calls that differ in them alone return the
    same dictionaries. *)
Theorem gen_sats_ranks_off (ranks ranksv ranksp ranksr ranks' ranksv' ranksp' ranksr' : list float64)
    (d d' : list float64) (rsd wL wE wQ : bool) :
  (forall k, k = 1 \/ 6 <= k -> d !! k = d' !! k) ->
  out false ranks ranksv ranksp ranksr d rsd wL wE wQ
  = out false ranks' ranksv' ranksp' ranksr' d' rsd wL wE wQ.
Proof.
  intros Hd.
  assert (forall k, k = 1 \/ 6 <= k -> d !!! k = d' !!! k) as Ht
    by (intros k Hk; by rewrite !list_lookup_total_alt, Hd).
  unfold gen_sats, sat_label, sat_markers, sat_contrib_LRG, sat_galaxy.
  rewrite !(Ht 1), !(Ht 6), !(Ht 7), !(Ht 8), !(Ht 9), !(Ht 10) by lia.
  reflexivity.
Qed.

End SatMore.


(** * The orchestrator, continued *)

Lemma dict_get_insert_ne (d : gmap string pyval) (k k' : string) (v : pyval) :
  k <> k' -> dict_get (<[k := v]> d) k' = dict_get d k'.
Proof. intros Hne. unfold dict_get. by rewrite lookup_insert_ne. Qed.

Lemma np_array_of_insert (d : gmap string pyval) (keys : list string) (k : string) (v : pyval) :
  k ∉ keys -> np_array_of (<[k := v]> d) keys = np_array_of d keys.
Proof.
  intros Hk. unfold np_array_of. apply list_fmap_ext. intros i k' Hi.
  apply dict_get_insert_ne. intros ->. apply Hk. by eapply list_elem_of_lookup_2.
Qed.

Section OrchestratorMore.

Variable R : runtime.
Variable halos_array : halo_arrays.
Variable subsample : particle_arrays.
Variable params : sim_params.
Variables enable_ranks rsd want_LRG want_ELG want_QSO : bool.

Local Abbreviation run L E Q :=
  (gen_gals R halos_array subsample L E Q params enable_ranks rsd
     want_LRG want_ELG want_QSO).

(** [X10].  [gen_gals] reads the three dictionaries at the names it lists and
    nowhere else: an entry under another name changes nothing.  ['alpha_s']
    is such a name: the satellites' velocity bias is not read from it; the
    slot the kernels call [alpha_s] holds the value of ['alpha_c']. *)
Theorem gen_gals_reads_listed_names (LRG_HOD ELG_HOD QSO_HOD : gmap string pyval) :
  (forall k v, k ∉ LRG_design_keys ++ LRG_decorations_keys ->
     run (<[k := v]> LRG_HOD) ELG_HOD QSO_HOD = run LRG_HOD ELG_HOD QSO_HOD) /\
  (forall k v, k ∉ ELG_design_keys ->
     run LRG_HOD (<[k := v]> ELG_HOD) QSO_HOD = run LRG_HOD ELG_HOD QSO_HOD) /\
  (forall k v, k ∉ QSO_design_keys ->
     run LRG_HOD ELG_HOD (<[k := v]> QSO_HOD) = run LRG_HOD ELG_HOD QSO_HOD) /\
  (forall v, run (<["alpha_s" := v]> LRG_HOD) ELG_HOD QSO_HOD
             = run LRG_HOD ELG_HOD QSO_HOD) /\
  np_array_of LRG_HOD LRG_decorations_keys !! 1 = Some (dict_get LRG_HOD "alpha_c").
Proof.
  assert (forall k v, k ∉ LRG_design_keys ++ LRG_decorations_keys ->
     run (<[k := v]> LRG_HOD) ELG_HOD QSO_HOD = run LRG_HOD ELG_HOD QSO_HOD) as HL.
  { intros k v Hk. unfold gen_gals.
    rewrite !np_array_of_insert by (intros Hin; apply Hk, elem_of_app; auto).
    rewrite !dict_get_insert_ne; [done|..]; intros ->; apply Hk;
      unfold LRG_design_keys, LRG_decorations_keys; set_solver. }
  split; [exact HL|]. split; [|split; [|split]].
  - intros k v Hk. unfold gen_gals. by rewrite !np_array_of_insert.
  - intros k v Hk. unfold gen_gals. by rewrite !np_array_of_insert.
  - intros v. apply HL. unfold LRG_design_keys, LRG_decorations_keys.
    rewrite !elem_of_app, !elem_of_cons, elem_of_nil. intros Hin.
    repeat destruct Hin as [Hin|Hin]; try discriminate Hin; try done.
  - reflexivity.
Qed.

End OrchestratorMore.

(** The lengths of the [mass] columns of a run. *)
Lemma run_engine_mass_lengths H T hs label gal :
  let out := run_engine H T hs label gal in
  dict_len out.1.1 "mass" + dict_len out.1.2 "mass" + dict_len out.2 "mass"
  = 2 * dict_len out.1.1 "x" + dict_len out.1.2 "x".
Proof.
  cbv zeta. unfold run_engine. cbn [fst snd].
  rewrite !(proj1 (dict_len_column _ _)), !(proj2 (proj2 (dict_len_column _ _))).
  rewrite !engine_fcol_length. lia.
Qed.

(** [X11].  The number of centrals [gen_gals] prints is the sum of the lengths of
    the three [mass] columns.  The QSO one is as long as the LRG one, so
    the line counts every LRG central twice and no QSO central: it shows
    [2 * N_lrg + N_elg] where the catalogues hold
    [N_lrg + N_elg + N_qso] centrals. *)
Theorem gen_gals_prints_lrg_twice (R : runtime) (halos_array : halo_arrays)
    (subsample : particle_arrays) (LRG_HOD ELG_HOD QSO_HOD : gmap string pyval)
    (params : sim_params) (enable_ranks rsd want_LRG want_ELG want_QSO : bool)
    (printed : list event) (cent sats : catalogs) :
  gen_gals R halos_array subsample LRG_HOD ELG_HOD QSO_HOD params
    enable_ranks rsd want_LRG want_ELG want_QSO = (printed, inr (cent, sats)) ->
  printed
  = [PrintCentrals (2 * dict_len (dict_of cent LRG) "x" + dict_len (dict_of cent ELG) "x");
     PrintSatellites].
Proof.
  unfold gen_gals. intros Hr.
  destruct (F64.is_zero (velz2kms params)); [discriminate|].
  repeat match type of Hr with
  | match ?x with _ => _ end = _ => destruct x; try discriminate
  end.
  injection Hr as <- <- <-. unfold gen_cent, dict_of.
  do 2 f_equal. apply run_engine_mass_lengths.
Qed.


(** ** Empty input *)

Lemma run_engine_empty T hs label gal (t : tracer) (k : string) fld :
  seq 0 T ≫= thread_range hs = seq 0 0 ->
  field_of_key k = Some fld ->
  dict_of (run_engine 0 T hs label gal) t !! k = Some [].
Proof.
  intros Htile Hk.
  destruct (decide (t = QSO /\ k = "mass")) as [[-> ->]|Hne].
  - by rewrite engine_qso_mass.
  - by rewrite (engine_column 0 T hs label gal t k fld).
Qed.

(** [X12].  With no halo and no particle, every column of the six dictionaries
    is an empty array, the QSO [mass] columns included. *)
Theorem generators_on_empty_input (R : runtime) :
  runtime_ok R 0 ->
  (forall pos vel ids multis randoms vdev deltac fenv Ld Ed Qd ic alpha_c Ac Bc rsd
          inv_velz2kms lbox wL wE wQ t k fld,
     field_of_key k = Some fld ->
     dict_of (gen_cent R pos vel [] ids multis randoms vdev deltac fenv Ld Ed Qd
                ic alpha_c Ac Bc rsd inv_velz2kms lbox wL wE wQ) t !! k = Some []) /\
  (forall ppos pvel hvel hid weights randoms hdeltac hfenv er ranks ranksv ranksp ranksr
          Ld Dd Ed Qd rsd inv_velz2kms lbox wL wE wQ t k fld,
     field_of_key k = Some fld ->
     dict_of (gen_sats R ppos pvel hvel [] hid weights randoms hdeltac hfenv er
                ranks ranksv ranksp ranksr Ld Dd Ed Qd rsd inv_velz2kms lbox
                wL wE wQ) t !! k = Some []).
Proof.
  intros Hok. pose proof (runtime_ok_tiling R 0 Hok) as Htile. split; intros.
  - unfold gen_cent. by eapply run_engine_empty.
  - unfold gen_sats. by eapply run_engine_empty.
Qed.

Lemma generators_on_empty_input_witness :
  dict_of (gen_cent (rt_ref 2) [] [] [] [] [] [] [] [] [] ex_LRG_design ex_ELG_design
             ex_QSO_design (of_Z 1) (of_Z 0) (of_Z 0) (of_Z 0) true (of_Z 1) (of_Z 32)
             true true true) QSO !! "mass" = Some [].
Proof.
  refine (proj1 (generators_on_empty_input (rt_ref 2) _) _ _ _ _ _ _ _ _ _ _ _ _ _ _ _ _ _
            _ _ _ _ _ _ g_mass _).
  - split; [simpl; lia | vm_compute; reflexivity].
  - reflexivity.
Defined.

(** ** The cursor at the end of a thread's fill loop *)

(** [X3].  The assertion the source leaves commented out after the inner fill
    loop, [assert j == gstart[tid + 1]], holds for each of the three
    cursors [j1, j2, j3] of every thread: a thread's cursor stops where the
    next thread's starts.  The two generators run this loop at their own
    labels and values. *)
Theorem fill_cursor_reaches_gstart (R : runtime) (n : nat)
    (label : nat -> option tracer) (gal : nat -> galaxy)
    (B : (tracer -> column -> list (option float64)) * (tracer -> list (option Z)))
    (tid : nat) (t : tracer) :
  runtime_ok R n ->
  tid < rt_num_threads R ->
  let hstart := hstart_of (rt_linspace R 0 (Z.of_nat n) (rt_num_threads R + 1)) in
  let st := classify_pass n (rt_num_threads R) hstart label in
  let gstart := gstart_of st.1 in
  (foldl (fill_step gal st.2) (B, fun t => gstart t !!! tid) (thread_range hstart tid)).2 t
  = gstart t !!! S tid.
Proof.
  intros Hok Htid. cbv zeta. apply fill_cursor; [|done]. by apply runtime_ok_tiling.
Qed.

Lemma fill_cursor_reaches_gstart_witness :
  let label := cent_label (rt_ref 2) (hmass ex_halos) (hmultis ex_halos)
                 (hrandoms ex_halos) (hdeltac ex_halos) (hfenv ex_halos)
                 ex_LRG_design ex_ELG_design ex_QSO_design (of_Z 1) (of_Z 0) (of_Z 0)
                 true true true in
  let gal := cent_galaxy (hpos ex_halos) (hvel ex_halos) (hmass ex_halos) (hid ex_halos)
               (hveldev ex_halos) (of_Z 0) false (of_Z 1) (of_Z 32) in
  let hstart := hstart_of (linspace_exact 0 5 3) in
  let st := classify_pass 5 2 hstart label in
  (foldl (fill_step gal st.2) (alloc (fun _ => 5), fun t => gstart_of st.1 t !!! 0)
     (thread_range hstart 0)).2 LRG
  = gstart_of st.1 LRG !!! 1.
Proof.
  cbv zeta.
  refine (fill_cursor_reaches_gstart (rt_ref 2) 5 _ _ _ 0 LRG _ _).
  - split; [simpl; lia | vm_compute; reflexivity].
  - simpl. lia.
Defined.

(** ** Worked instances *)


Lemma gen_cent_rsd_only_z_witness :
  dict_of (gen_cent (rt_ref 2) (hpos ex_halos) (hvel ex_halos) (hmass ex_halos)
             (hid ex_halos) (hmultis ex_halos) (hrandoms ex_halos) (hveldev ex_halos)
             (hdeltac ex_halos) (hfenv ex_halos) ex_LRG_design ex_ELG_design
             ex_QSO_design (of_Z 1) (of_Z 0) (of_Z 0) (of_Z 0) true (of_Z 1) (of_Z 32)
             true true true) LRG !! "vz"
  = dict_of (ex_gen_cent ex_halos (of_Z 1) true true true) LRG !! "vz".
Proof.
  unfold ex_gen_cent.
  refine (proj1 (gen_cent_rsd_only_z (rt_ref 2) (hpos ex_halos) (hvel ex_halos)
    (hmass ex_halos) (hid ex_halos) (hmultis ex_halos) (hrandoms ex_halos)
    (hveldev ex_halos) (hdeltac ex_halos) (hfenv ex_halos)
    ex_LRG_design ex_ELG_design ex_QSO_design (of_Z 1) (of_Z 0) (of_Z 0) (of_Z 0)
    (of_Z 1) (of_Z 32) true true true LRG "vz" _)).
  discriminate.
Defined.

Lemma gen_sats_rsd_only_z_witness :
  dict_of (gen_sats (rt_ref 2) (ppos ex_particles) (pvel ex_particles)
             (phvel ex_particles) (phmass ex_particles) (phid ex_particles)
             (pweights ex_particles) (prandoms ex_particles) (pdeltac ex_particles)
             (pfenv ex_particles) true (pranks ex_particles) (pranksv ex_particles)
             (pranksp ex_particles) (pranksr ex_particles) ex_LRG_design
             (ex_decorations (of_Z 0)) ex_ELG_design ex_QSO_design
             true (of_Z 1) (of_Z 32) true false false) LRG !! "vz"
  = dict_of (ex_gen_sats ex_particles (ex_decorations (of_Z 0)) true) LRG !! "vz".
Proof.
  unfold ex_gen_sats.
  refine (proj1 (gen_sats_rsd_only_z (rt_ref 2) (ppos ex_particles) (pvel ex_particles)
    (phvel ex_particles) (phmass ex_particles) (phid ex_particles)
    (pweights ex_particles) (prandoms ex_particles) (pdeltac ex_particles)
    (pfenv ex_particles) ex_LRG_design (ex_decorations (of_Z 0)) ex_ELG_design
    ex_QSO_design (of_Z 1) (of_Z 32) true (pranks ex_particles) (pranksv ex_particles)
    (pranksp ex_particles) (pranksr ex_particles) true false false LRG "vz" _)).
  discriminate.
Defined.

Lemma gen_sats_ranks_off_witness :
  gen_sats (rt_ref 2) (ppos ex_particles) (pvel ex_particles)
    (phvel ex_particles) (phmass ex_particles) (phid ex_particles)
    (pweights ex_particles) (prandoms ex_particles) (pdeltac ex_particles)
    (pfenv ex_particles) false [] [] [] [] ex_LRG_design
    [of_Z 0; of_Z 1; of_Z 9; of_Z 9; of_Z 9; of_Z 9; of_Z 0; of_Z 0; of_Z 0; of_Z 0; of_Z 1]
    ex_ELG_design ex_QSO_design false (of_Z 1) (of_Z 32) true false false
  = ex_gen_sats ex_particles (ex_decorations (of_Z 0)) false.
Proof.
  unfold ex_gen_sats. apply gen_sats_ranks_off.
  intros k [->|Hk]; [reflexivity|].
  do 6 (destruct k as [|k]; [lia|]). reflexivity.
Defined.

Lemma gen_gals_prints_lrg_twice_witness :
  (ex_gen_gals ex_LRG_HOD).1 = [PrintCentrals 4; PrintSatellites].
Proof.
  assert (match (ex_gen_gals ex_LRG_HOD).2 with
          | inr (c, _) => Some (dict_len (dict_of c LRG) "x", dict_len (dict_of c ELG) "x")
          | inl _ => None
          end = Some (2, 0)) as Hn by (vm_compute; reflexivity).
  destruct (ex_gen_gals ex_LRG_HOD) as [printed [raised|[cent sats]]] eqn:E.
  - discriminate Hn.
  - unfold ex_gen_gals in E. cbn [snd] in Hn. cbn [fst].
    rewrite (gen_gals_prints_lrg_twice _ _ _ _ _ _ _ _ _ _ _ _ _ _ _ E).
    injection Hn as Hl He. unfold dict_of. cbn [fst snd] in Hl, He. by rewrite Hl, He.
Defined.


Lemma gen_cent_qso_mass_column_witness :
  dict_of (ex_gen_cent ex_halos (of_Z 1) true true true) QSO !! "mass"
  = Some [Some (of_Z (10 ^ 13)); None].
Proof.
  unfold ex_gen_cent. rewrite gen_cent_qso_mass_column.
  - vm_compute. reflexivity.
  - split; [simpl; lia | vm_compute; reflexivity].
Defined.

(** ** Wrapping twice *)



(** * Integers in binary64 *)

Lemma digits2_pos_lower (p : positive) :
  (2 ^ (Z.pos (digits2_pos p) - 1) <= Z.pos p)%Z.
Proof.
  induction p as [p IH|p IH|]; cbn [digits2_pos]; [| |done].
  - rewrite Pos2Z.inj_succ. replace (Z.succ (Z.pos (digits2_pos p)) - 1)%Z
      with (Z.succ (Z.pos (digits2_pos p) - 1)) by lia.
    rewrite Z.pow_succ_r by lia. lia.
  - rewrite Pos2Z.inj_succ. replace (Z.succ (Z.pos (digits2_pos p)) - 1)%Z
      with (Z.succ (Z.pos (digits2_pos p) - 1)) by lia.
    rewrite Z.pow_succ_r by lia. lia.
Qed.

Lemma digits2_pos_le_53 (p : positive) :
  (Z.pos p < 2 ^ 53)%Z -> (Z.pos (digits2_pos p) <= 53)%Z.
Proof.
  intros Hp. destruct (Z_le_gt_dec (Z.pos (digits2_pos p)) 53) as [|Hgt]; [done|].
  pose proof (digits2_pos_lower p) as Hl.
  assert (2 ^ 53 <= 2 ^ (Z.pos (digits2_pos p) - 1))%Z by (apply Z.pow_le_mono_r; lia).
  lia.
Qed.

Lemma digits2_pos_shift (p q : positive) :
  digits2_pos (Pos.iter xO p q) = (digits2_pos p + q)%positive.
Proof.
  rewrite (Pos.iter_swap_gen _ _ digits2_pos xO Pos.succ) by reflexivity.
  induction q as [|q IH] using Pos.peano_ind.
  - cbn. lia.
  - rewrite Pos.iter_succ, IH. lia.
Qed.

(** A mantissa of 53 digits with an exponent between -52 and 0 is left
    as it is by the rounding to binary64. *)
Lemma binary_round_aux_53 (s : bool) (m : positive) (e : Z) :
  digits2_pos m = 53%positive -> (-52 <= e <= 0)%Z ->
  binary_round_aux F64.prec F64.emax s (Z.pos m) e loc_Exact = S754_finite s m e.
Proof.
  intros Hd He.
  assert (shr_fexp F64.prec F64.emax (Z.pos m) e loc_Exact
          = ({| shr_m := Z.pos m; shr_r := false; shr_s := false |}, e)) as Hshr.
  { unfold shr_fexp, shr, fexp, emin, F64.prec, F64.emax. cbn [Zdigits2]. rewrite Hd.
    replace (Z.max (53 + e - 53) (3 - 1024 - 53) - e)%Z with 0%Z by lia. done. }
  unfold binary_round_aux. rewrite Hshr.
  cbn [shr_m loc_of_shr_record round_nearest_even]. rewrite Hshr. cbn [shr_m].
  unfold F64.prec, F64.emax.
  destruct (Z.leb_spec e (1024 - 53)); [done|lia].
Qed.

(** The binary64 of a non-zero integer below [2^53] in magnitude: the
    integer shifted to 53 digits, with the exponent that undoes the
    shift. *)
Lemma binary_round_small (s : bool) (p : positive) :
  (Z.pos p < 2 ^ 53)%Z ->
  exists (m : positive) (k : Z),
    (0 <= k <= 52)%Z /\ (Z.pos m = Z.pos p * 2 ^ k)%Z /\
    binary_round F64.prec F64.emax s p 0 = S754_finite s m (- k).
Proof.
  intros Hp. pose proof (digits2_pos_le_53 p Hp) as Hd.
  unfold binary_round, shl_align, fexp, emin, F64.prec, F64.emax.
  replace (Z.max (Z.pos (digits2_pos p) + 0 - 53) (3 - 1024 - 53) - 0)%Z
    with (Z.pos (digits2_pos p) - 53)%Z by lia.
  replace (Z.max (Z.pos (digits2_pos p) + 0 - 53) (3 - 1024 - 53))%Z
    with (Z.pos (digits2_pos p) - 53)%Z by lia.
  destruct (Z.pos (digits2_pos p) - 53)%Z as [|q|q] eqn:E; [|lia|].
  - exists p, 0%Z. split; [lia|]. split; [lia|].
    apply (binary_round_aux_53 s p 0); [|lia].
    apply Pos2Z.inj. lia.
  - exists (Pos.iter xO p q), (Z.pos q). split; [lia|]. split.
    + change (Pos.iter xO p q) with (shift_pos q p).
      rewrite shift_pos_correct, Z.pow_pos_fold. lia.
    + change (- Z.pos q)%Z with (Z.neg q).
      apply (binary_round_aux_53 s (Pos.iter xO p q) (Z.neg q)); [|lia].
      rewrite digits2_pos_shift. apply Pos2Z.inj. rewrite Pos2Z.inj_add. lia.
Qed.

Lemma int_of_float_of_Z (z : Z) :
  (Z.abs z < 2 ^ 53)%Z -> int_of_float (F64.of_Z z) = Some z.
Proof.
  intros Hz. unfold F64.of_Z, binary_normalize.
  destruct z as [|p|p]; [done| |].
  - destruct (binary_round_small false p) as (m & k & Hk & Hm & ->); [lia|].
    unfold int_of_float. f_equal.
    destruct k as [|q|q]; [|change (- Z.pos q)%Z with (Z.neg q); cbv beta iota|lia].
    { change (- 0)%Z with 0%Z. cbv beta iota. rewrite Z.pow_0_r in Hm. lia. }
    rewrite Z.pow_pos_fold, Hm. by rewrite Z.div_mul by lia.
  - destruct (binary_round_small true p) as (m & k & Hk & Hm & ->); [lia|].
    unfold int_of_float. f_equal.
    destruct k as [|q|q]; [|change (- Z.pos q)%Z with (Z.neg q); cbv beta iota|lia].
    { change (- 0)%Z with 0%Z. cbv beta iota. rewrite Z.pow_0_r in Hm. lia. }
    rewrite Z.pow_pos_fold, Hm. rewrite Z.div_mul by lia. lia.
Qed.

(** [X14].  The [id] column comes back.  A column of ids below [2^53] in
    magnitude converted by [astype(np.float64)] gives every id back under
    [int]; so two such columns with the same floats are the same.  From
    [2^53] on the conversion rounds: [2^53 + 1] becomes the float of
    [2^53]. *)
Theorem id_astype_round_trip (b : list (option Z)) :
  Forall (fun c => match c with Some z => (Z.abs z < 2 ^ 53)%Z | None => True end) b ->
  (fun c : option float64 => c ≫= int_of_float) <$> id_astype b = b /\
  id_astype [Some (2 ^ 53 + 1)%Z] = id_astype [Some (2 ^ 53)%Z].
Proof.
  intros Hb. split; [|by vm_compute].
  unfold id_astype. rewrite <- list_fmap_compose.
  rewrite <- (list_fmap_id b) at 2. apply Forall_fmap_ext_1.
  eapply Forall_impl; [exact Hb|]. intros [z|] Hz; [|done].
  cbn. by apply int_of_float_of_Z.
Qed.

Lemma id_astype_round_trip_witness :
  (fun c : option float64 => c ≫= int_of_float) <$> id_astype [Some 100%Z; None; Some (-7)%Z]
  = [Some 100%Z; None; Some (-7)%Z].
Proof.
  refine (proj1 (id_astype_round_trip [Some 100%Z; None; Some (-7)%Z] _)).
  repeat constructor; simpl; lia.
Defined.

(** * Output paths of [load_chunk] *)

Lemma string_app_cons (a : Ascii.ascii) (s t : string) :
  String a s +:+ t = String a (s +:+ t).
Proof. reflexivity. Qed.

Lemma string_app_assoc (s1 s2 s3 : string) : (s1 +:+ s2) +:+ s3 = s1 +:+ (s2 +:+ s3).
Proof. induction s1 as [|a s1 IH]; [done|]. rewrite !string_app_cons. by f_equal. Qed.

Lemma string_length_app (s t : string) :
  String.length (s +:+ t) = String.length s + String.length t.
Proof.
  induction s as [|a s IH]; [done|]. rewrite string_app_cons. simpl. by f_equal.
Qed.

Lemma string_app_inj_r (s1 s2 t : string) : s1 +:+ t = s2 +:+ t -> s1 = s2.
Proof.
  revert s2. induction s1 as [|a s1 IH]; intros [|b s2]; intros Heq.
  - done.
  - apply (f_equal String.length) in Heq.
    rewrite !string_length_app in Heq. simpl in Heq. lia.
  - apply (f_equal String.length) in Heq.
    rewrite !string_length_app in Heq. simpl in Heq. lia.
  - rewrite !string_app_cons in Heq. injection Heq as -> Heq. f_equal. by apply IH.
Qed.

(** [X15].  The paths [load_chunk] writes to.  Within one run (one [savedir], one
    setting of the flags) two chunks never share a halo file nor a
    particle file, and no halo file is a particle file: a chunk overwrites
    only its own output.  The halo path does not depend on [want_ranks].
    For chunk 2 without flags the two names are those of the files the
    test suite compares with. *)
Theorem load_chunk_paths_distinct (savedir : string) (MT want_ranks : bool) :
  (forall i j, outfilename_halos savedir MT i = outfilename_halos savedir MT j -> i = j) /\
  (forall i j, outfilename_particles savedir MT want_ranks i
               = outfilename_particles savedir MT want_ranks j -> i = j) /\
  (forall i j, outfilename_halos savedir MT i
               <> outfilename_particles savedir MT want_ranks j) /\
  outfilename_halos "" false 2 = "/halos_xcom_2_seed600_abacushod_new.h5" /\
  outfilename_particles "" false false 2 = "/particles_xcom_2_seed600_abacushod_new.h5".
Proof.
  split; [|split; [|split; [|split; reflexivity]]].
  - intros i j. unfold outfilename_halos. cbv zeta.
    destruct MT; rewrite !string_app_assoc; intros Heq;
      apply (inj (String.append _)), (inj (String.append _)) in Heq;
      apply string_app_inj_r in Heq; by apply (inj pretty).
  - intros i j. unfold outfilename_particles. cbv zeta.
    destruct MT, want_ranks; rewrite !string_app_assoc; intros Heq;
      apply (inj (String.append _)), (inj (String.append _)) in Heq;
      apply string_app_inj_r in Heq; by apply (inj pretty).
  - intros i j. unfold outfilename_halos, outfilename_particles. cbv zeta.
    destruct MT, want_ranks; rewrite !string_app_assoc; intros Heq;
      apply (inj (String.append _)) in Heq; rewrite !string_app_cons in Heq;
      discriminate Heq.
Qed.

(** * Ranks *)

Lemma f64_sort_le_refl (x : float64) : f64_sort_le x x = true.
Proof.
  unfold f64_sort_le, F64.leb, SFleb, SFcompare.
  destruct x as [[|]| [|] | |[|] m e]; try reflexivity;
    rewrite ?Z.compare_refl, ?Pos.compare_cont_refl; try reflexivity;
    cbn; by rewrite ?Pos.compare_refl.
Qed.

Lemma StronglySorted_pairs {A} (R : relation A) (l : list A) :
  (forall a b x y, a < b -> l !! a = Some x -> l !! b = Some y -> R x y) ->
  StronglySorted R l.
Proof.
  induction l as [|x l IH]; intros Hp; constructor.
  - apply IH. intros a b y z Hab Hy Hz. by apply (Hp (S a) (S b)); [lia|..].
  - apply Forall_lookup. intros b y Hy. by apply (Hp 0 (S b)); [lia|..].
Qed.

Lemma lookup_total_fmap_seq {A} `{Inhabited A} (l : list A) :
  (fun a => l !!! a) <$> seq 0 (length l) = l.
Proof.
  apply list_eq. intros i. rewrite list_lookup_fmap.
  destruct (decide (i < length l)) as [Hi|Hi].
  - rewrite lookup_seq_lt by done. simpl.
    destruct (lookup_lt_is_Some_2 l i Hi) as [x Hx].
    by rewrite (list_lookup_total_correct _ _ _ Hx).
  - rewrite lookup_seq_ge by lia. simpl. symmetry. apply lookup_ge_None. lia.
Qed.

Section ArgsortFacts.

Context {A : Type} `{Inhabited A}.
Variable le : A -> A -> bool.
Variables (xs : list A) (p : list nat).
Hypothesis ok : argsort_ok le xs p = true.

Lemma argsort_ok_length : length p = length xs.
Proof.
  unfold argsort_ok in ok. rewrite !andb_true_iff in ok.
  destruct ok as [[Hl _] _]. by apply Nat.eqb_eq.
Qed.

Lemma argsort_ok_perm : p ≡ₚ seq 0 (length xs).
Proof.
  unfold argsort_ok in ok. rewrite !andb_true_iff in ok.
  destruct ok as [[Hl Hin] _]. apply Nat.eqb_eq in Hl. symmetry.
  apply submseteq_length_Permutation; [|by rewrite length_seq, Hl].
  apply NoDup_submseteq; [apply NoDup_seq|].
  intros i Hi. rewrite forallb_forall in Hin.
  specialize (Hin i (proj1 (list_elem_of_In _ _) Hi)).
  apply existsb_exists in Hin as (j & Hj & Hij). apply Nat.eqb_eq in Hij. subst j.
  by apply list_elem_of_In.
Qed.

Lemma argsort_ok_sorted (a b : nat) :
  a < b -> b < length p -> le (xs !!! (p !!! a)) (xs !!! (p !!! b)) = true.
Proof.
  intros Hab Hb. unfold argsort_ok in ok. rewrite !andb_true_iff in ok.
  destruct ok as [_ Hs]. unfold sorted_by in Hs. rewrite forallb_forall in Hs.
  specialize (Hs a). rewrite forallb_forall in Hs.
  apply Hs; apply in_seq; lia.
Qed.

Lemma argsort_ok_lt (a : nat) : a < length p -> p !!! a < length xs.
Proof.
  intros Ha. destruct (lookup_lt_is_Some_2 p a Ha) as [i Hi].
  rewrite (list_lookup_total_correct _ _ _ Hi).
  assert (i ∈ seq 0 (length xs)) as Hin.
  { rewrite <- argsort_ok_perm. by eapply list_elem_of_lookup_2. }
  apply elem_of_seq in Hin. lia.
Qed.

End ArgsortFacts.

Section RanksFacts.

Variable argsort_f64 : list float64 -> list nat.
Variable argsort_int : list nat -> list nat.
Variable x : list float64.

Local Abbreviation p := (argsort_f64 x).
Local Abbreviation r := (ranks_of argsort_f64 argsort_int x).

Hypothesis ok_f64 : argsort_ok f64_sort_le x p = true.
Hypothesis ok_int : argsort_ok Nat.leb p r = true.

Lemma ranks_length : length r = length x.
Proof. by rewrite (argsort_ok_length _ _ _ ok_int), (argsort_ok_length _ _ _ ok_f64). Qed.

Lemma ranks_perm : r ≡ₚ seq 0 (length x).
Proof.
  rewrite (argsort_ok_perm _ _ _ ok_int). by rewrite (argsort_ok_length _ _ _ ok_f64).
Qed.

(** The second [argsort] inverts the first. *)
Lemma ranks_inverse : (fun a => p !!! a) <$> r = seq 0 (length x).
Proof.
  apply (StronglySorted_unique le).
  - apply StronglySorted_pairs. intros a b i j Hab Hi Hj.
    apply list_lookup_fmap_Some in Hi as (ra & -> & Hra).
    apply list_lookup_fmap_Some in Hj as (rb & -> & Hrb).
    pose proof (argsort_ok_sorted _ _ _ ok_int a b Hab (lookup_lt_Some _ _ _ Hrb)) as Hs.
    rewrite (list_lookup_total_correct _ _ _ Hra),
      (list_lookup_total_correct _ _ _ Hrb) in Hs.
    by apply Nat.leb_le.
  - apply StronglySorted_pairs. intros a b i j Hab Hi Hj.
    apply lookup_seq in Hi as [-> _]. apply lookup_seq in Hj as [-> _]. lia.
  - rewrite (argsort_ok_perm _ _ _ ok_int).
    rewrite lookup_total_fmap_seq. apply (argsort_ok_perm _ _ _ ok_f64).
Qed.

Lemma ranks_inverse_lookup (i : nat) : i < length x -> p !!! (r !!! i) = i.
Proof.
  intros Hi. pose proof (f_equal (fun l => l !! i) ranks_inverse) as Hq.
  cbv beta in Hq. rewrite list_lookup_fmap, lookup_seq_lt in Hq by done.
  destruct (lookup_lt_is_Some_2 r i) as [a Ha]; [by rewrite ranks_length|].
  rewrite Ha in Hq. rewrite (list_lookup_total_correct _ _ _ Ha).
  by injection Hq.
Qed.

Lemma ranks_max : x <> [] -> np_max r = length x - 1.
Proof.
  intros Hne. unfold np_max.
  assert (0 < length x) as Hn by (destruct x; [done|simpl; lia]).
  assert (length x - 1 ∈ r) as Hin
    by (rewrite ranks_perm; apply elem_of_seq; lia).
  pose proof (max_list_elem_of_le _ _ Hin) as Hle.
  assert (max_list r ∈ r) as Hm.
  { apply max_list_elem_of. intros Hr. rewrite Hr in Hin. by apply elem_of_nil in Hin. }
  apply (elem_of_Permutation_proper _ _ _ ranks_perm) in Hm.
  apply elem_of_seq in Hm. lia.
Qed.

(** [X16].  What [x.argsort().argsort()] returns: the ranks of the values.  The
    result is a permutation of [0, ..., n - 1]; the value of index [i]
    stands at position [rank i] of the sorted order; a value that sorts
    strictly before another has the smaller rank; and the largest rank is
    [n - 1], so [np.max(new_rank)], by which the ranks are divided when a
    mass bin holds two halos or more, is at least 1 there. *)
Theorem double_argsort_ranks :
  r ≡ₚ seq 0 (length x) /\
  (forall i, i < length x -> p !! (r !!! i) = Some i) /\
  (forall i j, i < length x -> j < length x ->
     f64_sort_le (x !!! j) (x !!! i) = false -> r !!! i < r !!! j) /\
  (x <> [] -> np_max r = length x - 1) /\
  (2 <= length x -> 1 <= np_max r).
Proof.
  assert (forall i, i < length x -> r !!! i < length x) as Hlt.
  { intros i Hi. rewrite <- (argsort_ok_length _ _ _ ok_f64).
    apply (argsort_ok_lt _ _ _ ok_int). by rewrite ranks_length. }
  split; [apply ranks_perm|]. split; [|split; [|split; [apply ranks_max|]]].
  - intros i Hi. rewrite <- (ranks_inverse_lookup i Hi) at 2.
    apply list_lookup_lookup_total_lt.
    rewrite (argsort_ok_length _ _ _ ok_f64). by apply Hlt.
  - intros i j Hi Hj Hle.
    destruct (decide (r !!! i < r !!! j)) as [|Hge]; [done|exfalso].
    destruct (decide (r !!! i = r !!! j)) as [Heq|Hne].
    + assert (i = j) as ->
        by (rewrite <- (ranks_inverse_lookup i Hi), <- (ranks_inverse_lookup j Hj);
            by rewrite Heq).
      by rewrite f64_sort_le_refl in Hle.
    + pose proof (argsort_ok_sorted _ _ _ ok_f64 (r !!! j) (r !!! i)) as Hs.
      rewrite !ranks_inverse_lookup in Hs by done.
      rewrite Hs in Hle; [done|lia|].
      rewrite (argsort_ok_length _ _ _ ok_f64). by apply Hlt.
  - intros Hn. rewrite ranks_max; [lia|]. intros Hx. rewrite Hx in Hn. simpl in Hn. lia.
Qed.

End RanksFacts.

Lemma double_argsort_ranks_witness :
  ranks_of (ref_argsort f64_sort_le) (ref_argsort Nat.leb) [of_Z 30; of_Z 10; of_Z 20]
  ≡ₚ seq 0 3.
Proof.
  refine (proj1 (double_argsort_ranks (ref_argsort f64_sort_le) (ref_argsort Nat.leb)
                   [of_Z 30; of_Z 10; of_Z 20] _ _)); vm_compute; reflexivity.
Defined.

(** * The particle index of [load_chunk] *)

Lemma astype_bool_b2f (b : bool) : astype_bool (b2f b) = b.
Proof. by destruct b. Qed.

Lemma np_compress_nil_r {A} (m : list bool) : np_compress m (@nil A) = [].
Proof. by destruct m. Qed.

Lemma np_compress_app {A} (m1 m2 : list bool) (a1 a2 : list A) :
  length m1 = length a1 ->
  np_compress (m1 ++ m2) (a1 ++ a2) = np_compress m1 a1 ++ np_compress m2 a2.
Proof.
  revert a1. induction m1 as [|b m1 IH]; intros [|x a1] Hl; try discriminate; [done|].
  simpl. rewrite IH by (simpl in Hl; lia). by destruct b.
Qed.

Lemma np_compress_false {A} (k : nat) (a : list A) : np_compress (replicate k false) a = [].
Proof. revert a. induction k as [|k IH]; intros [|x a]; simpl; auto. Qed.

Lemma np_compress_length {A} (m : list bool) (a : list A) :
  length m = length a -> length (np_compress m a) = np_sum m.
Proof.
  revert a. induction m as [|b m IH]; intros [|x a] Hl; try discriminate; [done|].
  simpl. destruct b; simpl; rewrite IH by (simpl in Hl; lia); done.
Qed.

Lemma np_compress_replicate {A} (m : list bool) (x : A) :
  np_compress m (replicate (length m) x) = replicate (np_sum m) x.
Proof.
  induction m as [|b m IH]; [done|]. simpl. rewrite IH. by destruct b.
Qed.

Lemma np_compress_split {A} (P : nat) (m : list bool) (a : list A) :
  length m = length a ->
  np_compress m a
  = np_compress (take P m) (take P a) ++ np_compress (drop P m) (drop P a).
Proof.
  intros Hl. rewrite <- np_compress_app by (rewrite !length_take; lia).
  by rewrite !take_drop.
Qed.

Lemma take_drop_app_le {A} (c s : nat) (l k : list A) :
  s + c <= length l -> take c (drop s (l ++ k)) = take c (drop s l).
Proof.
  intros Hl. rewrite drop_app_le by lia. rewrite take_app_le; [done|].
  rewrite length_drop. lia.
Qed.

(** A slice that lies inside the array. *)
Lemma slice_len_inside (len s n : nat) : s + n <= len -> slice_len len s (s + n) = n.
Proof. unfold slice_len. lia. Qed.

Lemma list_inserts_inside {A} (a v : list A) (s : nat) :
  s + length v <= length a ->
  list_inserts s v a = take s a ++ v ++ drop (s + length v) a.
Proof.
  intros Hl.
  rewrite <- (take_drop s a) at 1.
  replace s with (length (take s a) + 0) at 1 by (rewrite length_take; lia).
  rewrite list_inserts_app_r. f_equal.
  rewrite <- (take_drop (length v) (drop s a)) at 1.
  rewrite list_inserts_0_r by (rewrite length_take, length_drop; lia).
  by rewrite drop_drop.
Qed.

Lemma assign_slice_inside {A} (a v : list A) (s : nat) :
  s + length v <= length a ->
  assign_slice a s (s + length v) v = Some (take s a ++ v ++ drop (s + length v) a).
Proof.
  intros Hl. unfold assign_slice. rewrite slice_len_inside by done.
  rewrite decide_True by done. by rewrite list_inserts_inside.
Qed.

Lemma fill_slice_inside {A} (a : list A) (s n : nat) (x : A) :
  s + n <= length a ->
  fill_slice a s (s + n) x = take s a ++ replicate n x ++ drop (s + n) a.
Proof.
  intros Hl. unfold fill_slice. rewrite slice_len_inside by done.
  rewrite list_inserts_inside by (rewrite length_replicate; done).
  by rewrite length_replicate.
Qed.

Section LoadChunkFacts.

Variable halos : list halo.
Variable submask : nat -> list bool.
Context {P : Type}.
Variable parts : list P.

Local Abbreviation np := (length parts).
Local Abbreviation nh := (length halos).

Hypothesis Hsub : forall j, j < nh -> length (submask j) = npoutA (halos !!! j).
Hypothesis Hord : forall j, S j < nh ->
  npstartA (halos !!! j) + npoutA (halos !!! j) <= npstartA (halos !!! S j).
Hypothesis Hend : forall j, j < nh ->
  npstartA (halos !!! j) + npoutA (halos !!! j) <= np.

Lemma kept_upto_length {A} (F : nat) st (a : list A) :
  length (mask_parts st) = length a ->
  length (kept_upto F st a) = np_sum (astype_bool <$> take F (mask_parts st)).
Proof.
  intros Hl. apply np_compress_length. rewrite length_fmap, !length_take. lia.
Qed.

(** One kept halo: the output grows by the kept particles of its slice. *)
Lemma kept_upto_step {A} (F s : nat) (sub : list bool) st st' (a a' : list A) :
  length (mask_parts st) = length a -> length a' = length a ->
  F <= s -> s + length sub <= length a ->
  drop F (mask_parts st) = replicate (length a - F) F64.zero ->
  mask_parts st'
  = take s (mask_parts st) ++ (b2f <$> sub) ++ drop (s + length sub) (mask_parts st) ->
  take s a' = take s a ->
  kept_upto (s + length sub) st' a'
  = kept_upto F st a ++ np_compress sub (take (length sub) (drop s a')).
Proof.
  intros Hm Ha HF Hs Hz Hm' Hpre. unfold kept_upto.
  assert (take s (mask_parts st) = take F (mask_parts st) ++ replicate (s - F) F64.zero) as Hts.
  { rewrite <- (take_drop F (mask_parts st)) at 1.
    rewrite take_app_ge by (rewrite length_take; lia).
    rewrite length_take, Hz, take_replicate.
    do 2 f_equal; lia. }
  assert (take (s + length sub) (mask_parts st')
          = take F (mask_parts st) ++ replicate (s - F) F64.zero ++ (b2f <$> sub)) as ->.
  { rewrite Hm', app_assoc.
    rewrite take_app_length' by (rewrite length_app, length_take, length_fmap; lia).
    by rewrite Hts, <- app_assoc. }
  assert (take (s + length sub) a'
          = take F a ++ take (s - F) (drop F a) ++ take (length sub) (drop s a')) as ->.
  { rewrite <- (take_drop s a') at 1.
    rewrite take_app_ge by (rewrite length_take; lia).
    rewrite length_take. replace (s + length sub - s `min` length a') with (length sub) by lia.
    rewrite Hpre. rewrite <- (take_drop F a) at 1.
    rewrite take_app_ge by (rewrite length_take; lia).
    rewrite length_take. replace (s - F `min` length a) with (s - F) by lia.
    by rewrite <- app_assoc. }
  rewrite !fmap_app, fmap_replicate.
  rewrite np_compress_app by (rewrite length_fmap, !length_take; lia).
  rewrite np_compress_app
    by (rewrite length_replicate, length_take, length_drop; lia).
  change (astype_bool F64.zero) with false. rewrite np_compress_false. simpl.
  f_equal. f_equal. rewrite <- list_fmap_compose.
  rewrite (list_fmap_ext (astype_bool ∘ b2f) id sub); [by rewrite list_fmap_id|].
  intros i b _. apply astype_bool_b2f.
Qed.

Lemma halo_settled_grow (st st' : chunk_arrays) (j j0 : nat)
    (Op Xp : list P) (Oi Xi On Xn : list float64) :
  j0 <> j ->
  halos_pstart_new st' !! j0 = halos_pstart_new st !! j0 ->
  halos_pnum_new st' !! j0 = halos_pnum_new st !! j0 ->
  length Oi = length Op -> length On = length Op ->
  halo_settled halos submask parts st Op Oi On j0 ->
  halo_settled halos submask parts st' (Op ++ Xp) (Oi ++ Xi) (On ++ Xn) j0.
Proof.
  intros Hne Hp Hq Hli Hln. unfold halo_settled. cbv zeta.
  destruct (mask_subsample (halos !!! j0)); [|by rewrite Hp, Hq].
  intros (s & H1 & H2 & H3 & H4 & H5 & H6). exists s.
  rewrite Hp, Hq, length_app, !take_drop_app_le by lia.
  repeat split; try done. lia.
Qed.

Lemma load_step_inv (j : nat) (st : chunk_arrays) :
  j < nh -> chunk_inv halos submask parts j st ->
  exists st', load_step halos submask st j = Some st' /\
              chunk_inv halos submask parts (S j) st'.
Proof.
  intros Hj (Hlm & Hln & Hli & Hlp & Hlq & F & HF & HFs & Hz & Hsum & Hset).
  specialize (HFs Hj). pose proof (Hsub j Hj) as Hsj. pose proof (Hend j Hj) as Hej.
  assert (forall A (a : list A), length a = np -> length (kept_upto F st a) = start_tracker st)
    as Hout by (intros A a Ha; rewrite kept_upto_length by congruence; done).
  unfold load_step. cbv zeta.
  destruct (mask_subsample (halos !!! j)) eqn:Hkeep.
  - (* a kept halo *)
    set (s := npstartA (halos !!! j)) in *.
    set (sub := submask j) in *.
    rewrite <- Hsj in *.
    assert (assign_slice (mask_parts st) s (s + length sub) (b2f <$> sub)
            = Some (take s (mask_parts st) ++ (b2f <$> sub)
                    ++ drop (s + length sub) (mask_parts st))) as ->.
    { pose proof (assign_slice_inside (mask_parts st) (b2f <$> sub) s) as Ha.
      rewrite length_fmap in Ha. apply Ha. lia. }
    cbn [mbind option_bind]. rewrite !fill_slice_inside by lia.
    eexists. split; [reflexivity|].
    match goal with |- chunk_inv _ _ _ _ ?x => set (st' := x) end.
    assert (length (mask_parts st') = np) as Hlm'
      by (cbn; rewrite !length_app, length_take, length_fmap, length_drop; lia).
    assert (length (Np_parts st') = np) as Hln'
      by (cbn; rewrite !length_app, length_take, length_replicate, length_drop; lia).
    assert (length (idh_parts st') = np) as Hli'
      by (cbn; rewrite !length_app, length_take, length_replicate, length_drop; lia).
    assert (forall A (a a' : list A), length a = np -> length a' = np ->
              take s a' = take s a ->
              kept_upto (s + length sub) st' a'
              = kept_upto F st a ++ np_compress sub (take (length sub) (drop s a')))
      as Hstep.
    { intros A a a' Ha Ha' Hpre.
      apply kept_upto_step; try done; try lia; by rewrite ?Ha. }
    assert (forall x (a : list float64), length a = np ->
              kept_upto (s + length sub) st'
                (take s a ++ replicate (length sub) x ++ drop (s + length sub) a)
              = kept_upto F st a ++ replicate (np_sum sub) x) as Hfill.
    { intros x a Ha. rewrite (Hstep _ a); [| done | |].
      - rewrite drop_app_length' by (rewrite length_take; lia).
        rewrite take_app_length' by (by rewrite length_replicate).
        by rewrite np_compress_replicate.
      - rewrite !length_app, length_take, length_replicate, length_drop. lia.
      - rewrite take_app_length' by (rewrite length_take; lia). done. }
    pose proof (Hstep _ parts parts eq_refl eq_refl eq_refl) as HOp.
    assert (length (np_compress sub (take (length sub) (drop s parts))) = np_sum sub)
      as Hpiece by (apply np_compress_length; rewrite length_take, length_drop; lia).
    split; [done|]. split; [done|]. split; [done|].
    split; [by cbn; rewrite length_insert|]. split; [by cbn; rewrite length_insert|].
    exists (s + length sub). split; [lia|].
    split; [intros HS; pose proof (Hord j HS); unfold s; lia|].
    split.
    { cbn [mask_parts st']. rewrite app_assoc, drop_app_length'
        by (rewrite length_app, length_take, length_fmap; lia).
      replace (s + length sub) with (F + (s + length sub - F)) by lia.
      rewrite <- drop_drop, Hz, drop_replicate. f_equal. lia. }
    split.
    { rewrite <- kept_upto_length with (a := parts) by done.
      rewrite HOp, length_app, Hout, Hpiece by done. done. }
    intros j0 Hj0. cbn [Np_parts idh_parts st']. rewrite HOp, !Hfill by done.
    destruct (decide (j0 = j)) as [->|Hne].
    + unfold halo_settled. cbv zeta. rewrite Hkeep. exists (start_tracker st).
      cbn [halos_pstart_new halos_pnum_new st'].
      rewrite !list_lookup_insert_eq by lia.
      fold sub. fold s.
      rewrite length_app, Hout, Hpiece by done.
      rewrite !drop_app_length' by (symmetry; by apply Hout).
      rewrite !take_ge by (rewrite ?length_replicate, ?Hpiece; lia).
      rewrite <- Hsj.
      repeat split; try done; by rewrite take_ge by (rewrite length_replicate; lia).
    + apply halo_settled_grow with (st := st) (j := j); try done.
      * cbn. by rewrite list_lookup_insert_ne.
      * cbn. by rewrite list_lookup_insert_ne.
      * by rewrite !Hout.
      * by rewrite !Hout.
      * apply Hset. lia.
  - (* a dropped halo *)
    eexists. split; [reflexivity|].
    split; [done|]. split; [done|]. split; [done|].
    split; [by cbn; rewrite length_insert|]. split; [by cbn; rewrite length_insert|].
    exists F. split; [done|]. split.
    { intros HS. pose proof (Hord j HS). lia. }
    split; [done|]. split; [done|].
    intros j0 Hj0. unfold kept_upto. cbn [mask_parts Np_parts idh_parts].
    destruct (decide (j0 = j)) as [->|Hne].
    + unfold halo_settled. cbv zeta. rewrite Hkeep. cbn.
      by rewrite !list_lookup_insert_eq by lia.
    + assert (j0 < j) as Hlt by lia. specialize (Hset j0 Hlt).
      unfold halo_settled in *. cbv zeta in *. cbn [halos_pstart_new halos_pnum_new].
      rewrite !list_lookup_insert_ne by done. exact Hset.
Qed.

Lemma load_loop_inv (k : nat) :
  k <= nh ->
  exists st,
    foldl (fun st j => st ≫= fun st => load_step halos submask st j)
          (Some (chunk_init halos np)) (seq 0 k) = Some st /\
    chunk_inv halos submask parts k st.
Proof.
  induction k as [|k IH]; intros Hk.
  - exists (chunk_init halos np). split; [done|].
    unfold chunk_inv, chunk_init. cbn. rewrite !length_replicate.
    do 5 (split; [done|]).
    exists 0. rewrite Nat.sub_0_r.
    split; [lia|]. split; [lia|]. split; [done|]. split; [done|].
    intros j0 Hj0. lia.
  - destruct IH as (st & Hst & Hinv); [lia|].
    destruct (load_step_inv k st) as (st' & Hst' & Hinv'); [lia|done|].
    exists st'. split; [|done]. by rewrite seq_S, foldl_snoc, Hst.
Qed.

Lemma kept_parts_upto {A} (F : nat) (st : chunk_arrays) (a : list A) :
  length (mask_parts st) = length a ->
  drop F (mask_parts st) = replicate (length a - F) F64.zero ->
  kept_parts st a = kept_upto F st a.
Proof.
  intros Hl Hz. unfold kept_parts, kept_upto.
  rewrite (np_compress_split F) by (by rewrite length_fmap).
  rewrite <- fmap_take, <- fmap_drop, Hz, fmap_replicate.
  change (astype_bool F64.zero) with false.
  by rewrite np_compress_false, app_nil_r.
Qed.

(** [X17].  The new particle index is consistent with the compacted particle
    table.  When the halos' particle slices lie inside the particle table
    in halo order without overlap, and each draw has one entry per particle
    of its halo, the loop raises nothing and, after
    [parts = parts[mask_parts.astype(bool)]]:
    - the particle file has [start_tracker] rows;
    - a kept halo's new [npstartA] and [npoutA] delimit, in the compacted
      table, exactly the particles of its old slice that its draw kept, in
      order; on these rows [halo_id] is the halo's id and [Np] the halo's
      new count;
    - a dropped halo has [npstartA = npoutA = -1]. *)
Theorem load_chunk_particle_index :
  exists st,
    load_loop halos np submask = Some st /\
    length (kept_parts st parts) = start_tracker st /\
    forall j, j < nh ->
      halo_settled halos submask parts st (kept_parts st parts)
        (kept_parts st (idh_parts st)) (kept_parts st (Np_parts st)) j.
Proof.
  destruct (load_loop_inv nh) as (st & Hst & Hinv); [done|].
  exists st. split; [exact Hst|].
  destruct Hinv as (Hlm & Hln & Hli & Hlp & Hlq & F & HF & _ & Hz & Hsum & Hset).
  rewrite !(kept_parts_upto F) by congruence.
  split; [by rewrite kept_upto_length|]. exact Hset.
Qed.

End LoadChunkFacts.

Lemma load_chunk_particle_index_witness :
  exists st,
    load_loop ex_chunk 6 ex_submask = Some st /\
    length (kept_parts st [10; 11; 12; 13; 14; 15]) = start_tracker st.
Proof.
  destruct (load_chunk_particle_index ex_chunk ex_submask [10; 11; 12; 13; 14; 15])
    as (st & Hst & Hlen & _).
  - intros [|[|[|j]]] Hj; try reflexivity. simpl in Hj. lia.
  - intros [|[|j]] Hj; simpl in *; lia.
  - intros [|[|[|j]]] Hj; simpl in *; lia.
  - exists st. split; [exact Hst | exact Hlen].
Defined.



(** * Ranks within mass bins *)

Lemma np_place_length {A} (a : list A) (m : list bool) (v : list A) :
  length (np_place a m v) = length a.
Proof.
  revert m v. induction a as [|x a IH]; intros [|b m] v; simpl; try done.
  destruct b; [destruct v|]; simpl; by rewrite IH.
Qed.

Lemma np_place_lookup_ne {A} (a : list A) (m : list bool) (v : list A) (i : nat) :
  m !! i <> Some true -> np_place a m v !! i = a !! i.
Proof.
  revert m v i. induction a as [|x a IH]; intros [|b m] v i Hm; simpl; try done.
  destruct i as [|i].
  - destruct b; [by destruct Hm|done].
  - simpl in Hm. destruct b; [destruct v|]; simpl; by apply IH.
Qed.

Lemma np_sum_cons (b : bool) (m : list bool) : np_sum (b :: m) = Nat.b2n b + np_sum m.
Proof. reflexivity. Qed.

Lemma np_place_none {A} (a : list A) (m : list bool) (v : list A) :
  np_sum m = 0 -> np_place a m v = a.
Proof.
  revert m v. induction a as [|x a IH]; intros [|b m] v Hm; simpl; try done.
  rewrite np_sum_cons in Hm. destruct b; [discriminate Hm|]. by rewrite IH.
Qed.

Lemma np_compress_place {A} (a : list A) (m : list bool) (v : list A) :
  length m = length a -> length v = np_sum m -> np_compress m (np_place a m v) = v.
Proof.
  revert m v. induction a as [|x a IH]; intros [|b m] v Hl Hv; try done.
  - by destruct v.
  - rewrite np_sum_cons in Hv. simpl in Hl. destruct b; simpl in Hv |- *.
    + destruct v as [|y v]; [discriminate Hv|]. simpl in Hv |- *. f_equal. apply IH; lia.
    + apply IH; lia.
Qed.

Lemma np_compress_ext {A} (m : list bool) (a a' : list A) :
  length a = length a' ->
  (forall i, m !! i = Some true -> a !! i = a' !! i) ->
  np_compress m a = np_compress m a'.
Proof.
  revert a a'. induction m as [|b m IH]; intros [|x a] [|x' a'] Hl He; simpl in *;
    try done.
  assert (np_compress m a = np_compress m a') as ->.
  { apply IH; [lia|]. intros i Hi. apply (He (S i) Hi). }
  destruct b; [|done]. f_equal. specialize (He 0 eq_refl). by injection He.
Qed.

Section MassBinFacts.

Variable argsort_f64 : list float64 -> list nat.
Variable argsort_int : list nat -> list nat.
Variable halos_N : list Z.
Variable Mpart : float64.
Variable mbins : list float64.
Variable bin_values : list bool -> list float64.

Local Abbreviation n := (length halos_N).
Local Abbreviation mask := (mmask halos_N Mpart mbins).
Local Abbreviation ranks m := (ranks_of argsort_f64 argsort_int (bin_values m)).
Local Abbreviation cells := (bin_cells argsort_f64 argsort_int bin_values).
Local Abbreviation step :=
  (rank_step argsort_f64 argsort_int halos_N Mpart mbins bin_values).

(** [np.logspace] returns the [nbins + 1] edges it is asked for; a bin
    ranks one value for each of its halos; the two [argsort] return what
    they promise on the bins. *)
Hypothesis Hbins : length mbins = S nbins.
Hypothesis Hvals : forall b m, b < nbins -> mask b = Some m ->
  length (bin_values m) = np_sum m.
Hypothesis ok_f64 : forall b m, b < nbins -> mask b = Some m ->
  argsort_ok f64_sort_le (bin_values m) (argsort_f64 (bin_values m)) = true.
Hypothesis ok_int : forall b m, b < nbins -> mask b = Some m ->
  argsort_ok Nat.leb (argsort_f64 (bin_values m)) (ranks m) = true.

Lemma mmask_Some (b : nat) : b < nbins -> exists m, mask b = Some m /\ length m = n.
Proof.
  intros Hb. unfold mmask.
  destruct (lookup_lt_is_Some_2 mbins b) as [lo ->]; [lia|].
  destruct (lookup_lt_is_Some_2 mbins (S b)) as [hi ->]; [lia|].
  eexists. split; [reflexivity|]. by rewrite length_fmap.
Qed.

Lemma mmask_length (b : nat) (m : list bool) : mask b = Some m -> length m = n.
Proof.
  unfold mmask. intros Hm.
  destruct (mbins !! b) as [lo|]; [|discriminate Hm].
  destruct (mbins !! S b) as [hi|]; [|discriminate Hm].
  simpl in Hm. injection Hm as <-. by rewrite length_fmap.
Qed.

Lemma bin_cells_length (b : nat) (m : list bool) :
  b < nbins -> mask b = Some m -> 0 < np_sum m -> length (cells m) = np_sum m.
Proof.
  intros Hb Hm Hpos. unfold bin_cells. case_decide as H1; [by rewrite H1|].
  unfold rank_fraction. rewrite length_fmap.
  rewrite (ranks_length _ _ _ (ok_f64 b m Hb Hm) (ok_int b m Hb Hm)).
  by apply (Hvals b).
Qed.

Lemma rank_step_place (b : nat) (m : list bool) (rank : list float64) :
  b < nbins -> mask b = Some m -> length rank = n ->
  step rank b = Some (np_place rank m (cells m)).
Proof.
  intros Hb Hm Hl. pose proof (mmask_length b m Hm) as Hlm.
  unfold rank_step. rewrite Hm. simpl.
  case_decide as Hpos.
  - pose proof (bin_cells_length b m Hb Hm Hpos) as Hc. unfold bin_cells in *.
    case_decide as H1.
    + unfold fill_mask. rewrite decide_True by lia. by rewrite H1.
    + unfold assign_mask. rewrite decide_True by lia. by rewrite decide_True.
  - by rewrite np_place_none by lia.
Qed.

(** The state of the loop after the first [k] bins. *)
Lemma rank_loop_inv (k : nat) :
  k <= nbins ->
  exists out,
    foldl (fun rank ibin => rank ≫= fun rank => step rank ibin)
          (Some (replicate n F64.zero)) (seq 0 k) = Some out /\
    length out = n /\
    (forall i, i < n ->
       (forall b m, b < k -> mask b = Some m -> m !! i = Some false) ->
       out !! i = Some F64.zero) /\
    (forall b m, b < k -> mask b = Some m ->
       (forall b' m' i, b < b' < k -> mask b' = Some m' ->
          m !! i = Some true -> m' !! i = Some false) ->
       np_compress m out = if decide (0 < np_sum m) then cells m else []).
Proof.
  induction k as [|k IH]; intros Hk.
  - exists (replicate n F64.zero). split; [done|]. split; [by rewrite length_replicate|].
    split; [|intros; lia].
    intros i Hi _. by apply lookup_replicate_2.
  - destruct IH as (out & Hf & Hl & Hz & Hb); [lia|].
    destruct (mmask_Some k) as (mk & Hmk & Hlk); [lia|].
    exists (np_place out mk (cells mk)).
    rewrite seq_S, foldl_snoc. simpl. rewrite Hf. simpl.
    split; [apply rank_step_place; [lia|done..]|].
    split; [by rewrite np_place_length|]. split.
    + intros i Hi Hno. rewrite np_place_lookup_ne.
      * apply Hz; [done|]. intros b m Hbk. apply Hno. lia.
      * rewrite (Hno k mk) by (lia || done). discriminate.
    + intros b m Hbk Hm Hlater.
      destruct (decide (b = k)) as [->|Hne].
      * assert (m = mk) as -> by congruence.
        case_decide as Hpos.
        -- apply np_compress_place; [lia|]. apply (bin_cells_length k); [lia|done..].
        -- rewrite np_place_none by lia. apply length_zero_iff_nil.
           rewrite np_compress_length by lia. lia.
      * rewrite <- (Hb b m); [|lia|done|].
        -- apply np_compress_ext; [by rewrite np_place_length|].
           intros i Hi. apply np_place_lookup_ne.
           rewrite (Hlater k mk i) by (lia || done). discriminate.
        -- intros b' m' i Hbb. apply Hlater. lia.
Qed.

(** [X19].  The ranks of the mass bins.  With the [nbins + 1] edges in place the
    loop returns an array with one cell for each halo.  A halo that is
    strictly inside no bin (its mass is an edge, or lies outside the edges)
    keeps the 0.0 the array starts with.  For a bin whose halos are in no
    later bin: a lone halo has rank 0.0, and two halos or more have
    [k / (c - 1) - 0.5], where [c] is their number and [k], their rank by
    value within the bin, runs through [0, ..., c - 1]. *)
Theorem mass_bin_ranks :
  exists out,
    rank_loop argsort_f64 argsort_int halos_N Mpart mbins bin_values = Some out /\
    length out = n /\
    (forall i, i < n ->
       (forall b m, b < nbins -> mask b = Some m -> m !! i = Some false) ->
       out !! i = Some F64.zero) /\
    (forall b m, b < nbins -> mask b = Some m ->
       (forall b' m' i, b < b' < nbins -> mask b' = Some m' ->
          m !! i = Some true -> m' !! i = Some false) ->
       (np_sum m = 1 -> np_compress m out = [F64.zero]) /\
       (2 <= np_sum m ->
          np_compress m out
          = (fun k => (F64.of_Z (Z.of_nat k) / F64.of_Z (Z.of_nat (np_sum m - 1))
                       - lit 5 1)%f64) <$> ranks m /\
          ranks m ≡ₚ seq 0 (np_sum m))).
Proof.
  destruct (rank_loop_inv nbins) as (out & Hf & Hl & Hz & Hb); [done|].
  exists out. split; [exact Hf|]. split; [exact Hl|]. split; [exact Hz|].
  intros b m Hbn Hm Hlater. specialize (Hb b m Hbn Hm Hlater).
  pose proof (Hvals b m Hbn Hm) as Hv.
  split.
  - intros H1. rewrite Hb, decide_True by lia. unfold bin_cells.
    by rewrite decide_True.
  - intros H2. rewrite Hb, decide_True by lia. unfold bin_cells.
    rewrite decide_False by lia. unfold rank_fraction.
    rewrite (ranks_max _ _ _ (ok_f64 b m Hbn Hm) (ok_int b m Hbn Hm))
      by (intros Hx; rewrite Hx in Hv; simpl in Hv; lia).
    rewrite Hv. split; [done|].
    rewrite (ranks_perm _ _ _ (ok_f64 b m Hbn Hm) (ok_int b m Hbn Hm)).
    by rewrite Hv.
Qed.

End MassBinFacts.

Lemma mass_bin_ranks_witness :
  exists out,
    fenv_rank (ref_argsort f64_sort_le) (ref_argsort Nat.leb) ex_halos_N (F64.of_Z 1)
      ex_mbins ex_overdens = Some out /\
    length out = 5.
Proof.
  assert (forallb (fun b =>
            match mmask ex_halos_N (F64.of_Z 1) ex_mbins b with
            | Some m =>
                argsort_ok f64_sort_le (np_compress m ex_overdens)
                  (ref_argsort f64_sort_le (np_compress m ex_overdens))
                && argsort_ok Nat.leb (ref_argsort f64_sort_le (np_compress m ex_overdens))
                     (ranks_of (ref_argsort f64_sort_le) (ref_argsort Nat.leb)
                        (np_compress m ex_overdens))
            | None => true
            end) (seq 0 nbins) = true) as Hall by (vm_compute; reflexivity).
  rewrite forallb_forall in Hall.
  destruct (mass_bin_ranks (ref_argsort f64_sort_le) (ref_argsort Nat.leb) ex_halos_N
              (F64.of_Z 1) ex_mbins (fun mmask => np_compress mmask ex_overdens))
    as (out & Hout & Hlen & _).
  - reflexivity.
  - intros b m _ Hm. apply np_compress_length.
    by rewrite (mmask_length _ _ _ _ _ Hm).
  - intros b m Hb Hm. specialize (Hall b). rewrite Hm in Hall.
    apply andb_true_iff in Hall; [tauto|]. apply in_seq. simpl. lia.
  - intros b m Hb Hm. specialize (Hall b). rewrite Hm in Hall.
    apply andb_true_iff in Hall; [tauto|]. apply in_seq. simpl. lia.
  - exists out. split; [exact Hout|exact Hlen].
Defined.
